(** * restore_cocos_assets: a shallow embedding and its checked properties

    The development follows [restore_cocos_assets.py], function by
    function.  Python values are modelled as the program sees them:

    - [bytes] as [list byte], [int] as [Z], [float] as an IEEE-754 binary64
      value ([spec_float], round to nearest even);
    - [str] as [string], one [ascii] per code point, so the text the model
      handles ranges over the code points below 256;
    - a JSON document as the tagged tree [json]; a dictionary that the
      program iterates as an association list in insertion order;
    - a raised exception as the [Raise] alternative of [result]; code that
      writes files runs in [run], which threads the file tree and keeps it
      when an exception passes through;
    - the file tree as a finite map from paths to contents.  A path is
      taken as text: [.] and [..] are not resolved.  A copy fails when the
      directory of its destination is missing; a destination that is itself
      a directory, permissions and other failures of the operating system
      are left out, as is the recursion limit of the interpreter.

    What the program obtains from outside (directory listings, the JSON
    parser, [int] on text, the network) is gathered in the record [host]. *)

From Stdlib Require Import ZArith Lia Strings.Byte Ascii SpecFloat DecimalString DecimalNat Sorted.
From stdpp Require Import base option list strings gmap.
From Equations Require Import Equations.

Set Warnings "-register-all".
Local Open Scope Z_scope.

(** ** Python bytes *)
Module Bytes.

#[global] Instance byte_eq_decision : EqDecision byte := Byte.byte_eq_dec.

Definition byte_val (b : byte) : Z := Z.of_N (Byte.to_N b).

(** [buf[a:b]] for non-negative [a] and [b]: out-of-range bounds are clamped. *)
Definition slice (buf : list byte) (a b : Z) : list byte :=
  take (Z.to_nat (b - a)) (drop (Z.to_nat a) buf).

(** [buf[i]] for non-negative [i]; [None] stands for [IndexError]. *)
Definition index (buf : list byte) (i : Z) : option Z :=
  if decide (0 <= i) then byte_val <$> buf !! Z.to_nat i else None.

(** [int.from_bytes(bs, "little")] *)
Fixpoint from_bytes_little (bs : list byte) : Z :=
  match bs with
  | [] => 0
  | b :: bs' => byte_val b + 256 * from_bytes_little bs'
  end.

(** [int.from_bytes(bs, "big")] *)
Definition from_bytes_big (bs : list byte) : Z :=
  foldl (fun acc b => 256 * acc + byte_val b) 0 bs.

Definition len (buf : list byte) : Z := Z.of_nat (length buf).

End Bytes.

(** ** ContainerSniffer: WEBP dimensions ([read_webp_size]) *)
Module Webp.
Import Bytes.

Definition tag_RIFF : list byte := ["R"; "I"; "F"; "F"]%byte.
Definition tag_WEBP : list byte := ["W"; "E"; "B"; "P"]%byte.
Definition tag_VP8X : list byte := ["V"; "P"; "8"; "X"]%byte.
Definition tag_VP8  : list byte := ["V"; "P"; "8"; " "]%byte.
Definition tag_VP8L : list byte := ["V"; "P"; "8"; "L"]%byte.
Definition vp8_start_code : list byte := [x9d; x01; x2a].

Definition chunk_tag (buf : list byte) (off : Z) : list byte := slice buf off (off + 4).
Definition chunk_size (buf : list byte) (off : Z) : Z :=
  from_bytes_little (slice buf (off + 4) (off + 8)).

(** The raw fields each sub-chunk variant decodes, [off] being the chunk
    offset (so the payload starts at [off + 8]). *)
Definition vp8x_w_minus_1 (buf : list byte) (off : Z) : Z :=
  from_bytes_little (slice buf (off + 8 + 4) (off + 8 + 7)).
Definition vp8x_h_minus_1 (buf : list byte) (off : Z) : Z :=
  from_bytes_little (slice buf (off + 8 + 7) (off + 8 + 10)).

Definition vp8_w (buf : list byte) (off : Z) : Z :=
  let sig_off := off + 8 + 3 in
  Z.land (from_bytes_little (slice buf (sig_off + 3) (sig_off + 5))) 0x3FFF.
Definition vp8_h (buf : list byte) (off : Z) : Z :=
  let sig_off := off + 8 + 3 in
  Z.land (from_bytes_little (slice buf (sig_off + 5) (sig_off + 7))) 0x3FFF.

Definition vp8l_w_field (b1 b2 : Z) : Z :=
  Z.lor b1 (Z.shiftl (Z.land b2 0x3F) 8).
Definition vp8l_h_field (b2 b3 b4 : Z) : Z :=
  Z.lor (Z.lor (Z.shiftr b2 6) (Z.shiftl b3 2)) (Z.shiftl (Z.land b4 0x03) 10).

(** The outcome of one iteration of the [while] loop. *)
Inductive chunk_result :=
| Found (width height : Z)      (* [return {"width": .., "height": ..}] *)
| Raised                        (* an [IndexError], turned into [None] by [except] *)
| Next.                         (* fall through to [off = data_start + ...] *)

Definition webp_chunk (buf : list byte) (off : Z) : chunk_result :=
  let chunk := chunk_tag buf off in
  let size := chunk_size buf off in
  let data_start := off + 8 in
  if decide (chunk = tag_VP8X) then
    Found (vp8x_w_minus_1 buf off + 1) (vp8x_h_minus_1 buf off + 1)
  else if decide (chunk = tag_VP8 ∧ 10 <= size) then
    let sig_off := data_start + 3 in
    if decide (slice buf sig_off (sig_off + 3) = vp8_start_code) then
      Found (vp8_w buf off) (vp8_h buf off)
    else Next
  else if decide (chunk = tag_VP8L ∧ 5 <= size) then
    match index buf data_start with
    | None => Raised
    | Some s =>
      if decide (s = 0x2F) then
        match index buf (data_start + 1), index buf (data_start + 2),
              index buf (data_start + 3), index buf (data_start + 4) with
        | Some b1, Some b2, Some b3, Some b4 =>
            Found (vp8l_w_field b1 b2 + 1) (vp8l_h_field b2 b3 b4 + 1)
        | _, _, _, _ => Raised
        end
      else Next
    end
  else Next.

(** [off = data_start + ((size + 1) & ~1)] *)
Definition next_off (buf : list byte) (off : Z) : Z :=
  off + 8 + Z.land (chunk_size buf off + 1) (Z.lnot 1).

(** The [while off + 8 <= len(buf)] loop. *)
Equations? webp_scan (buf : list byte) (off : Z) : option (Z * Z)
  by wf (Z.to_nat (len buf - off)) lt :=
webp_scan buf off with decide (off + 8 <= len buf) => {
  | right _ => None
  | left _ with webp_chunk buf off => {
      | Found w h => Some (w, h)
      | Raised => None
      | Next => webp_scan buf (next_off buf off) } }.
Proof.
  assert (Hsize : 0 <= chunk_size buf off).
  { unfold chunk_size. generalize (slice buf (off + 4) (off + 8)).
    intros bs. induction bs as [|b bs IH]; simpl; [lia|].
    unfold byte_val. lia. }
  assert (0 <= Z.land (chunk_size buf off + 1) (Z.lnot 1))
    by (apply Z.land_nonneg; left; lia).
  unfold next_off. lia.
Qed.

Definition read_webp_size (buf : list byte) : option (Z * Z) :=
  if decide (len buf < 12) then None
  else if decide (slice buf 0 4 ≠ tag_RIFF ∨ slice buf 8 12 ≠ tag_WEBP) then None
  else webp_scan buf 12.

(** Which sub-chunk, and which of its raw fields, reported dimensions
    [w] x [h] come from. *)
Inductive decoded_from (buf : list byte) (w h : Z) : Prop :=
| from_VP8X off :
    chunk_tag buf off = tag_VP8X ->
    w = vp8x_w_minus_1 buf off + 1 -> h = vp8x_h_minus_1 buf off + 1 ->
    decoded_from buf w h
| from_VP8 off :
    chunk_tag buf off = tag_VP8 ->
    w = vp8_w buf off -> h = vp8_h buf off ->
    decoded_from buf w h
| from_VP8L off b1 b2 b3 b4 :
    chunk_tag buf off = tag_VP8L ->
    index buf (off + 8 + 1) = Some b1 -> index buf (off + 8 + 2) = Some b2 ->
    index buf (off + 8 + 3) = Some b3 -> index buf (off + 8 + 4) = Some b4 ->
    w = vp8l_w_field b1 b2 + 1 -> h = vp8l_h_field b2 b3 b4 + 1 ->
    decoded_from buf w h.


(** A file with one VP8X chunk: fields 15 and 31. *)
Definition vp8x_sample : list byte :=
  tag_RIFF ++ [x16; x00; x00; x00] ++ tag_WEBP ++ tag_VP8X ++ [x0a; x00; x00; x00]
  ++ [x00; x00; x00; x00] ++ [x0f; x00; x00] ++ [x1f; x00; x00].

End Webp.

(** ** ContainerSniffer: PNG and JPEG dimensions, magic numbers *)
Module Image.
Import Bytes.

Definition tag_PNG : list byte := ["P"; "N"; "G"]%byte.
Definition png_signature : list byte := [x89; "P"; "N"; "G"; x0d; x0a; x1a; x0a]%byte.
Definition jpeg_soi : list byte := [xff; xd8].

(** Lines 80-92, [data] being the content of the file.  Decoding
    [buf[1:4]] as ASCII with [errors="ignore"] gives "PNG" exactly when the
    three bytes are P, N, G. *)
Definition read_png_size (data : list byte) : option (Z * Z) :=
  let buf := slice data 0 32 in
  if decide (len buf < 24) then None
  else if decide (slice buf 1 4 ≠ tag_PNG) then None
  else Some (from_bytes_big (slice buf 16 20), from_bytes_big (slice buf 20 24)).

(** The outcome of one iteration of the JPEG segment loop. *)
Inductive segment_result :=
| Sof (width height : Z)     (* a start-of-frame segment: [return] *)
| Stop                       (* [break], [return None] or an [IndexError] *)
| Goto (off : Z).            (* [continue] or the end of the body *)

(** Lines 104-126: the loop body at [off]. *)
Definition jpeg_segment (data : list byte) (off : Z) : segment_result :=
  match index data off, index data (off + 1) with
  | Some b0, Some marker =>
      if decide (b0 ≠ 0xFF) then Goto (off + 1)
      else if decide (marker = 0xD8 ∨ marker = 0xD9) then Goto (off + 2)
      else if decide (off + 4 > len data) then Stop
      else
        match index data (off + 2), index data (off + 3) with
        | Some h, Some l =>
            let seg_len := Z.lor (Z.shiftl h 8) l in
            if decide (seg_len < 2 ∨ off + 2 + seg_len > len data) then Stop
            else if decide (marker = 0xC0 ∨ marker = 0xC1 ∨ marker = 0xC2) then
              if decide (7 <= seg_len) then
                match index data (off + 5), index data (off + 6),
                      index data (off + 7), index data (off + 8) with
                | Some h1, Some h0, Some w1, Some w0 =>
                    Sof (Z.lor (Z.shiftl w1 8) w0) (Z.lor (Z.shiftl h1 8) h0)
                | _, _, _, _ => Stop
                end
              else Stop
            else Goto (off + 2 + seg_len)
        | _, _ => Stop
        end
  | _, _ => Stop
  end.

(** A value together with the equation that names it. *)
Definition inspect {A} (x : A) : {y : A | x = y} := exist _ x eq_refl.

(** Lines 103-127: [while off + 3 < len(data)]. *)
Equations? jpeg_scan (data : list byte) (off : Z) : option (Z * Z)
  by wf (Z.to_nat (len data - off)) lt :=
jpeg_scan data off with decide (off + 3 < len data) => {
  | right _ => None
  | left _ with inspect (jpeg_segment data off) => {
      | exist _ (Sof w h) _ => Some (w, h)
      | exist _ Stop _ => None
      | exist _ (Goto off') Hstep => jpeg_scan data off' } }.
Proof.
  assert (off < off'); [|lia].
  unfold jpeg_segment in Hstep.
  repeat (case_match; try discriminate); injection Hstep as <-; lia.
Qed.

(** Lines 94-129. *)
Definition read_jpeg_size (data : list byte) : option (Z * Z) :=
  if decide (len data < 4 ∨ slice data 0 2 ≠ jpeg_soi) then None
  else jpeg_scan data 2.

(** Lines 180-201, [data] being the content of the file. *)
Definition magic_ok (data : list byte) : bool :=
  let head := slice data 0 12 in
  if decide (len head < 4) then false
  else if decide (slice head 0 8 = png_signature) then true
  else if decide (slice head 0 2 = jpeg_soi) then true
  else if decide (slice head 0 4 = ["R"; "I"; "F"; "F"]%byte) then
    let buf := slice data 0 16 in
    bool_decide (12 <= len buf ∧ slice buf 8 12 = ["W"; "E"; "B"; "P"]%byte)
  else false.

End Image.

(** ** Python values: exceptions, numbers, JSON documents *)
Module Py.

Inductive exn := IndexError | KeyError | TypeError | ValueError | OverflowError | OSError.

(** The outcome of evaluating Python code that may raise. *)
Inductive result (A : Type) :=
| Ok (a : A)
| Raise (e : exn).
Arguments Ok {A} a.
Arguments Raise {A} e.

Definition bind {A B} (r : result A) (k : A -> result B) : result B :=
  match r with
  | Ok a => k a
  | Raise e => Raise e
  end.

#[global] Instance result_ret : MRet result := @Ok.
#[global] Instance result_bind : MBind result := fun A B k r => bind r k.
#[global] Instance result_fmap : FMap result := fun A B f r => bind r (fun a => Ok (f a)).

(** [float]: IEEE-754 binary64. *)
Abbreviation float := spec_float.
Definition prec : Z := 53.
Definition emax : Z := 1024.

(** The float nearest to [m * 2^e] (round half to even). *)
Definition float_lit (m e : Z) : float := binary_normalize prec emax m e false.

(** [float(n)] for an [int]: correctly rounded, [OverflowError] when the
    result is out of range. *)
Definition float_of_int (n : Z) : result float :=
  match float_lit n 0 with
  | S754_infinity _ => Raise OverflowError
  | f => Ok f
  end.

(** [int(x)] for a [float]: truncation towards zero. *)
Definition int_of_float (f : float) : result Z :=
  match f with
  | S754_zero _ => Ok 0
  | S754_infinity _ => Raise OverflowError
  | S754_nan => Raise ValueError
  | S754_finite s m e =>
      let a := Z.shiftl (Z.pos m) e in
      Ok (if s then - a else a)
  end.

(** [x == k] for a float [x] and an int [k]: Python compares exactly. *)
Definition float_eq_int (f : float) (k : Z) : bool :=
  match f with
  | S754_zero _ => k =? 0
  | S754_finite s m e =>
      let v := if s then Z.neg m else Z.pos m in
      if 0 <=? e then Z.shiftl v e =? k else v =? Z.shiftl k (- e)
  | _ => false
  end.

(** A value produced by [json.load]. A [JDict] lists the items of the
    dictionary in insertion order; its keys are pairwise distinct. *)
Inductive json :=
| JNull
| JBool (b : bool)
| JInt (n : Z)
| JFloat (f : float)
| JStr (s : string)
| JList (l : list json)
| JDict (d : list (string * json)).

Definition bool_int (b : bool) : Z := if b then 1 else 0.

(** [isinstance(v, int)]: [bool] is a subclass of [int]. *)
Definition is_int (v : json) : bool :=
  match v with JBool _ | JInt _ => true | _ => false end.
(** [isinstance(v, (int, float))] *)
Definition is_number (v : json) : bool :=
  match v with JBool _ | JInt _ | JFloat _ => true | _ => false end.
Definition is_str (v : json) : bool :=
  match v with JStr _ => true | _ => false end.
Definition is_list (v : json) : bool :=
  match v with JList _ => true | _ => false end.
Definition is_dict (v : json) : bool :=
  match v with JDict _ => true | _ => false end.

(** The integer an [int] instance denotes (as an index, in comparisons). *)
Definition int_val (v : json) : option Z :=
  match v with
  | JBool b => Some (bool_int b)
  | JInt n => Some n
  | _ => None
  end.

(** [v == k] for an int literal [k]. *)
Definition eq_int (v : json) (k : Z) : bool :=
  match v with
  | JBool b => bool_int b =? k
  | JInt n => n =? k
  | JFloat f => float_eq_int f k
  | _ => false
  end.

(** [v == s] for a str literal [s]. *)
Definition eq_str (v : json) (s : string) : bool :=
  match v with
  | JStr t => bool_decide (t = s)
  | _ => false
  end.

(** [float(v)] for [v] with [isinstance(v, (int, float))]. *)
Definition float_of (v : json) : result float :=
  match v with
  | JBool b => float_of_int (bool_int b)
  | JInt n => float_of_int n
  | JFloat f => Ok f
  | _ => Raise TypeError
  end.

(** Truth value of [v] in a condition. *)
Definition truthy (v : json) : bool :=
  match v with
  | JNull => false
  | JBool b => b
  | JInt n => negb (n =? 0)
  | JFloat (S754_zero _) => false
  | JFloat _ => true
  | JStr s => negb (bool_decide (s = ""))
  | JList l => negb (bool_decide (length l = 0%nat))
  | JDict d => negb (bool_decide (length d = 0%nat))
  end.

(** [d.get(k)] and [k in d] on a dictionary. *)
Fixpoint dict_get {V} (d : list (string * V)) (k : string) : option V :=
  match d with
  | [] => None
  | (k', v) :: d' => if decide (k' = k) then Some v else dict_get d' k
  end.

(** Induction on documents: a property of every scalar that passes from
    the elements of a sequence, and from the values of a map, to the whole
    holds of every document. *)
Section JsonInd.
Variable P : json -> Prop.
Hypothesis HNull : P JNull.
Hypothesis HBool : ∀ b, P (JBool b).
Hypothesis HInt : ∀ n, P (JInt n).
Hypothesis HFloat : ∀ f, P (JFloat f).
Hypothesis HStr : ∀ s, P (JStr s).
Hypothesis HList : ∀ l, Forall P l -> P (JList l).
Hypothesis HDict : ∀ d, Forall (fun kv => P kv.2) d -> P (JDict d).

Fixpoint json_forall_ind (v : json) : P v :=
  match v with
  | JNull => HNull
  | JBool b => HBool b
  | JInt n => HInt n
  | JFloat f => HFloat f
  | JStr s => HStr s
  | JList l =>
      HList l ((fix go (l : list json) : Forall P l :=
                  match l with
                  | [] => List.Forall_nil P
                  | x :: l' => List.Forall_cons P x l' (json_forall_ind x) (go l')
                  end) l)
  | JDict d =>
      HDict d ((fix go (d : list (string * json)) : Forall (fun kv => P kv.2) d :=
                  match d with
                  | [] => List.Forall_nil _
                  | kv :: d' => List.Forall_cons _ kv d' (json_forall_ind kv.2) (go d')
                  end) d)
  end.
End JsonInd.

End Py.

(** ** AnimationClipExtractor ([parse_animation_clip]) *)
Module Clips.
Import Py.

Record frame := {
  time : option float;
  uuid : option string;
  uuid_index : option json;   (* the [int] instance found after the marker 6 *)
}.

Record track := { type : string; frames : list frame }.

Record clip := {
  name : string;
  duration : float;
  sample : option float;
  tracks : list track;
}.

(** Lines 247-249: the identifier table of a document. *)
Definition str_entries (l : list json) : list string :=
  omap (fun u => match u with JStr s => Some s | _ => None end) l.

Definition uuids_of (data : json) : list string :=
  match data with
  | JList (_ :: JList l :: _) => str_entries l
  | _ => []
  end.

(** Lines 253-259: the clip-header test on a list node. *)
Definition is_clip_header (node : list json) : bool :=
  match node with
  | n0 :: n1 :: n2 :: rest =>
      is_number n0 && is_str n1 && is_number n2 &&
      match rest with
      | [] => true
      | n3 :: _ => is_number n3
      end
  | _ => false
  end.

(** Lines 260-265: the clip opened by a header (called on headers only). *)
Definition open_clip (node : list json) : result clip :=
  match node with
  | _ :: JStr nm :: n2 :: rest =>
      d ← float_of n2;
      s ← match rest with
          | n3 :: _ => if is_number n3 then Some <$> float_of n3 else Ok None
          | [] => Ok None
          end;
      Ok {| name := nm; duration := d; sample := s; tracks := [] |}
  | _ => Raise TypeError
  end.

(** Lines 273-279: the keyframe-record test on an entry. *)
Definition is_keyframe_record (entry : json) : bool :=
  match entry with
  | JList (JDict d :: e1 :: e2 :: e3 :: rest) =>
      bool_decide (is_Some (dict_get d "frame")) &&
      existsb (fun x => eq_str x "value") (JDict d :: e1 :: e2 :: e3 :: rest)
  | _ => false
  end.

(** Lines 281-285: scan [entry[1:]] for a 6 followed by an [int]. *)
Fixpoint find_idx (tail : list json) : option json :=
  match tail with
  | x :: tl =>
      match tl with
      | y :: _ => if eq_int x 6 && is_int y then Some y else find_idx tl
      | [] => None
      end
  | [] => None
  end.

(** Line 286: [uuids[idx] if (idx is not None and 0 <= idx < len(uuids)) else None]. *)
Definition resolve_uuid (uuids : list string) (idx : option json) : option string :=
  i ← idx ≫= int_val;
  if decide (0 <= i < Z.of_nat (length uuids)) then uuids !! Z.to_nat i else None.

(** Line 280: the time of a keyframe record, [d] being [entry[0]]. *)
Definition keyframe_time (d : list (string * json)) : result (option float) :=
  match dict_get d "frame" with
  | Some v => if is_number v then Some <$> float_of v else Ok None
  | None => Ok None
  end.

(** Lines 280-287: the frame a keyframe record contributes. *)
Definition keyframe (uuids : list string) (entry : json) : result frame :=
  match entry with
  | JList (JDict d :: tail) =>
      t ← keyframe_time d;
      let idx := find_idx tail in
      Ok {| time := t; uuid := resolve_uuid uuids idx; uuid_index := idx |}
  | _ => Raise TypeError
  end.

(** Lines 269-290. *)
Fixpoint collect_frames (uuids : list string) (n : json) : result (list frame) :=
  match n with
  | JList l =>
      direct ← (fix matches (es : list json) : result (list frame) :=
                  match es with
                  | [] => Ok []
                  | entry :: es' =>
                      if is_keyframe_record entry then
                        f ← keyframe uuids entry; fs ← matches es'; Ok (f :: fs)
                      else matches es'
                  end) l;
      nested ← (fix below (es : list json) : result (list frame) :=
                  match es with
                  | [] => Ok []
                  | entry :: es' =>
                      fs ← collect_frames uuids entry; gs ← below es'; Ok (fs ++ gs)
                  end) l;
      Ok (direct ++ nested)
  | _ => Ok []
  end.

(** [current["tracks"].append(t)] where [current] aliases [clips[i]]. *)
Definition append_track (clips : list clip) (i : nat) (t : track) : list clip :=
  alter (fun c => {| name := name c; duration := duration c;
                     sample := sample c; tracks := tracks c ++ [t] |}) i clips.

(** Lines 251-297.  [clips] is the list the closure appends to; [current]
    is the position in [clips] of the clip object the Python variable
    refers to, so that a track appended through [current] shows in [clips]. *)
Fixpoint find_clips (uuids : list string) (node : json) (current : option nat)
    (clips : list clip) : result (list clip) :=
  match node with
  | JList l =>
      '(current, clips) ←
         (if is_clip_header l then
            c ← open_clip l; Ok (Some (length clips), clips ++ [c])
          else Ok (current, clips));
      clips ←
         (if existsb (fun x => eq_str x "spriteFrame") l then
            frames ← collect_frames uuids (JList l);
            match current, frames with
            | Some i, _ :: _ =>
                Ok (append_track clips i {| type := "spriteFrame"; frames := frames |})
            | _, _ => Ok clips
            end
          else Ok clips);
      (fix children (cs : list json) (clips : list clip) : result (list clip) :=
         match cs with
         | [] => Ok clips
         | child :: cs' =>
             clips ← find_clips uuids child current clips; children cs' clips
         end) l clips
  | _ => Ok clips
  end.

Definition parse_animation_clip (data : json) : result (list clip) :=
  find_clips (uuids_of data) data None [].

(** The loops inside [collect_frames] and [find_clips], by name. *)
Definition direct_frames (uuids : list string) : list json -> result (list frame) :=
  fix matches (es : list json) : result (list frame) :=
    match es with
    | [] => Ok []
    | entry :: es' =>
        if is_keyframe_record entry then
          f ← keyframe uuids entry; fs ← matches es'; Ok (f :: fs)
        else matches es'
    end.

Definition nested_frames (uuids : list string) : list json -> result (list frame) :=
  fix below (es : list json) : result (list frame) :=
    match es with
    | [] => Ok []
    | entry :: es' =>
        fs ← collect_frames uuids entry; gs ← below es'; Ok (fs ++ gs)
    end.

Definition children_clips (uuids : list string) (current : option nat)
    : list json -> list clip -> result (list clip) :=
  fix children (cs : list json) (clips : list clip) : result (list clip) :=
    match cs with
    | [] => Ok clips
    | child :: cs' =>
        clips ← find_clips uuids child current clips; children cs' clips
    end.

(** An identifier that a frame carries is an entry of the table. *)
Definition frame_ok (uuids : list string) (f : frame) : Prop :=
  ∀ u, uuid f = Some u -> u ∈ uuids.

(** What holds of every track the extractor builds over the table
    [uuids]: it is a sprite-frame track, it has a keyframe, and every
    identifier in it is an entry of the table. *)
Definition track_ok (uuids : list string) (t : track) : Prop :=
  type t = "spriteFrame" ∧ frames t ≠ [] ∧ Forall (frame_ok uuids) (frames t).

Definition clips_ok (uuids : list string) (clips : list clip) : Prop :=
  Forall (fun c => Forall (track_ok uuids) (tracks c)) clips.

(** [x] wrapped in [n] one-element lists: [[[...[x]...]]]. *)
Fixpoint nest (n : nat) (x : json) : json :=
  match n with
  | O => x
  | S n' => JList [nest n' x]
  end.

(** The track [["spriteFrame", [d, "value", 6, 0]]] whose one keyframe
    record has the map [d] first and refers to identifier 0. *)
Definition track_of (d : list (string * json)) : json :=
  JList [JStr "spriteFrame"; JList [JDict d; JStr "value"; JInt 6; JInt 0]].

(** [[d0, ["tex_a"], [0, "run", 1.5, 24, below]]]: the identifier table,
    then the clip node, which starts with the header entries and has
    [below] as its next entry. *)
Definition run_clip_document (d0 below : json) : json :=
  JList [d0; JList [JStr "tex_a"];
         JList [JInt 0; JStr "run"; JFloat (float_lit 3 (-1)); JInt 24; below]].

(** A keyframe record at time 0 that refers to identifier 0:
    [[{"frame": 0}, "value", 6, 0]]. *)
Definition keyframe_0 : json :=
  JList [JDict [("frame", JInt 0)]; JStr "value"; JInt 6; JInt 0].

(** [[1, ["tex_a"], [0, "run", 1.5, 24, ["spriteFrame", keyframe_0]]]]: the
    identifier table, then one clip header with a sprite-frame track below it. *)
Definition run_document : json :=
  JList [JInt 1; JList [JStr "tex_a"];
         JList [JInt 0; JStr "run"; JFloat (float_lit 3 (-1)); JInt 24;
                JList [JStr "spriteFrame"; keyframe_0]]].

(** [[1, ["a", 7, "b"]]]: a second element that mixes strings and a number. *)
Definition mixed_table_document : json :=
  JList [JInt 1; JList [JStr "a"; JInt 7; JStr "b"]].

End Clips.

(** ** Python str and os.path operations used by the materializer *)
Module Text.

Definition code (c : ascii) : N := N_of_ascii c.

Definition in_range (lo hi : string) (c : ascii) : bool :=
  match lo, hi with
  | String l _, String h _ => (code l <=? code c)%N && (code c <=? code h)%N
  | _, _ => false
  end.

(** [str.lower] on code points below 256. *)
Definition lower_char (c : ascii) : ascii :=
  let n := code c in
  if in_range "A" "Z" c
     || ((192 <=? n)%N && (n <=? 222)%N && negb (n =? 215)%N)
  then ascii_of_N (n + 32) else c.

Fixpoint lower (s : string) : string :=
  match s with
  | "" => ""
  | String c s' => String (lower_char c) (lower s')
  end.

(** [s.endswith(suffix)] *)
Definition endswith (s suffix : string) : bool :=
  let n := String.length s in
  let k := String.length suffix in
  bool_decide (k <= n)%nat &&
  bool_decide (String.substring (n - k) k s = suffix).

(** [sub in s] *)
Fixpoint contains (sub s : string) : bool :=
  String.prefix sub s ||
  match s with
  | "" => false
  | String _ s' => contains sub s'
  end.

(** [re.sub(r"[^a-zA-Z0-9._-]", "_", s)] *)
Definition slug_keep (c : ascii) : bool :=
  in_range "a" "z" c || in_range "A" "Z" c || in_range "0" "9" c
  || bool_decide (c = "."%char) || bool_decide (c = "_"%char)
  || bool_decide (c = "-"%char).

Fixpoint safe_slug (s : string) : string :=
  match s with
  | "" => ""
  | String c s' => String (if slug_keep c then c else "_"%char) (safe_slug s')
  end.

(** [p] split after its last "/" (the directory part keeps the slash). *)
Fixpoint split_dir (p : string) : string * string :=
  match p with
  | "" => ("", "")
  | String c p' =>
      let '(d, b) := split_dir p' in
      if negb (bool_decide (d = "")) then (String c d, b)
      else if bool_decide (c = "/"%char) then (String c "", b)
      else ("", String c b)
  end.

(** [os.path.basename] *)
Definition basename (p : string) : string := (split_dir p).2.

(** [os.path.splitext]: the extension starts at the last dot of the last
    component, unless only dots precede it there. *)
Fixpoint split_last_dot (s : string) : option (string * string) :=
  match s with
  | "" => None
  | String c s' =>
      match split_last_dot s' with
      | Some (r, e) => Some (String c r, e)
      | None => if bool_decide (c = "."%char) then Some ("", s) else None
      end
  end.

Fixpoint all_dots (s : string) : bool :=
  match s with
  | "" => true
  | String c s' => bool_decide (c = "."%char) && all_dots s'
  end.

Definition splitext (p : string) : string * string :=
  let '(d, b) := split_dir p in
  match split_last_dot b with
  | Some (r, e) => if all_dots r then (p, "") else (d +:+ r, e)
  | None => (p, "")
  end.

Definition startswith_sep (s : string) : bool :=
  match s with
  | String c _ => bool_decide (c = "/"%char)
  | "" => false
  end.

(** [os.path.join(a, b)] *)
Definition join (a b : string) : string :=
  if startswith_sep b then b
  else if bool_decide (a = "") || endswith a "/" then a +:+ b
  else a +:+ "/" +:+ b.

(** [str(i)] for a non-negative int. *)
Definition str_of_nat (i : nat) : string :=
  DecimalString.NilZero.string_of_uint (Nat.to_uint i).

End Text.


(** ** TreeWalker, SkeletonExtractor, SpriteFrameCollector, AtlasAssembler *)
Module Atlas.
Import Py Text.

(** [walk(node, visitor)]: pre-order over list and dict nodes; the result
    is what the visitor appended, in visiting order. *)
Fixpoint walk {A} (visitor : json -> list A) (node : json) : list A :=
  match node with
  | JList l =>
      visitor node ++
      (fix go (l : list json) : list A :=
         match l with
         | [] => []
         | v :: l' => walk visitor v ++ go l'
         end) l
  | JDict d =>
      visitor node ++
      (fix go (d : list (string * json)) : list A :=
         match d with
         | [] => []
         | (_, v) :: d' => walk visitor v ++ go d'
         end) d
  | _ => []
  end.

(** [inside n node]: [n] is [node] or lies below it, as an element of a
    list or a value of a dict, at any depth. *)
Inductive inside (n : json) : json -> Prop :=
| inside_here : inside n n
| inside_list v l : v ∈ l -> inside n v -> inside n (JList l)
| inside_dict k v d : (k, v) ∈ d -> inside n v -> inside n (JDict d).

Record skeleton := {
  sk_name : string;
  atlasText : string;
  skeletonJson : list (string * json);
  textureNames : list json;
  textureIndices : list json;
}.

(** Lines 345-362. *)
Definition skeleton_visit (node : json) : list skeleton :=
  match node with
  | JList (n0 :: JStr n1 :: JStr n2 :: JList n3 :: JDict n4 :: JList n5 :: _) =>
      if eq_int n0 0 then
        [{| sk_name := n1; atlasText := n2; skeletonJson := n4;
            textureNames := n3; textureIndices := n5 |}]
      else []
  | _ => []
  end.

Definition extract_skeleton_entries (json_data : json) : list skeleton :=
  walk skeleton_visit json_data.

Record sprite_frame := {
  sf_name : json;
  rotated : bool;
  rect : json;
  offset : json;
  originalSize : json;
}.

(** [node.get(k)]: [None] (here [JNull]) when the key is absent. *)
Definition get (d : list (string * json)) (k : string) : json :=
  default JNull (dict_get d k).

(** Lines 369-377. *)
Definition sprite_frame_visit (node : json) : list sprite_frame :=
  match node with
  | JDict d =>
      if truthy (get d "name") && truthy (get d "rect") && truthy (get d "originalSize")
      then [{| sf_name := get d "name";
               rotated := truthy (default (JBool false) (dict_get d "rotated"));
               rect := get d "rect";
               offset := default (JList [JInt 0; JInt 0]) (dict_get d "offset");
               originalSize := get d "originalSize" |}]
      else []
  | _ => []
  end.

Definition extract_sprite_frames (json_data : json) : list sprite_frame :=
  walk sprite_frame_visit json_data.

(** Lines 382-385. *)
Definition guess_texture_uuid_compressed (json_data : json) : option string :=
  match json_data with
  | JList (_ :: JList (JStr u :: _) :: _) => Some u
  | _ => None
  end.

Section Int.
(** [int(s)] for a [str]: the literal grammar of the interpreter. *)
Variable int_of_str : string -> result Z.

(** [int(v)] *)
Definition int_of (v : json) : result Z :=
  match v with
  | JBool b => Ok (bool_int b)
  | JInt n => Ok n
  | JFloat f => int_of_float f
  | JStr s => int_of_str s
  | JNull | JList _ | JDict _ => Raise TypeError
  end.

(** [v[i]] for a literal index [i]. *)
Definition subscript (v : json) (i : nat) : result json :=
  match v with
  | JList l => match l !! i with Some x => Ok x | None => Raise IndexError end
  | JStr s => match String.get i s with
              | Some c => Ok (JStr (String c ""))
              | None => Raise IndexError
              end
  | JDict _ => Raise KeyError
  | JNull | JBool _ | JInt _ | JFloat _ => Raise TypeError
  end.

Definition int_at (v : json) (i : nat) : result Z :=
  x ← subscript v i; int_of x.

Record rect_t := { rx : Z; ry : Z; rw : Z; rh : Z }.
Record pair_t := { px : Z; py : Z }.

(** Lines 429-434. *)
Definition parse_rect (rect : json) : result rect_t :=
  match rect with
  | JList (JList r0 :: _) =>
      x ← int_at (JList r0) 0; y ← int_at (JList r0) 1;
      r1 ← subscript rect 1;
      w ← int_at r1 0; h ← int_at r1 1;
      Ok {| rx := x; ry := y; rw := w; rh := h |}
  | JList _ =>
      x ← int_at rect 0; y ← int_at rect 1; w ← int_at rect 2; h ← int_at rect 3;
      Ok {| rx := x; ry := y; rw := w; rh := h |}
  | _ => Ok {| rx := 0; ry := 0; rw := 0; rh := 0 |}
  end.

(** Lines 437-440. *)
Definition parse_pair (pair : json) : result pair_t :=
  match pair with
  | JList _ => x ← int_at pair 0; y ← int_at pair 1; Ok {| px := x; py := y |}
  | _ => Ok {| px := 0; py := 0 |}
  end.
End Int.

(** One entry of [frames_obj] (lines 582-587); the three geometry fields
    are kept as numbers rather than as the formatted text. *)
Record plist_frame := {
  pf_rotated : bool;
  pf_frame : rect_t;
  pf_offset : pair_t;
  pf_sourceSize : pair_t;
}.

End Atlas.

(** ** SequenceInferenceEngine (step 4 of [main]) *)
Module Infer.
Import Py Text.

Definition newline : ascii := "010"%char.

(** Whitespace among the code points below 256, for [\s] and [str.strip]. *)
Definition is_space (c : ascii) : bool :=
  let n := code c in
  ((9 <=? n) && (n <=? 13) || (28 <=? n) && (n <=? 32) || (n =? 133) || (n =? 160))%N.

Definition is_digit (c : ascii) : bool := in_range "0" "9" c.

(** The class [[_\-\s]]. *)
Definition is_sep (c : ascii) : bool :=
  bool_decide (c = "_"%char) || bool_decide (c = "-"%char) || is_space c.

(** The leading digits of [s] and what follows them. *)
Fixpoint span_digits (s : string) : string * string :=
  match s with
  | String c s' =>
      if is_digit c then let '(ds, tl) := span_digits s' in (String c ds, tl)
      else ("", s)
  | "" => ("", "")
  end.

(** [(\d{1,4})$] at the start of [s]: one to four digits, then the end of
    the string or its final newline. *)
Definition match_digits_end (s : string) : option string :=
  let '(ds, tl) := span_digits s in
  if bool_decide (1 <= String.length ds <= 4)%nat
     && (bool_decide (tl = "") || bool_decide (tl = String newline ""))
  then Some ds else None.

(** [(?:[_\-\s]?)(\d{1,4})$] at the start of [s]. *)
Definition match_tail (s : string) : option string :=
  match s with
  | String c s' => if is_sep c then match_digits_end s' else match_digits_end s
  | "" => None
  end.

(** [re.match(r"^(.*?)(?:[_\-\s]?)(\d{1,4})$", nm)]: groups 1 and 2.  The
    lazy group takes the shortest prefix (free of newlines) after which the
    tail matches. *)
Fixpoint series_match (nm : string) : option (string * string) :=
  match match_tail nm with
  | Some ds => Some ("", ds)
  | None =>
      match nm with
      | String c nm' =>
          if bool_decide (c = newline) then None
          else '(b, ds) ← series_match nm'; Some (String c b, ds)
      | "" => None
      end
  end.

(** [int(ds)] for a string of ASCII digits. *)
Definition digit_val (c : ascii) : Z := Z.of_N (code c) - 48.
Fixpoint int_of_digits_from (acc : Z) (ds : string) : Z :=
  match ds with
  | "" => acc
  | String c ds' => int_of_digits_from (10 * acc + digit_val c) ds'
  end.
Definition int_of_digits : string -> Z := int_of_digits_from 0.

(** [s.lstrip()], and [s.rstrip(chars)] for a character test. *)
Fixpoint lstrip (s : string) : string :=
  match s with
  | String c s' => if is_space c then lstrip s' else s
  | "" => ""
  end.

Fixpoint rstrip_by (drop : ascii -> bool) (s : string) : string :=
  match s with
  | String c s' =>
      match rstrip_by drop s' with
      | "" => if drop c then "" else String c ""
      | t => String c t
      end
  | "" => ""
  end.

Definition strip (s : string) : string := rstrip_by is_space (lstrip s).

Definition base_trim (c : ascii) : bool :=
  bool_decide (c = "_"%char) || bool_decide (c = "-"%char)
  || bool_decide (c = "."%char) || bool_decide (c = " "%char).

(** Lines 615-625. *)
Definition split_name_series (nm : string) : option (string * Z) :=
  '(b, ds) ← series_match nm;
  let idx := int_of_digits ds in
  let base := rstrip_by base_trim (strip b) in
  if bool_decide (base = "") then None else Some (base, idx).

(** [series.setdefault(base, []).append(item)] on an insertion-ordered dict. *)
Fixpoint series_add (series : list (string * list (Z * string))) (base : string)
    (item : Z * string) : list (string * list (Z * string)) :=
  match series with
  | [] => [(base, [item])]
  | (b, lst) :: rest =>
      if decide (b = base) then (b, lst ++ [item]) :: rest
      else (b, lst) :: series_add rest base item
  end.

(** Lines 632-638, for frame names that are strings. *)
Definition build_series (names : list string) : list (string * list (Z * string)) :=
  foldl (fun series nm =>
           match split_name_series nm with
           | Some (base, idx) => series_add series base (idx, nm)
           | None => series
           end) [] names.

(** [lst.sort(key=lambda t: t[0])]: a stable sort. *)
Fixpoint insert_by_key (x : Z * string) (l : list (Z * string)) : list (Z * string) :=
  match l with
  | [] => [x]
  | y :: l' => if x.1 <? y.1 then x :: l else y :: insert_by_key x l'
  end.
Definition sort_by_key (l : list (Z * string)) : list (Z * string) :=
  foldl (fun acc x => insert_by_key x acc) [] l.

(** Lines 647-652: the counter after the loop over [lst[1:]], [prev] being
    the suffix of the element before. *)
Fixpoint count_loop (prev : Z) (rest : list (Z * string)) (consecutive : Z) : Z :=
  match rest with
  | [] => consecutive
  | (x, _) :: rest' =>
      count_loop x rest'
        (if x =? prev + 1 then consecutive + 1 else Z.max consecutive 1)
  end.

Definition consecutive_count (lst : list (Z * string)) : Z :=
  match lst with
  | [] => 1
  | (x, _) :: rest => count_loop x rest 1
  end.

(** Lines 641-654: whether a (sorted) group survives both tests. *)
Definition keeps (lst : list (Z * string)) : bool :=
  negb (Z.of_nat (length lst) <? 3) && negb (consecutive_count lst <? 3).

Record auto_frame := { af_time : float; frame_name : string }.

Record auto_clip := {
  ac_name : string;
  ac_duration : float;
  ac_sample : float;
  ac_frames : list auto_frame;
  source_atlas_uuid : string;
}.

Definition default_fps : float := float_lit 24 0.

(** [float(n) / default_fps]; [float(n)] cannot overflow for a list length. *)
Definition frame_time (n : nat) : float :=
  SFdiv prec emax (float_lit (Z.of_nat n) 0) default_fps.

(** Lines 656-671. *)
Definition make_clip (comp_uuid base : string) (lst : list (Z * string)) : auto_clip :=
  {| ac_name := base;
     ac_duration := frame_time (length lst);
     ac_sample := default_fps;
     ac_frames := imap (fun i t => {| af_time := frame_time i; frame_name := t.2 |}) lst;
     source_atlas_uuid := comp_uuid |}.

(** Lines 640-671: the clips inferred from one atlas group, in the order
    the bases were first seen. *)
Definition infer_group (comp_uuid : string) (names : list string) : list auto_clip :=
  '(base, lst) ← build_series names;
  let lst := sort_by_key lst in
  if keeps lst then [make_clip comp_uuid base lst] else [].

(** The longest run of suffixes that each exceed the previous one by
    exactly one; the quantity the comment on lines 645-646 asks for. *)
Fixpoint longest_run_from (prev : Z) (rest : list (Z * string)) (cur best : Z) : Z :=
  match rest with
  | [] => Z.max cur best
  | (x, _) :: rest' =>
      if x =? prev + 1 then longest_run_from x rest' (cur + 1) best
      else longest_run_from x rest' 1 (Z.max cur best)
  end.

Definition longest_run (lst : list (Z * string)) : Z :=
  match lst with
  | [] => 0
  | (x, _) :: rest => longest_run_from x rest 1 0
  end.

(** How many elements of [rest] exceed their predecessor by exactly one
    ([prev] precedes the first). *)
Fixpoint unit_steps (prev : Z) (rest : list (Z * string)) : Z :=
  match rest with
  | [] => 0
  | (x, _) :: rest' => (if x =? prev + 1 then 1 else 0) + unit_steps x rest'
  end.

(** The frame names of an inferred clip, in keyframe order. *)
Definition names_in (c : auto_clip) : list string := frame_name <$> ac_frames c.

(** The order of the suffixes. *)
Definition key_le (x y : Z * string) : Prop := x.1 <= y.1.

(** The members of the series [base] among [names], in their order, each
    with its suffix. *)
Definition members (names : list string) (base : string) : list (Z * string) :=
  omap (fun nm => match split_name_series nm with
                  | Some (b, idx) => if decide (b = base) then Some (idx, nm) else None
                  | None => None
                  end) names.

(** What one name adds to the series (the body of the loop on lines 633-638). *)
Definition series_step (series : list (string * list (Z * string))) (nm : string) :=
  match split_name_series nm with
  | Some (base, idx) => series_add series base (idx, nm)
  | None => series
  end.

(** What holds of the series built from [names]: the bases are pairwise
    different, and each member is one of the names, filed under its base
    with its suffix. *)
Definition series_ok (names : list string) (series : list (string * list (Z * string))) :=
  NoDup series.*1
  ∧ ∀ b lst, (b, lst) ∈ series ->
      ∀ i nm, (i, nm) ∈ lst -> nm ∈ names ∧ split_name_series nm = Some (b, i).

End Infer.

(** ** OutputMaterializer: the file tree, [extract_audio], [extract_animations] *)
Module Output.
Import Py Clips Text Atlas Infer.

(** What a file holds.  The output of [json.dump] is kept as the dumped
    value, and the descriptor text of [build_plist] as the frame map and
    the texture name it is built from. *)
Inductive file :=
| Binary (b : list byte)
| TextFile (s : string)
| ClipDoc (c : clip)                                  (* an [.anim.json] clip *)
| ClipIndex (entries : list (string * string))        (* [{"clips": [{name, path}]}] *)
| SkeletonDoc (d : list (string * json))              (* a skeleton definition *)
| Plist (frames : list (json * plist_frame)) (textureFileName : string)
| AutoClipDoc (c : auto_clip)                         (* an [.anim.guessed.json] clip *)
| AutoIndex (entries : list (string * string)).       (* the index with its note *)

(** The file tree: every existing path with its content.  Directories are
    not entries of the tree: a directory is there when the surroundings
    know it or when the tree has a file below it ([Main.dir_exists]). *)
Abbreviation tree := (gmap string file).

(** The bytes of a file.  A text file holds the UTF-8 encoding of its
    text; how a dumped document is laid out is not modelled. *)
Definition utf8_char (c : ascii) : list byte :=
  let n := code c in
  if (n <? 128)%N then [byte_of_ascii c]
  else [default xc0 (Byte.of_N (192 + n / 64)); default x80 (Byte.of_N (128 + n mod 64))].

Fixpoint utf8 (s : string) : list byte :=
  match s with
  | "" => []
  | String c s' => utf8_char c ++ utf8 s'
  end.

Definition file_bytes (f : file) : option (list byte) :=
  match f with
  | Binary b => Some b
  | TextFile s => Some (utf8 s)
  | _ => None
  end.

(** [open(p, "rb").read()]; [None] when it raises. *)
Definition read_bytes (fs : gmap string file) (p : string) : option (list byte) :=
  fs !! p ≫= file_bytes.

(** [os.path.exists(p)] *)
Definition exists_ (fs : tree) (p : string) : bool := bool_decide (is_Some (fs !! p)).

(** [walk_files(root, exts)], given what [os.walk(root)] yields as
    (dirpath, filenames) pairs in scan order. *)
Definition walk_files (walk : list (string * list string)) (exts : list string)
    : list string :=
  '(dirpath, filenames) ← walk;
  f ← filenames;
  if existsb (endswith (lower f)) exts then [join dirpath f] else [].

(** [shutil.copy2(src, dst)]; a source that cannot be read raises. *)
Definition copy2 (fs : tree) (src dst : string) : result tree :=
  match fs !! src with
  | Some c => Ok (<[dst := c]> fs)
  | None => Raise OSError
  end.

Definition audio_exts : list string := [".mp3"; ".ogg"; ".wav"; ".m4a"].

(** The [i]-th numbered sibling: [os.path.join(audio_out, f"{name}_{i}{ext}")]. *)
Definition numbered (audio_out name ext : string) (i : nat) : string :=
  join audio_out (name +:+ "_" +:+ str_of_nat i +:+ ext).

(** Lines 71-73: [while os.path.exists(target): ...].  [fuel] bounds the
    number of iterations that are unfolded. *)
Fixpoint probe (fs : tree) (audio_out name ext : string) (fuel i : nat)
    (target : string) : string :=
  if exists_ fs target then
    match fuel with
    | O => target
    | S fuel' => probe fs audio_out name ext fuel' (S i) (numbered audio_out name ext i)
    end
  else target.

(** Lines 66-73: the target chosen for one source path.  The loop is
    unfolded once more than there are files in the tree, which it cannot
    exceed: every iteration but the first finds a different existing file. *)
Definition audio_target (fs : tree) (audio_out path : string) : string :=
  let base := basename path in
  let name := safe_slug (fst (splitext base)) in
  let ext := lower (snd (splitext base)) in
  probe fs audio_out name ext (S (size fs)) 1 (join audio_out (name +:+ ext)).

(** The paths tried for one source path, in order: the plain target
    (line 69), then its numbered siblings (line 72). *)
Definition plain_target (audio_out path : string) : string :=
  join audio_out (safe_slug (splitext (basename path)).1 +:+ lower (splitext (basename path)).2).

Definition numbered_target (audio_out path : string) (k : nat) : string :=
  numbered audio_out (safe_slug (splitext (basename path)).1)
           (lower (splitext (basename path)).2) k.

(** Lines 65-75: the loop body over the walked paths. *)
Fixpoint audio_loop (audio_out : string) (paths : list string) (fs : tree)
    (audio_map : list (string * string)) : tree * result (list (string * string)) :=
  match paths with
  | [] => (fs, Ok audio_map)
  | path :: rest =>
      let target := audio_target fs audio_out path in
      match copy2 fs path target with
      | Raise e => (fs, Raise e)
      | Ok fs' =>
          (* [audio_map[path] = target]: an equal key keeps its place *)
          audio_loop audio_out rest fs'
            (if bool_decide (is_Some (dict_get audio_map path))
             then (fun '(k, v) => if decide (k = path) then (k, target) else (k, v)) <$> audio_map
             else audio_map ++ [(path, target)])
      end
  end.

Definition extract_audio (native_walk : list (string * list string))
    (out_root : string) (fs : tree) : tree * result (list (string * string)) :=
  audio_loop (join out_root "audio") (walk_files native_walk audio_exts) fs [].

Section Animations.
(** [json.loads]; [None] when it raises. *)
Variable json_loads : string -> option json.

(** Lines 308-315: the text is read, screened for the marker, then parsed. *)
Definition load_clip_document (fs : tree) (path : string) : option json :=
  match fs !! path with
  | Some (TextFile txt) =>
      if negb (contains "cc.AnimationClip" txt) then None else json_loads txt
  | _ => None
  end.

(** Lines 319-324: write each clip of one document. *)
Fixpoint write_clips (anim_out path : string) (clips : list clip) (fs : tree)
    (collected : list (string * string)) : tree * list (string * string) :=
  match clips with
  | [] => (fs, collected)
  | c :: rest =>
      let nm := safe_slug (if bool_decide (name c = "")
                           then fst (splitext (basename path)) else name c) in
      let out_file := join anim_out (nm +:+ ".anim.json") in
      write_clips anim_out path rest (<[out_file := ClipDoc c]> fs)
                  (collected ++ [(name c, out_file)])
  end.

(** Lines 307-324. *)
Fixpoint animations_loop (anim_out : string) (paths : list string) (fs : tree)
    (collected : list (string * string))
    : tree * result (list (string * string)) :=
  match paths with
  | [] => (fs, Ok collected)
  | path :: rest =>
      match load_clip_document fs path with
      | None => animations_loop anim_out rest fs collected
      | Some data =>
          match parse_animation_clip data with
          | Raise e => (fs, Raise e)
          | Ok clips =>
              let '(fs', collected') := write_clips anim_out path clips fs collected in
              animations_loop anim_out rest fs' collected'
          end
      end
  end.

Definition extract_animations (import_walk : list (string * list string))
    (out_root : string) (fs : tree) : tree * result (list (string * string)) :=
  let anim_out := join out_root "animations" in
  match animations_loop anim_out (walk_files import_walk [".json"]) fs [] with
  | (fs', Ok collected) =>
      (<[join anim_out "index.json" := ClipIndex collected]> fs', Ok collected)
  | r => r
  end.
End Animations.

(** A tree in which the first target of [n/a.mp3] is taken. *)
Definition taken_tree : tree :=
  {[ "n/a.mp3" := Binary [x01]; "out/audio/a.mp3" := Binary [x02] ]}.

(** A document text that carries the marker, a loader that reads it as
    [run_document], and a tree that already holds a file where the clip
    "run" is written. *)
Definition marked_text : string := "cc.AnimationClip".
Definition marked_loader (txt : string) : option json :=
  if decide (txt = marked_text) then Some run_document else None.
Definition rerun_tree : tree :=
  {[ "in/import/a.json" := TextFile marked_text;
     "out/animations/run.anim.json" := TextFile "kept" ]}.

(** A document without the marker, and a loader that reads every text as
    [run_document]. *)
Definition unmarked_tree : tree := {[ "in/import/b.json" := TextFile "[0, 1, 2]" ]}.
Definition eager_loader (txt : string) : option json := Some run_document.

End Output.


(** ** The batch driver ([main]) *)
Module Main.
Import Py Clips Text Atlas Infer Output.

(** What the program asks of its surroundings.  The listing of a
    directory is taken once: the output directory lies outside the asset
    root. *)
Record host := {
  isdir : string -> bool;                               (* [os.path.isdir] *)
  os_walk : string -> list (string * list string);      (* [os.walk]: (dirpath, filenames) *)
  relpath_first : string -> string -> string;           (* [os.path.relpath(f, root).split(os.sep)[0]] *)
  json_loads : string -> option json;                   (* [json.loads]; [None] when it raises *)
  int_of_str : string -> result Z;                      (* [int] on a [str] *)
  stub_url : list byte -> option string;                (* lines 207-213 on the bytes read *)
  urlopen : string -> option (list byte);               (* the fetched content; [None] when it raises *)
}.

(** Lines 170-178. *)
Definition get_image_size (fs : tree) (file_path : string) : option (Z * Z) :=
  let ext := lower (splitext file_path).2 in
  if bool_decide (ext = ".png") then read_bytes fs file_path ≫= Image.read_png_size
  else if bool_decide (ext = ".webp") then read_bytes fs file_path ≫= Webp.read_webp_size
  else if bool_decide (ext = ".jpg") || bool_decide (ext = ".jpeg")
       then read_bytes fs file_path ≫= Image.read_jpeg_size
  else None.

(** Lines 180-201. *)
Definition is_image_magic_ok (fs : tree) (file_path : string) : bool :=
  match read_bytes fs file_path with
  | Some data => Image.magic_ok data
  | None => false
  end.

(** Lines 203-215. *)
Definition extract_stub_url (h : host) (fs : tree) (file_path : string) : option string :=
  data ← read_bytes fs file_path;
  url ← stub_url h (Bytes.slice data 0 1024);
  if bool_decide (url = "") then None else Some url.

(** [os.path.dirname]: what precedes the last separator, without its
    trailing separators unless it consists of them. *)
Definition is_slash (c : ascii) : bool := bool_decide (c = "/"%char).

Fixpoint all_slashes (s : string) : bool :=
  match s with
  | "" => true
  | String c s' => is_slash c && all_slashes s'
  end.

Definition dirname (p : string) : string :=
  let head := (split_dir p).1 in
  if all_slashes head then head else rstrip_by is_slash head.

(** Whether [d] is a directory once the tree is [fs].  The working
    directory (the empty name) and the root are; so is a directory that the
    surroundings know, and one below which the tree has a file, at any
    depth: the run makes a directory and writes into it at once. *)
Definition dir_exists (h : host) (fs : tree) (d : string) : bool :=
  all_slashes d || isdir h d
  || existsb (String.prefix (d +:+ "/")) (map_to_list fs).*1.

(** Whether a file can be created or replaced at [dst]: its directory must
    be there.  [shutil.copy2] and [open(dst, "wb")] raise otherwise. *)
Definition can_create (h : host) (fs : tree) (dst : string) : bool :=
  dir_exists h fs (dirname dst).

(** [ensure_dir] on each of [made]: from then on the surroundings know
    these directories and the ones above them ([os.makedirs]). *)
Definition ensured (h : host) (made : list string) : host :=
  {| isdir := fun d =>
       isdir h d
       || existsb (fun m => bool_decide (m = d) || String.prefix (d +:+ "/") m) made;
     os_walk := os_walk h;
     relpath_first := relpath_first h;
     json_loads := json_loads h;
     int_of_str := int_of_str h;
     stub_url := stub_url h;
     urlopen := urlopen h |}.

(** [shutil.copy2] inside [try]: the tree and whether it worked.  It
    raises when the source cannot be read, when the directory of the
    destination is missing, and when both name the same file. *)
Definition try_copy2 (h : host) (fs : tree) (src dst : string) : tree * bool :=
  if can_create h fs dst && negb (bool_decide (src = dst)) then
    match copy2 fs src dst with
    | Ok fs' => (fs', true)
    | Raise _ => (fs, false)
    end
  else (fs, false).

(** Lines 217-241. *)
Definition copy_image_resolving_stub (h : host) (fs : tree) (src dst : string)
    : tree * bool :=
  if is_image_magic_ok fs src then try_copy2 h fs src dst
  else
    match extract_stub_url h fs src with
    | Some url =>
        match urlopen h url with
        | Some content =>
            if can_create h fs dst then (<[dst := Binary content]> fs, true)
            else (fs, false)
        | None => (fs, false)
        end
    | None => try_copy2 h fs src dst
    end.

(** [re.search(r"size:\s*(\d+)\s*,\s*(\d+)", text, re.IGNORECASE)] with
    both groups converted by [int] (lines 510, 521-522).  The limit of the
    interpreter on the number of digits is not modelled. *)
Fixpoint skip_spaces (s : string) : string :=
  match s with
  | String c s' => if is_space c then skip_spaces s' else s
  | "" => ""
  end.

Fixpoint after_prefix_ci (p s : string) : option string :=
  match p, s with
  | "", _ => Some s
  | String a p', String c s' =>
      if bool_decide (lower_char c = a) then after_prefix_ci p' s' else None
  | String _ _, "" => None
  end.

Definition size_at (s : string) : option (Z * Z) :=
  rest ← after_prefix_ci "size:" s;
  let '(d1, rest) := span_digits (skip_spaces rest) in
  if bool_decide (d1 = "") then None
  else
    match skip_spaces rest with
    | String c rest' =>
        if bool_decide (c = ","%char) then
          let '(d2, _) := span_digits (skip_spaces rest') in
          if bool_decide (d2 = "") then None
          else Some (int_of_digits d1, int_of_digits d2)
        else None
    | "" => None
    end.

Fixpoint atlas_size (text : string) : option (Z * Z) :=
  match size_at text with
  | Some wh => Some wh
  | None =>
      match text with
      | String _ text' => atlas_size text'
      | "" => None
      end
  end.

(** A computation on the file tree that may raise; the tree keeps what was
    written before the exception. *)
Record run (A : Type) : Type := Run { exec : tree -> tree * result A }.
Arguments Run {A} _.
Arguments exec {A} _ _.

#[global] Instance run_ret : MRet run := fun A a => Run (fun fs => (fs, Ok a)).
#[global] Instance run_bind : MBind run := fun A B k m =>
  Run (fun fs =>
         match exec m fs with
         | (fs', Ok a) => exec (k a) fs'
         | (fs', Raise e) => (fs', Raise e)
         end).

Definition lift {A} (r : result A) : run A := Run (fun fs => (fs, r)).
Definition write (path : string) (c : file) : run unit :=
  Run (fun fs => (<[path := c]> fs, Ok ())).
Definition ask {A} (f : tree -> A) : run A := Run (fun fs => (fs, Ok (f fs))).

(** A [for] loop threading an accumulator. *)
Fixpoint for_each {A S} (l : list A) (body : S -> A -> run S) (acc : S) : run S :=
  match l with
  | [] => mret acc
  | a :: l' => acc' ← body acc a; for_each l' body acc'
  end.

Definition image_exts : list string := [".png"; ".webp"; ".jpg"; ".jpeg"].

(** Lines 474-486. *)
Definition is_hex (c : ascii) : bool :=
  in_range "0" "9" c || in_range "a" "f" c || in_range "A" "F" c.

(** [re.match(r"^[0-9a-fA-F]{2}$", first)] *)
Definition is_bucket (first : string) : bool :=
  match first with
  | String a (String b tl) =>
      is_hex a && is_hex b
      && (bool_decide (tl = "") || bool_decide (tl = String newline ""))
  | _ => false
  end.

Definition native_by_prefix (h : host) (native_root : string)
    (native_images : list string) : gmap string (list string) :=
  foldl (fun m f =>
           let first := relpath_first h f native_root in
           let prefix := if is_bucket first then lower first else "__misc__" in
           <[prefix := default [] (m !! prefix) ++ [f]]> m)
        ∅ native_images.

(** Lines 477-485: the bucket one native image is filed under. *)
Definition bucket_of (h : host) (native_root f : string) : string :=
  let first := relpath_first h f native_root in
  if is_bucket first then lower first else "__misc__".

(** [read_json] (lines 53-58). *)
Definition read_json (h : host) (fs : tree) (path : string) : option json :=
  match fs !! path with
  | Some (TextFile txt) => json_loads h txt
  | _ => None
  end.

(** Line 499. *)
Definition doc_uuids (json_data : json) : list json :=
  match json_data with
  | JList (_ :: JList l :: _) => l
  | _ => []
  end.

(** Lines 512-514. *)
Definition first_texture_index (sk : skeleton) : Z :=
  match textureIndices sk with
  | v :: _ => default 0 (int_val v)
  | [] => 0
  end.

(** Lines 511-515: the identifier a bundle resolves to; [None] when the
    document has no identifiers ([if uuids:] fails). *)
Definition skeleton_comp_uuid (uuids : list json) (sk : skeleton) : option json :=
  match uuids with
  | [] => None
  | u0 :: _ =>
      let idx := first_texture_index sk in
      Some (if decide (0 <= idx < Z.of_nat (length uuids))
            then default u0 (uuids !! Z.to_nat idx) else u0)
  end.

(** [comp_uuid[:2]] as a key of [native_by_prefix].  Only a [str] works:
    a list slice is unhashable, other values cannot be sliced. *)
Definition bucket_prefix (comp_uuid : json) : result string :=
  match comp_uuid with
  | JStr u => Ok (String.substring 0 2 u)
  | _ => Raise TypeError
  end.

(** A path in a condition: [None] and the empty string are false. *)
Definition nonempty (o : option string) : option string :=
  f ← o; if bool_decide (f = "") then None else Some f.

(** Lines 509-529. *)
Definition spine_target (h : host) (fs : tree) (by_prefix : gmap string (list string))
    (uuids : list json) (sk : skeleton) : result (option string) :=
  match skeleton_comp_uuid uuids sk with
  | None => Ok None
  | Some comp_uuid =>
      prefix ← bucket_prefix comp_uuid;
      let cand := default [] (by_prefix !! prefix) in
      let sized :=
        match atlas_size (atlasText sk) with
        | Some (W, H) =>
            List.find (fun f => match get_image_size fs f with
                                | Some (w, h') => (w =? W) && (h' =? H)
                                | None => false
                                end) cand
        | None => None
        end in
      Ok (match nonempty sized with
          | Some f => Some f
          | None => head cand
          end)
  end.

(** Lines 500-538: one skeleton bundle. *)
Definition restore_skeleton (h : host) (out_spine : string)
    (by_prefix : gmap string (list string)) (uuids : list json) (sk : skeleton)
    : run unit :=
  let dir_name := if bool_decide (sk_name sk = "") then "spine" else safe_slug (sk_name sk) in
  let spine_dir := join out_spine dir_name in
  write (join spine_dir (dir_name +:+ ".atlas")) (TextFile (atlasText sk));;
  write (join spine_dir (dir_name +:+ ".json")) (SkeletonDoc (skeletonJson sk));;
  fs ← ask id;
  target_image ← lift (spine_target h fs by_prefix uuids sk);
  match nonempty target_image with
  | Some img =>
      let ext := lower (splitext img).2 in
      let base_name :=
        match textureNames sk with
        | JStr t :: _ => (splitext t).1 +:+ ext
        | _ => "texture" +:+ ext
        end in
      (* line 503: [ensure_dir(spine_dir)] *)
      Run (fun fs => ((copy_image_resolving_stub (ensured h [spine_dir]) fs img
                         (join spine_dir base_name)).1, Ok ()))
  | None => mret ()
  end.

(** Keys of the [frames] dictionary of a group. *)
Definition hashable (v : json) : bool :=
  match v with JList _ | JDict _ => false | _ => true end.

(** Equality of two dictionary keys.  [json.loads] returns one and the same
    object for every NaN, which a dictionary finds by identity. *)
Definition key_eq (a b : json) : bool :=
  match a, b with
  | JNull, JNull => true
  | JStr s, JStr t => bool_decide (s = t)
  | JFloat S754_nan, JFloat S754_nan => true
  | JFloat f, JFloat g => SFeqb f g
  | JFloat f, (JBool _ | JInt _) => float_eq_int f (default 0 (int_val b))
  | (JBool _ | JInt _), JFloat g => float_eq_int g (default 0 (int_val a))
  | (JBool _ | JInt _), (JBool _ | JInt _) =>
      default 0 (int_val a) =? default 0 (int_val b)
  | _, _ => false
  end.

Record group := {
  g_frames : list (json * sprite_frame);
  g_sources : gset string;
}.

(** Lines 546-549: keep the first frame seen under a name. *)
Definition add_frame (frames : list (json * sprite_frame)) (fr : sprite_frame)
    : result (list (json * sprite_frame)) :=
  let name := sf_name fr in
  if negb (hashable name) then Raise TypeError
  else if existsb (fun kv => key_eq kv.1 name) frames then Ok frames
  else Ok (frames ++ [(name, fr)]).

Fixpoint add_frames (frames : list (json * sprite_frame)) (frs : list sprite_frame)
    : result (list (json * sprite_frame)) :=
  match frs with
  | [] => Ok frames
  | fr :: frs' => frames' ← add_frame frames fr; add_frames frames' frs'
  end.

(** No two entries of a [frames] dictionary have equal keys. *)
Definition keys_distinct (frames : list (json * sprite_frame)) : Prop :=
  ∀ i j a b, (i < j)%nat -> frames !! i = Some a -> frames !! j = Some b ->
             key_eq a.1 b.1 = false.

(** [atlas_groups[key] = g], keeping the place of an existing key. *)
Fixpoint set_group (groups : list (string * group)) (key : string) (g : group)
    : list (string * group) :=
  match groups with
  | [] => [(key, g)]
  | (k, g') :: rest =>
      if decide (k = key) then (k, g) :: rest else (k, g') :: set_group rest key g
  end.

(** Lines 541-549. *)
Definition collect_frames_of (jf : string) (json_data : json)
    (atlas_groups : list (string * group)) : result (list (string * group)) :=
  let frames := extract_sprite_frames json_data in
  match guess_texture_uuid_compressed json_data, frames with
  | Some tex, _ :: _ =>
      if bool_decide (tex = "") then Ok atlas_groups
      else
        let grp := default {| g_frames := []; g_sources := ∅ |} (dict_get atlas_groups tex) in
        fs' ← add_frames (g_frames grp) frames;
        Ok (set_group atlas_groups tex
              {| g_frames := fs'; g_sources := {[ basename jf ]} ∪ g_sources grp |})
  | _, _ => Ok atlas_groups
  end.

(** Lines 491-549: one structural document. *)
Definition restore_document (h : host) (out_spine : string)
    (by_prefix : gmap string (list string))
    (atlas_groups : list (string * group)) (jf : string)
    : run (list (string * group)) :=
  json_data ← ask (fun fs => read_json h fs jf);
  match json_data with
  | None | Some JNull => mret atlas_groups
  | Some json_data =>
      for_each (extract_skeleton_entries json_data)
        (fun _ sk => restore_skeleton h out_spine by_prefix (doc_uuids json_data) sk) ();;
      lift (collect_frames_of jf json_data atlas_groups)
  end.

(** Lines 558-575: the texture of a group among the bucket's candidates. *)
Definition first_with (test : string -> string -> bool) (cand : list string)
    : option string :=
  (fix over (exts : list string) : option string :=
     match exts with
     | [] => None
     | ext :: exts' =>
         match List.find (fun f => test f ext) cand with
         | Some f => Some f
         | None => over exts'
         end
     end) image_exts.

Definition pick_image (fs : tree) (cand : list string) : option string :=
  match first_with (fun f ext => endswith (lower f) ext && is_image_magic_ok fs f) cand with
  | Some f => Some f
  | None => first_with (fun f ext => endswith (lower f) ext) cand
  end.

(** Lines 579-587: the descriptor entry of one frame. *)
Definition plist_entry (h : host) (fr : sprite_frame) : result plist_frame :=
  r ← parse_rect (int_of_str h) (rect fr);
  off ← parse_pair (int_of_str h) (offset fr);
  osz ← parse_pair (int_of_str h) (originalSize fr);
  Ok {| pf_rotated := rotated fr; pf_frame := r; pf_offset := off; pf_sourceSize := osz |}.

(** Lines 577-587. *)
Fixpoint frames_obj (h : host) (frames : list (json * sprite_frame))
    : result (list (json * plist_frame)) :=
  match frames with
  | [] => Ok []
  | (name, fr) :: rest =>
      e ← plist_entry h fr; es ← frames_obj h rest; Ok ((name, e) :: es)
  end.

(** [old] is an entry of [out_dir] when [out_dir/old] is a file of the tree. *)
Definition entry_of (out_dir path : string) : option string :=
  let pre := out_dir +:+ "/" in
  let n := String.length pre in
  if String.prefix pre path then
    let old := String.substring n (String.length path - n) path in
    if bool_decide (old = "") || contains "/" old then None else Some old
  else None.

(** Lines 595-603: stale textures of [out_dir] are removed. *)
Definition is_stale (out_dir texture_file_name path : string) : bool :=
  match entry_of out_dir path with
  | Some old =>
      existsb (endswith (lower old)) image_exts
      && negb (bool_decide (old = texture_file_name))
  | None => false
  end.

Definition remove_stale (out_dir texture_file_name : string) : run unit :=
  Run (fun fs =>
         (filter (fun kv => is_stale out_dir texture_file_name kv.1 = false) fs, Ok ())).

(** Lines 553-608: one atlas group. *)
Definition emit_atlas (h : host) (out_atlas : string)
    (by_prefix : gmap string (list string)) (comp_uuid : string) (g : group)
    : run unit :=
  let prefix := String.substring 0 2 comp_uuid in
  let cand := default [] (by_prefix !! prefix) in
  image_file ← ask (fun fs => pick_image fs cand);
  let texture_file_name :=
    match image_file with
    | Some f => basename f
    | None => "texture_" +:+ prefix +:+ ".png"
    end in
  entries ← lift (frames_obj h (g_frames g));
  let out_dir := join out_atlas (prefix +:+ "_" +:+ safe_slug (String.substring 0 6 comp_uuid)) in
  let plist_name := "atlas_" +:+ safe_slug (String.substring 0 8 comp_uuid) +:+ ".plist" in
  write (join out_dir plist_name) (Plist entries texture_file_name);;
  remove_stale out_dir texture_file_name;;
  match image_file with
  | Some f =>
      (* line 590: [ensure_dir(out_dir)] *)
      Run (fun fs =>
             ((copy_image_resolving_stub (ensured h [out_dir]) fs f
                 (join out_dir texture_file_name)).1, Ok ()))
  | None => mret ()
  end.

(** Lines 633-638: frame names reach [re.match], which accepts only [str]. *)
Fixpoint names_of (keys : list json) : result (list string) :=
  match keys with
  | [] => Ok []
  | JStr nm :: keys' => nms ← names_of keys'; Ok (nm :: nms)
  | _ :: _ => Raise TypeError
  end.

(** Lines 630-675: the inferred clips of one atlas group. *)
Definition infer_atlas (auto_anim_dir : string)
    (auto_collected : list (string * string)) (item : string * group)
    : run (list (string * string)) :=
  let '(comp_uuid, g) := item in
  names ← lift (names_of (g_frames g).*1);
  for_each (infer_group comp_uuid names)
    (fun collected c =>
       let out_file := join auto_anim_dir (safe_slug (ac_name c) +:+ ".anim.guessed.json") in
       write out_file (AutoClipDoc c);;
       mret (collected ++ [(ac_name c, out_file)]))
    auto_collected.

(** How a run of the program ends. *)
Inductive outcome :=
| Completed
| Exit (status : Z)        (* [sys.exit(status)] *)
| Uncaught (e : exn).      (* an exception nobody handles: traceback, status 1 *)

(** Lines 460-679: the batch, once the arguments are accepted. *)
Definition batch (h : host) (assets_root output_dir : string) : run unit :=
  let import_root := join assets_root "import" in
  let native_root := join assets_root "native" in
  let out_spine := join output_dir "spine" in
  let out_atlas := join output_dir "sprite_atlases" in
  (* lines 462-466 and 63: the directories made before anything is copied *)
  let hd := ensured h [output_dir; out_spine; out_atlas; join output_dir "audio"] in
  _ ← Run (extract_audio (os_walk h native_root) output_dir);
  let native_images := walk_files (os_walk h native_root) image_exts in
  let by_prefix := native_by_prefix h native_root native_images in
  atlas_groups ← for_each (walk_files (os_walk h import_root) [".json"])
                   (restore_document hd out_spine by_prefix) [];
  for_each atlas_groups
    (fun _ '(comp_uuid, g) => emit_atlas hd out_atlas by_prefix comp_uuid g) ();;
  let auto_anim_dir := join output_dir "animations_auto" in
  auto_collected ← for_each atlas_groups (infer_atlas auto_anim_dir) [];
  write (join auto_anim_dir "index.json") (AutoIndex auto_collected).

(** Lines 443-458 and the call of the batch. *)
Definition main (h : host) (argv : list string) (fs : tree) : tree * outcome :=
  match argv with
  | _ :: assets_root :: output_dir :: _ =>
      if negb (isdir h (join assets_root "import") && isdir h (join assets_root "native"))
      then (fs, Exit 1)
      else
        match exec (batch h assets_root output_dir) fs with
        | (fs', Ok _) => (fs', Completed)
        | (fs', Raise e) => (fs', Uncaught e)
        end
  | _ => (fs, Exit 1)
  end.

(** Surroundings in which the native root is [native]: the first component
    of a path below it starts after the seven characters of [native/]. *)
Definition bucket_host : host :=
  {| isdir := fun _ => true;
     os_walk := fun _ => [];
     relpath_first := fun f _ => String.substring 7 2 f;
     json_loads := fun _ => None;
     int_of_str := fun _ => Raise ValueError;
     stub_url := fun _ => None;
     urlopen := fun _ => None |}.

(** A document with one frame whose rect has two entries only:
    [[0, ["aa000000"], {"name": "f", "rect": [1, 2], "originalSize": [4, 4]}]]. *)
Definition short_rect_document : json :=
  JList [JInt 0; JList [JStr "aa000000"];
         JDict [("name", JStr "f"); ("rect", JList [JInt 1; JInt 2]);
                ("originalSize", JList [JInt 4; JInt 4])]].

(** A well-formed document of another atlas:
    [[0, ["bb000000"], {"name": "g", "rect": [0, 0, 4, 4], "originalSize": [4, 4]}]]. *)
Definition sound_document : json :=
  JList [JInt 0; JList [JStr "bb000000"];
         JDict [("name", JStr "g"); ("rect", JList [JInt 0; JInt 0; JInt 4; JInt 4]);
                ("originalSize", JList [JInt 4; JInt 4])]].

(** An asset root with the documents listed in [docs] under [import] and
    nothing under [native]; the remaining answers are those of [h0]. *)
Definition sample_host (docs : list string) (h0 : host) : host :=
  {| isdir := fun _ => true;
     os_walk := fun root =>
       if decide (root = "assets/import") then [("assets/import", docs)] else [];
     json_loads := fun txt =>
       if decide (txt = "A") then Some short_rect_document
       else if decide (txt = "B") then Some sound_document else None;
     relpath_first := relpath_first h0;
     int_of_str := int_of_str h0;
     stub_url := stub_url h0;
     urlopen := urlopen h0 |}.

Definition sample_tree : tree :=
  {[ "assets/import/a.json" := TextFile "A"; "assets/import/b.json" := TextFile "B" ]}.

Definition sample_argv : list string := ["restore_cocos_assets.py"; "assets"; "out"].

(** Surroundings that answer nothing: no directory, no file listed, no
    text parsed, no stub resolved. *)
Definition quiet_host : host :=
  {| isdir := fun _ => false;
     os_walk := fun _ => [];
     relpath_first := fun f _ => f;
     json_loads := fun _ => None;
     int_of_str := fun _ => Raise ValueError;
     stub_url := fun _ => None;
     urlopen := fun _ => None |}.

(** A document whose three frames form a series:
    [[0, ["cc000000"], [{"name": "run_1", ...}, {"name": "run_2", ...},
    {"name": "run_3", ...}]]], each frame with the rect [[0, 0, 4, 4]] and
    the size [[4, 4]]; an asset root that lists it, and its tree. *)
Definition series_frame (nm : string) : json :=
  JDict [("name", JStr nm); ("rect", JList [JInt 0; JInt 0; JInt 4; JInt 4]);
         ("originalSize", JList [JInt 4; JInt 4])].

Definition series_document : json :=
  JList [JInt 0; JList [JStr "cc000000"];
         JList [series_frame "run_1"; series_frame "run_2"; series_frame "run_3"]].

Definition series_host : host :=
  {| isdir := fun _ => true;
     os_walk := fun root =>
       if decide (root = "assets/import") then [("assets/import", ["c.json"])] else [];
     relpath_first := fun f _ => f;
     json_loads := fun txt => if decide (txt = "C") then Some series_document else None;
     int_of_str := fun _ => Raise ValueError;
     stub_url := fun _ => None;
     urlopen := fun _ => None |}.

Definition series_tree : tree := {[ "assets/import/c.json" := TextFile "C" ]}.


Definition hero_bundle : json :=
  JList [JInt 0; JStr "hero"; JStr "size: 4,4"; JList [JStr "hero.png"]; JDict [];
         JList [JInt 5]].

(** The bundle below the identifier table [["ab12"]], and below the table
    [[7, "ab12"]], whose first entry is a number. *)
Definition hero_document : json := JList [JInt 0; JList [JStr "ab12"]; hero_bundle].
Definition numeric_id_document : json :=
  JList [JInt 0; JList [JInt 7; JStr "ab12"]; hero_bundle].

(** A PNG header of a 4 by 4 image. *)
Definition png_4x4 : list byte :=
  Image.png_signature ++ [x00; x00; x00; x0d] ++ ["I"; "H"; "D"; "R"]%byte
  ++ [x00; x00; x00; x04] ++ [x00; x00; x00; x04] ++ [x08].

(** An asset root with the documents listed in [docs] under [import] and
    one image in the bucket [ab] under [native]; no other directory is
    there at the start. *)
Definition hero_host (docs : list string) : host :=
  {| isdir := fun d => bool_decide (d = "assets/import") || bool_decide (d = "assets/native");
     os_walk := fun root =>
       if decide (root = "assets/import") then [("assets/import", docs)]
       else if decide (root = "assets/native") then [("assets/native/ab", ["t.png"])]
       else [];
     relpath_first := fun f _ => String.substring 14 2 f;
     json_loads := fun txt =>
       if decide (txt = "H") then Some hero_document
       else if decide (txt = "N") then Some numeric_id_document else None;
     int_of_str := fun _ => Raise ValueError;
     stub_url := fun _ => None;
     urlopen := fun _ => None |}.

Definition hero_tree : tree :=
  {[ "assets/import/h.json" := TextFile "H"; "assets/import/n.json" := TextFile "N";
     "assets/native/ab/t.png" := Binary png_4x4 ]}.

(** The sample tree after an earlier run left a descriptor behind. *)
Definition descriptor_path : string := "out/sprite_atlases/bb_bb0000/atlas_bb000000.plist".
Definition rerun_sample_tree : tree := <[descriptor_path := TextFile "kept"]> sample_tree.

End Main.

(** * Checked properties *)

(** ** WEBP dimensions *)
Module WebpFacts.
Import Bytes Webp.

Lemma webp_chunk_found buf off w h :
  webp_chunk buf off = Found w h -> decoded_from buf w h.
Proof.
  unfold webp_chunk.
  destruct (decide (chunk_tag buf off = tag_VP8X)) as [HX|_].
  { intros [= <- <-]. by eapply from_VP8X. }
  destruct (decide (chunk_tag buf off = tag_VP8 ∧ 10 <= chunk_size buf off)) as [[H8 _]|_].
  { case_decide; [|done]. intros [= <- <-]. by eapply from_VP8. }
  destruct (decide (chunk_tag buf off = tag_VP8L ∧ 5 <= chunk_size buf off)) as [[HL _]|_];
    [|done].
  destruct (index buf (off + 8)) as [s|]; [|done].
  case_decide; [|done].
  destruct (index buf (off + 8 + 1)) as [b1|] eqn:E1; [|done].
  destruct (index buf (off + 8 + 2)) as [b2|] eqn:E2; [|done].
  destruct (index buf (off + 8 + 3)) as [b3|] eqn:E3; [|done].
  destruct (index buf (off + 8 + 4)) as [b4|] eqn:E4; [|done].
  intros [= <- <-]. by eapply from_VP8L.
Qed.

Lemma webp_scan_found buf off w h :
  webp_scan buf off = Some (w, h) -> decoded_from buf w h.
Proof.
  funelim (webp_scan buf off); try done.
  - intros [= <- <-]. by eapply webp_chunk_found.
  - auto.
Qed.




End WebpFacts.

(** ** PNG and JPEG dimensions *)
Module ImageFacts.
Import Bytes Image.

(** A PNG header announcing 256 x 32. *)
Example png_dimensions :
  read_png_size (png_signature ++ [x00; x00; x00; x0d] ++ ["I"; "H"; "D"; "R"]%byte
                 ++ [x00; x00; x01; x00] ++ [x00; x00; x00; x20] ++ [x08])
  = Some (256, 32).
Proof. vm_compute. reflexivity. Qed.

(** A JPEG with an APP0 segment, then a start of frame of height 16 and
    width 32. *)
Example jpeg_dimensions :
  read_jpeg_size [xff; xd8; xff; xe0; x00; x04; x00; x00;
                  xff; xc0; x00; x0b; x08; x00; x10; x00; x20; x03; x00; x00; x00]
  = Some (32, 16).
Proof. vm_compute. reflexivity. Qed.

(** A truncated file gives no dimensions. *)
Example jpeg_truncated :
  read_jpeg_size [xff; xd8; xff; xc0; x00; x0b; x08; x00] = None.
Proof. vm_compute. reflexivity. Qed.

End ImageFacts.

(** ** Animation clips *)
Module ClipFacts.
Import Py Clips.

Lemma str_entries_filter l :
  JStr <$> str_entries l = filter (fun v => is_str v) l.
Proof.
  induction l as [|v l IH]; [done|].
  unfold str_entries in *. rewrite filter_cons.
  destruct v; simpl; try exact IH.
  f_equal. exact IH.
Qed.

(** C7 (as amended): when the root is a sequence whose second element is a
    sequence, the identifier table consists of the string entries of that
    element, in order, the other entries being dropped; in every other case
    the table is empty. *)
Theorem uuids_of_table data :
  (∃ x l rest, data = JList (x :: JList l :: rest)
               ∧ JStr <$> uuids_of data = filter (fun v => is_str v) l)
  ∨ ((∀ x l rest, data ≠ JList (x :: JList l :: rest)) ∧ uuids_of data = []).
Proof.
  destruct data as [| | | | |[|x [|[| | | | |l|] rest]]|]; try (right; split; [congruence|done]).
  left. exists x, l, rest. split; [done|]. apply str_entries_filter.
Qed.

(** C7 (as stated) fails: a second element with a non-string entry does
    not give the empty table. *)
Lemma mixed_table_not_empty :
  uuids_of mixed_table_document = ["a"; "b"] ∧ uuids_of mixed_table_document ≠ [].
Proof. split; [reflexivity | discriminate]. Qed.

(** A table made of strings only is taken whole. *)
Lemma uuids_of_strings x ss rest :
  uuids_of (JList (x :: JList (JStr <$> ss) :: rest)) = ss.
Proof.
  simpl. unfold str_entries. induction ss as [|s ss IH]; [done|].
  simpl. f_equal. exact IH.
Qed.

Lemma resolve_uuid_out_of_range uuids v idx :
  int_val v = Some idx ->
  idx < 0 ∨ Z.of_nat (length uuids) <= idx ->
  resolve_uuid uuids (Some v) = None.
Proof.
  intros Hv Hr. unfold resolve_uuid. simpl. rewrite Hv. simpl.
  case_decide; [lia|done].
Qed.

(** C6: an index outside the identifier table (below 0, or at least its
    length) resolves to no identifier, and the lookup raises nothing: the
    keyframe record that carries the index yields its frame, without
    identifier, exactly when its time can be read. *)
Theorem keyframe_out_of_range uuids d tail v idx :
  find_idx tail = Some v ->
  int_val v = Some idx ->
  idx < 0 ∨ Z.of_nat (length uuids) <= idx ->
  resolve_uuid uuids (Some v) = None
  ∧ keyframe uuids (JList (JDict d :: tail))
    = (t ← keyframe_time d; Ok {| time := t; uuid := None; uuid_index := Some v |}).
Proof.
  intros Hf Hv Hr.
  pose proof (resolve_uuid_out_of_range _ _ _ Hv Hr) as Hnone.
  split; [exact Hnone|].
  unfold keyframe. rewrite Hf, Hnone. reflexivity.
Qed.

Lemma keyframe_out_of_range_witness :
  resolve_uuid ["tex_a"] (Some (JInt 5)) = None
  ∧ keyframe ["tex_a"] (JList [JDict [("frame", JInt 0)]; JStr "value"; JInt 6; JInt 5])
    = (t ← keyframe_time [("frame", JInt 0)];
       Ok {| time := t; uuid := None; uuid_index := Some (JInt 5) |}).
Proof.
  apply (keyframe_out_of_range ["tex_a"] [("frame", JInt 0)]
           [JStr "value"; JInt 6; JInt 5] (JInt 5) 5);
    [reflexivity | reflexivity | simpl; lia].
Defined.

(** A negative index is out of range as well (no counting from the end). *)
Lemma negative_index_unresolved :
  keyframe ["tex_a"; "tex_b"]
    (JList [JDict [("frame", JInt 0)]; JStr "value"; JInt 6; JInt (-1)])
  = Ok {| time := Some (float_lit 0 0); uuid := None; uuid_index := Some (JInt (-1)) |}.
Proof. vm_compute. reflexivity. Qed.

(** Whether a keyframe record can be read does not depend on the table. *)
Lemma keyframe_total_in_table uuids uuids' entry :
  (∃ fr, keyframe uuids entry = Ok fr) -> ∃ fr', keyframe uuids' entry = Ok fr'.
Proof.
  intros [fr H].
  destruct entry as [| | | | |l|]; try discriminate.
  destruct l as [|e0 tail]; try discriminate.
  destruct e0; try discriminate.
  simpl in *.
  destruct (keyframe_time d) as [t|e]; simpl in *; [eauto | discriminate].
Qed.

(** The document [run_document] is extracted as exactly one clip named
    "run" of duration 1.5 (sample rate 24), with exactly one track, whose
    single keyframe resolves to "tex_a". *)
Example run_document_clip :
  parse_animation_clip run_document =
  Ok [ {| name := "run";
          duration := float_lit 3 (-1);
          sample := Some (float_lit 24 0);
          tracks := [ {| type := "spriteFrame";
                         frames := [ {| time := Some (float_lit 0 0);
                                        uuid := Some "tex_a";
                                        uuid_index := Some (JInt 0) |} ] |} ] |} ].
Proof. vm_compute. reflexivity. Qed.

(** Inside a document, a keyframe whose index is out of range stays in
    its track, without identifier. *)
Example out_of_range_keyframe_in_document :
  parse_animation_clip
    (JList [JInt 1; JList [JStr "tex_a"];
            JList [JInt 0; JStr "run"; JInt 2; JInt 24;
                   JList [JStr "spriteFrame";
                          JList [JDict [("frame", JInt 0)]; JStr "value"; JInt 6; JInt 1]]]])
  = Ok [ {| name := "run"; duration := float_lit 2 0; sample := Some (float_lit 24 0);
            tracks := [ {| type := "spriteFrame";
                           frames := [ {| time := Some (float_lit 0 0); uuid := None;
                                          uuid_index := Some (JInt 1) |} ] |} ] |} ].
Proof. vm_compute. reflexivity. Qed.

(** A track that is a sibling of the header, not below it, is not attached. *)
Lemma sibling_track_not_attached :
  parse_animation_clip
    (JList [JInt 1; JList [JStr "tex_a"];
            JList [JInt 0; JStr "run"; JFloat (float_lit 3 (-1)); JInt 24];
            JList [JStr "spriteFrame"; keyframe_0]])
  = Ok [ {| name := "run"; duration := float_lit 3 (-1);
            sample := Some (float_lit 24 0); tracks := [] |} ].
Proof. vm_compute. reflexivity. Qed.

End ClipFacts.

(** ** The materializer *)
Module OutputFacts.
Import Py Clips Text Output.

Lemma append_cons c a b : String c a +:+ b = String c (a +:+ b).
Proof. reflexivity. Qed.

Lemma append_assoc a b c : (a +:+ b) +:+ c = a +:+ (b +:+ c).
Proof. induction a as [|x a IH]; [done|]. rewrite !append_cons. by rewrite IH. Qed.

Lemma length_append a b : String.length (a +:+ b) = (String.length a + String.length b)%nat.
Proof. induction a as [|x a IH]; [done|]. rewrite append_cons. simpl. by rewrite IH. Qed.

(** Two strings with a common suffix are equal once the rest is. *)
Lemma append_inv_tail a b c : a +:+ c = b +:+ c -> a = b.
Proof.
  revert b. induction a as [|x a IH]; intros [|y b] H; try done.
  - apply (f_equal String.length) in H. rewrite !length_append in H. simpl in H. lia.
  - apply (f_equal String.length) in H. rewrite !length_append in H. simpl in H. lia.
  - rewrite !append_cons in H. injection H as -> H. f_equal. by apply IH.
Qed.

Lemma to_uint_not_nil n : Nat.to_uint n ≠ Decimal.Nil.
Proof.
  intros H. pose proof (DecimalNat.Unsigned.of_to n) as Hn. rewrite H in Hn.
  simpl in Hn. subst n. discriminate H.
Qed.

Lemma str_of_nat_inj i j : str_of_nat i = str_of_nat j -> i = j.
Proof.
  unfold str_of_nat. intros H.
  apply DecimalNat.Unsigned.to_uint_inj.
  pose proof (NilZero.usu _ (to_uint_not_nil i)) as Hi.
  pose proof (NilZero.usu _ (to_uint_not_nil j)) as Hj.
  rewrite H in Hi. congruence.
Qed.

Lemma startswith_sep_append name t :
  startswith_sep (name +:+ "_" +:+ t) = startswith_sep (name +:+ "_").
Proof. by destruct name. Qed.

Lemma numbered_inj audio_out name ext i j :
  numbered audio_out name ext i = numbered audio_out name ext j -> i = j.
Proof.
  unfold numbered, join. rewrite !startswith_sep_append.
  set (k i := name +:+ "_" +:+ str_of_nat i +:+ ext).
  assert (Hk : ∀ a b, k a = k b -> a = b).
  { intros a b H. unfold k in H.
    apply String.app_inj in H. apply (String.app_inj "_") in H.
    apply append_inv_tail in H. by apply str_of_nat_inj. }
  destruct (startswith_sep (name +:+ "_")); [apply Hk|].
  destruct (bool_decide (audio_out = "") || endswith audio_out "/").
  - intros H. apply String.app_inj in H. by apply Hk.
  - intros H. apply String.app_inj in H. apply (String.app_inj "/") in H. by apply Hk.
Qed.

(** No more numbered siblings can exist than there are files. *)
Lemma numbered_existing_bound (fs : tree) audio_out name ext n :
  (∀ j, (1 <= j <= n)%nat -> exists_ fs (numbered audio_out name ext j) = true) ->
  (n <= size fs)%nat.
Proof.
  intros Hall.
  set (l := numbered audio_out name ext <$> seq 1 n).
  assert (Hnd : NoDup l).
  { apply NoDup_fmap_2_strong; [|apply NoDup_seq].
    intros i j _ _. apply numbered_inj. }
  assert (Hsub : list_to_set l ⊆ dom fs).
  { intros p Hp. apply elem_of_list_to_set in Hp.
    apply list_elem_of_fmap in Hp as (j & -> & Hj). apply elem_of_seq in Hj.
    apply elem_of_dom. specialize (Hall j ltac:(lia)).
    unfold exists_ in Hall. by apply bool_decide_eq_true in Hall. }
  apply subseteq_size in Hsub.
  rewrite size_list_to_set in Hsub by done.
  rewrite size_dom in Hsub. unfold l in Hsub. rewrite length_fmap, length_seq in Hsub.
  done.
Qed.

(** The loop stops on a path that does not exist, after probing the
    numbered siblings in order, provided it is unfolded often enough. *)
Lemma probe_spec (fs : tree) audio_out name ext fuel i target :
  (S (size fs) < fuel + i)%nat ->
  (1 <= i)%nat ->
  (∀ j, (1 <= j < i - 1)%nat -> exists_ fs (numbered audio_out name ext j) = true) ->
  (1 < i -> target = numbered audio_out name ext (i - 1))%nat ->
  let r := probe fs audio_out name ext fuel i target in
  exists_ fs r = false
  ∧ (r = target
     ∨ ∃ k, (i <= k)%nat ∧ r = numbered audio_out name ext k ∧ exists_ fs target = true
            ∧ ∀ j, (i <= j < k)%nat -> exists_ fs (numbered audio_out name ext j) = true).
Proof.
  revert i target. induction fuel as [|fuel IH]; intros i target Hsz Hi Hbelow Htarget; simpl.
  - destruct (exists_ fs target) eqn:Hex; [|by auto].
    exfalso.
    assert (i - 1 <= size fs)%nat; [|lia].
    apply (numbered_existing_bound fs audio_out name ext).
    intros j Hj. destruct (decide (j = i - 1)%nat) as [->|].
    + rewrite <- Htarget by lia. done.
    + apply Hbelow. lia.
  - destruct (exists_ fs target) eqn:Hex; [|by auto].
    destruct (IH (S i) (numbered audio_out name ext i)) as [Hfresh Hshape].
    + lia.
    + lia.
    + intros j Hj. destruct (decide (j = i - 1)%nat) as [->|].
      * rewrite <- Htarget by lia. done.
      * apply Hbelow. lia.
    + intros _. f_equal. lia.
    + split; [exact Hfresh|]. right.
      destruct Hshape as [->|(k & Hk & -> & Hexi & Hbetween)].
      * exists i. split; [lia|]. split; [done|]. split; [done|]. intros j Hj. lia.
      * exists k. split; [lia|]. split; [done|]. split; [done|].
        intros j Hj. destruct (decide (j = i)) as [->|]; [done|]. apply Hbetween. lia.
Qed.

Lemma copy2_preserves (fs fs' : tree) src dst :
  exists_ fs dst = false -> copy2 fs src dst = Ok fs' ->
  ∀ p c, fs !! p = Some c -> fs' !! p = Some c.
Proof.
  unfold copy2, exists_. intros Hfresh Hcopy p c Hp.
  destruct (fs !! src) as [c0|]; [|done]. injection Hcopy as <-.
  apply bool_decide_eq_false in Hfresh.
  rewrite lookup_insert_ne; [done|]. intros ->. apply Hfresh. by eexists.
Qed.

Lemma audio_target_fresh (fs : tree) audio_out path :
  exists_ fs (audio_target fs audio_out path) = false.
Proof.
  unfold audio_target. apply probe_spec; [lia | lia | intros; lia | intros; lia].
Qed.

(** One step of the loop: when the plain target of an audio file already
    exists, the target chosen is a numbered sibling [name_k.ext], the
    first one (k = 1, 2, ...) that does not exist, and the copy leaves
    every file that was there as it was. *)
Lemma audio_target_numbered (fs : tree) audio_out path c0 :
  let name := safe_slug (splitext (basename path)).1 in
  let ext := lower (splitext (basename path)).2 in
  let target := audio_target fs audio_out path in
  exists_ fs (join audio_out (name +:+ ext)) = true ->
  fs !! path = Some c0 ->
  (∃ k, (1 <= k)%nat
        ∧ target = numbered audio_out name ext k
        ∧ ∀ j, (1 <= j < k)%nat -> exists_ fs (numbered audio_out name ext j) = true)
  ∧ exists_ fs target = false
  ∧ copy2 fs path target = Ok (<[target := c0]> fs)
  ∧ ∀ p c, fs !! p = Some c -> <[target := c0]> fs !! p = Some c.
Proof.
  intros name ext target Htaken Hsrc.
  assert (Hcopy : copy2 fs path target = Ok (<[target := c0]> fs))
    by (unfold copy2; by rewrite Hsrc).
  pose proof (audio_target_fresh fs audio_out path) as Hfresh.
  split; [|split; [exact Hfresh | split; [exact Hcopy|]]].
  - destruct (probe_spec fs audio_out name ext (S (size fs)) 1
                (join audio_out (name +:+ ext))) as [Hf [Heq|(k & Hk & Hr & _ & Hb)]];
      [lia | lia | intros; lia | intros; lia | |].
    + exfalso. rewrite Heq in Hf. congruence.
    + exists k. split; [done|]. split; [exact Hr | exact Hb].
  - by apply (copy2_preserves fs _ path target).
Qed.

Example audio_target_taken :
  audio_target taken_tree "out/audio" "n/a.mp3" = "out/audio/a_1.mp3".
Proof. vm_compute. reflexivity. Qed.

(** [extract_audio] leaves every file that existed before as it was,
    however the run ends. *)
Lemma audio_loop_preserves audio_out paths (fs fs' : tree) m r :
  audio_loop audio_out paths fs m = (fs', r) ->
  ∀ p c, fs !! p = Some c -> fs' !! p = Some c.
Proof.
  revert fs m. induction paths as [|path rest IH]; intros fs m; simpl.
  - by intros [= <- _].
  - destruct (copy2 fs path (audio_target fs audio_out path)) as [fs1|e] eqn:Hcopy.
    + intros Hloop p c Hp. eapply IH; [exact Hloop|].
      eapply copy2_preserves; [apply audio_target_fresh | exact Hcopy | exact Hp].
    + by intros [= <- _].
Qed.

Lemma extract_audio_preserves walk out_root (fs fs' : tree) r :
  extract_audio walk out_root fs = (fs', r) ->
  ∀ p c, fs !! p = Some c -> fs' !! p = Some c.
Proof. apply audio_loop_preserves. Qed.

(** An animation clip document is written over the file that is at its
    path, and no numbered sibling appears (the tree gains the index only). *)
Lemma clip_document_overwritten :
  let fs' := (extract_animations marked_loader [("in/import", ["a.json"])] "out" rerun_tree).1 in
  rerun_tree !! "out/animations/run.anim.json" = Some (TextFile "kept")
  ∧ (∃ c, fs' !! "out/animations/run.anim.json" = Some (ClipDoc c))
  ∧ fs' !! "out/animations/run_1.anim.json" = None
  ∧ size rerun_tree = 2%nat ∧ size fs' = 3%nat.
Proof.
  split; [|split; [|split; [|split]]]; try (vm_compute; reflexivity).
  eexists. vm_compute. reflexivity.
Qed.

(** C10: a document whose text lacks "cc.AnimationClip" is skipped: the
    loop goes on as if it were not listed, whatever the loader would make
    of its text. *)
Theorem unmarked_document_skipped json_loads anim_out path rest (fs : tree) collected txt :
  fs !! path = Some (TextFile txt) ->
  contains "cc.AnimationClip" txt = false ->
  animations_loop json_loads anim_out (path :: rest) fs collected
  = animations_loop json_loads anim_out rest fs collected.
Proof.
  intros Hfile Hno. simpl. unfold load_clip_document. by rewrite Hfile, Hno.
Qed.

Lemma unmarked_document_skipped_witness :
  animations_loop eager_loader "out/animations" ["in/import/b.json"] unmarked_tree []
  = animations_loop eager_loader "out/animations" [] unmarked_tree [].
Proof.
  apply (unmarked_document_skipped eager_loader "out/animations" "in/import/b.json" []
           unmarked_tree [] "[0, 1, 2]"); vm_compute; reflexivity.
Defined.

(** With the eager loader the only output is then an empty index, while
    the same text with the marker in it yields the clip. *)
Example unmarked_batch_emits_nothing :
  let r := extract_animations eager_loader [("in/import", ["b.json"])] "out" unmarked_tree in
  r.2 = Ok [] ∧ size r.1 = 2%nat ∧ r.1 !! "out/animations/index.json" = Some (ClipIndex []).
Proof. repeat split; vm_compute; reflexivity. Qed.

End OutputFacts.

(** ** Atlas frames *)
Module AtlasFacts.
Import Py Atlas.

Lemma int_of_not_list ios v x : int_of ios v = Ok x -> is_list v = false.
Proof. by destruct v. Qed.

(** C8 (as amended): a rect is normalized to {x, y, w, h} from the flat
    sequence [[a, b, c, d]] and from the nested pair of pairs
    [[[a, b], [c, d]]] alike, with the same result, whenever the four
    entries convert to integers; an offset or size is normalized to {x, y}
    from the flat sequence [[a, b]]. *)
Theorem rect_both_encodings ios a b c d x y w h :
  int_of ios a = Ok x -> int_of ios b = Ok y ->
  int_of ios c = Ok w -> int_of ios d = Ok h ->
  parse_rect ios (JList [a; b; c; d]) = Ok {| rx := x; ry := y; rw := w; rh := h |}
  ∧ parse_rect ios (JList [JList [a; b]; JList [c; d]])
    = Ok {| rx := x; ry := y; rw := w; rh := h |}
  ∧ parse_pair ios (JList [a; b]) = Ok {| px := x; py := y |}.
Proof.
  intros Ha Hb Hc Hd.
  assert (Hflat : parse_rect ios (JList [a; b; c; d])
                  = (x ← int_at ios (JList [a; b; c; d]) 0;
                     y ← int_at ios (JList [a; b; c; d]) 1;
                     w ← int_at ios (JList [a; b; c; d]) 2;
                     h ← int_at ios (JList [a; b; c; d]) 3;
                     Ok {| rx := x; ry := y; rw := w; rh := h |})).
  { pose proof (int_of_not_list _ _ _ Ha). by destruct a. }
  split; [|split].
  - rewrite Hflat. unfold int_at. simpl. by rewrite Ha, Hb, Hc, Hd.
  - unfold parse_rect, int_at. simpl. by rewrite Ha, Hb, Hc, Hd.
  - unfold parse_pair, int_at. simpl. by rewrite Ha, Hb.
Qed.

Lemma rect_both_encodings_witness :
  parse_rect (fun _ => Raise ValueError) (JList [JInt 1; JInt 2; JFloat (float_lit 7 (-1)); JBool true])
  = Ok {| rx := 1; ry := 2; rw := 3; rh := 1 |}
  ∧ parse_rect (fun _ => Raise ValueError)
      (JList [JList [JInt 1; JInt 2]; JList [JFloat (float_lit 7 (-1)); JBool true]])
    = Ok {| rx := 1; ry := 2; rw := 3; rh := 1 |}
  ∧ parse_pair (fun _ => Raise ValueError) (JList [JInt 1; JInt 2]) = Ok {| px := 1; py := 2 |}.
Proof.
  apply (rect_both_encodings (fun _ => Raise ValueError)
           (JInt 1) (JInt 2) (JFloat (float_lit 7 (-1))) (JBool true));
    vm_compute; reflexivity.
Defined.

(** C8 (as stated) fails for an offset or size given as a nested pair of
    pairs: [parse_pair] raises, where [parse_rect] reads the same value. *)
Lemma nested_pair_raises :
  parse_pair (fun _ => Raise ValueError)
    (JList [JList [JInt 0; JInt 0]; JList [JInt 4; JInt 4]]) = Raise TypeError
  ∧ parse_rect (fun _ => Raise ValueError)
      (JList [JList [JInt 0; JInt 0]; JList [JInt 4; JInt 4]])
    = Ok {| rx := 0; ry := 0; rw := 4; rh := 4 |}.
Proof. split; reflexivity. Qed.

(** A flat rect with fewer than four entries raises. *)
Lemma short_rect_raises ios x y :
  parse_rect ios (JList [JInt x; JInt y]) = Raise IndexError.
Proof. reflexivity. Qed.

End AtlasFacts.

(** ** Sequence inference *)
Module InferFacts.
Import Py Infer.

Example split_glow : split_name_series "glow_01" = Some ("glow", 1).
Proof. reflexivity. Qed.

Example split_star : split_name_series "star2" = Some ("star", 2).
Proof. reflexivity. Qed.

(** The base "glow" is accepted with its four members in suffix order
    (whatever the order in which the frames were collected). *)
Lemma glow_accepted :
  (fun c => (ac_name c, names_in c)) <$> infer_group "u" ["glow_05"; "glow_01"; "glow_03"; "glow_02"]
  = [("glow", ["glow_01"; "glow_02"; "glow_03"; "glow_05"])].
Proof. vm_compute. reflexivity. Qed.

(** Two members are too few. *)
Lemma star_discarded : infer_group "u" ["star1"; "star2"] = [].
Proof. reflexivity. Qed.

Lemma keeps_iff lst :
  keeps lst = true ↔ (3 <= length lst)%nat ∧ 3 <= consecutive_count lst.
Proof.
  unfold keeps. rewrite andb_true_iff, !negb_true_iff, !Z.ltb_ge. lia.
Qed.

(** The counter of the loop never falls, and counts every step of one. *)
Lemma count_loop_ge prev rest c : c <= count_loop prev rest c.
Proof.
  revert prev c. induction rest as [|[x nm] rest IH]; intros prev c; simpl; [lia|].
  etrans; [|apply IH]. case_match; lia.
Qed.

Lemma longest_run_from_le prev rest cur best c :
  cur <= c -> best <= c -> longest_run_from prev rest cur best <= count_loop prev rest c.
Proof.
  revert prev cur best c.
  induction rest as [|[x nm] rest IH]; intros prev cur best c Hcur Hbest; simpl; [lia|].
  destruct (x =? prev + 1); apply IH; lia.
Qed.

(** What the counter holds in the end: one more than the number of
    adjacent pairs that differ by one, wherever they are. *)
Lemma count_loop_steps prev rest c :
  1 <= c -> count_loop prev rest c = c + unit_steps prev rest.
Proof.
  revert prev c. induction rest as [|[x nm] rest IH]; intros prev c Hc; simpl; [lia|].
  destruct (x =? prev + 1); rewrite IH by lia; lia.
Qed.

Lemma consecutive_count_steps x nm rest :
  consecutive_count ((x, nm) :: rest) = 1 + unit_steps x rest.
Proof. simpl. apply count_loop_steps. lia. Qed.

(** The counter is at least the longest run: a group with three members
    in a row always passes the second test. *)
Lemma longest_run_le_count lst : longest_run lst <= consecutive_count lst.
Proof.
  destruct lst as [|[x nm] rest]; simpl; [lia|].
  apply longest_run_from_le; lia.
Qed.

Lemma run_of_three_kept lst :
  (3 <= length lst)%nat -> 3 <= longest_run lst -> keeps lst = true.
Proof.
  intros Hlen Hrun. apply keeps_iff. split; [done|].
  pose proof (longest_run_le_count lst). lia.
Qed.

(** C1, at the names a1, a2, a4, a5: the longest run of consecutive
    suffixes is 2 (1-2 and 4-5), yet the counter reaches 3, the group
    passes, and a clip with the four frames is inferred. *)
Theorem two_pairs_accepted :
  let lst := sort_by_key [(1, "a1"); (2, "a2"); (4, "a4"); (5, "a5")] in
  longest_run lst = 2
  ∧ consecutive_count lst = 3
  ∧ keeps lst = true
  ∧ (fun c => (ac_name c, names_in c)) <$> infer_group "u" ["a1"; "a2"; "a4"; "a5"]
    = [("a", ["a1"; "a2"; "a4"; "a5"])].
Proof. vm_compute. repeat split; reflexivity. Qed.

End InferFacts.

(** ** The batch driver *)
Module MainFacts.
Import Py Text Atlas Output Main.


(** Such a hint has the effect of no hint at all, also on the texture
    that is then looked for: the bundle is not skipped. *)
Lemma out_of_range_hint_as_no_hint h (fs : tree) by_prefix uuids sk v tl idx :
  textureIndices sk = v :: tl ->
  int_val v = Some idx ->
  idx < 0 ∨ Z.of_nat (length uuids) <= idx ->
  spine_target h fs by_prefix uuids sk
  = spine_target h fs by_prefix uuids
      {| sk_name := sk_name sk; atlasText := atlasText sk; skeletonJson := skeletonJson sk;
         textureNames := textureNames sk; textureIndices := [] |}.
Proof.
  intros Hti Hv Hr. unfold spine_target, skeleton_comp_uuid, first_texture_index.
  rewrite Hti, Hv. simpl.
  destruct uuids as [|u0 rest]; [done|].
  rewrite decide_False by lia.
  rewrite decide_True by (simpl; lia). done.
Qed.

(** An index in range selects its identifier. *)
Example texture_index_in_range :
  skeleton_comp_uuid [JStr "aa11"; JStr "bb22"]
    {| sk_name := "hero"; atlasText := ""; skeletonJson := [];
       textureNames := []; textureIndices := [JInt 1] |}
  = Some (JStr "bb22").
Proof. reflexivity. Qed.

(** The precondition: without both subdirectories the run exits with
    status 1 and writes nothing. *)
Lemma main_requires_subtrees h prog assets_root output_dir more (fs : tree) :
  isdir h (join assets_root "import") && isdir h (join assets_root "native") = false ->
  main h (prog :: assets_root :: output_dir :: more) fs = (fs, Exit 1).
Proof. intros H. unfold main. by rewrite H. Qed.

(** A document that cannot be read or parsed is passed over. *)
Lemma unreadable_document_skipped h out_spine by_prefix groups jf (fs : tree) :
  read_json h fs jf = None ->
  exec (restore_document h out_spine by_prefix groups jf) fs = (fs, Ok groups).
Proof. intros H. unfold restore_document. simpl. by rewrite H. Qed.

(** C2, at a document with a two-entry rect: the run passes the
    precondition, then stops on an [IndexError] that nothing handles.
    The tree still holds its two files only: neither the descriptor of the
    well-formed document listed next nor any index has been written. *)
Theorem short_rect_aborts_run h0 :
  let r := main (sample_host ["a.json"; "b.json"] h0) sample_argv sample_tree in
  r.2 = Uncaught IndexError
  ∧ size r.1 = 2%nat
  ∧ r.1 !! "out/sprite_atlases/bb_bb0000/atlas_bb000000.plist" = None
  ∧ r.1 !! "out/animations_auto/index.json" = None.
Proof. repeat split; vm_compute; reflexivity. Qed.

(** Without the malformed document, the run completes and writes the
    atlas descriptor of the other one, and the index of inferred clips. *)
Lemma sound_document_completes h0 :
  let r := main (sample_host ["b.json"] h0) sample_argv sample_tree in
  r.2 = Completed
  ∧ r.1 !! "out/sprite_atlases/bb_bb0000/atlas_bb000000.plist"
    = Some (Plist [(JStr "g", {| pf_rotated := false;
                                 pf_frame := {| rx := 0; ry := 0; rw := 4; rh := 4 |};
                                 pf_offset := {| px := 0; py := 0 |};
                                 pf_sourceSize := {| px := 4; py := 4 |} |})]
                  "texture_bb.png")
  ∧ r.1 !! "out/animations_auto/index.json" = Some (AutoIndex []).
Proof. repeat split; vm_compute; reflexivity. Qed.

(** C3 (as stated) fails for atlas descriptors: a run over a tree that
    already holds a file at the path of the descriptor completes and
    replaces that file; no numbered sibling of it is written. *)
Lemma descriptor_overwritten :
  let r := main (sample_host ["b.json"] quiet_host) sample_argv rerun_sample_tree in
  rerun_sample_tree !! descriptor_path = Some (TextFile "kept")
  ∧ r.2 = Completed
  ∧ (∃ frames texture, r.1 !! descriptor_path = Some (Plist frames texture))
  ∧ r.1 !! "out/sprite_atlases/bb_bb0000/atlas_bb000000_1.plist" = None
  ∧ size r.1 = S (size rerun_sample_tree).
Proof.
  split; [|split; [|split; [|split]]]; try (vm_compute; reflexivity).
  eexists _, _. vm_compute. reflexivity.
Qed.

End MainFacts.



(** ** Image sniffing: ranges and agreement of the readers *)
Module SniffFacts.
Import Bytes Webp Image.

Lemma length_slice buf a b : (length (slice buf a b) <= Z.to_nat (b - a))%nat.
Proof. unfold slice. rewrite length_take. lia. Qed.

Lemma from_bytes_little_bound bs :
  0 <= from_bytes_little bs < 256 ^ Z.of_nat (length bs).
Proof.
  induction bs as [|b bs IH]; [simpl; lia|].
  cbn [from_bytes_little length]. rewrite Nat2Z.inj_succ, Z.pow_succ_r by lia.
  pose proof (Byte.to_N_bounded b). unfold byte_val. lia.
Qed.

Lemma from_bytes_big_bound bs :
  0 <= from_bytes_big bs < 256 ^ Z.of_nat (length bs).
Proof.
  unfold from_bytes_big.
  assert (H : ∀ acc n, 0 <= acc < 256 ^ n -> 0 <= n ->
            0 <= foldl (fun acc b => 256 * acc + byte_val b) acc bs
              < 256 ^ (n + Z.of_nat (length bs))).
  { induction bs as [|b bs IH]; intros acc n Hacc Hn; simpl.
    - by rewrite Z.add_0_r.
    - replace (n + Z.of_nat (S (length bs)))
        with (Z.succ n + Z.of_nat (length bs)) by lia.
      apply IH; [|lia]. rewrite Z.pow_succ_r by lia.
      pose proof (Byte.to_N_bounded b). unfold byte_val. lia. }
  apply (H 0 0); lia.
Qed.

Lemma pow256_mono n m : (n <= m)%nat -> 256 ^ Z.of_nat n <= 256 ^ Z.of_nat m.
Proof. intros. apply Z.pow_le_mono_r; lia. Qed.

Lemma slice_little_bound buf a k :
  0 <= k -> 0 <= from_bytes_little (slice buf a (a + k)) < 256 ^ k.
Proof.
  intros Hk. pose proof (from_bytes_little_bound (slice buf a (a + k))) as Hb.
  pose proof (length_slice buf a (a + k)) as Hl.
  pose proof (pow256_mono _ _ Hl) as Hm.
  replace (a + k - a) with k in Hm by lia. rewrite Z2Nat.id in Hm by lia. lia.
Qed.

Lemma slice_big_bound buf a k :
  0 <= k -> 0 <= from_bytes_big (slice buf a (a + k)) < 256 ^ k.
Proof.
  intros Hk. pose proof (from_bytes_big_bound (slice buf a (a + k))) as Hb.
  pose proof (length_slice buf a (a + k)) as Hl.
  pose proof (pow256_mono _ _ Hl) as Hm.
  replace (a + k - a) with k in Hm by lia. rewrite Z2Nat.id in Hm by lia. lia.
Qed.

Lemma lor_lt_pow2 a b n :
  0 <= n -> 0 <= a < 2 ^ n -> 0 <= b < 2 ^ n -> 0 <= Z.lor a b < 2 ^ n.
Proof.
  intros Hn Ha Hb. split; [apply Z.lor_nonneg; lia|].
  destruct (decide (a = 0)) as [->|Ha0]; [rewrite Z.lor_0_l; lia|].
  destruct (decide (b = 0)) as [->|Hb0]; [rewrite Z.lor_0_r; lia|].
  assert (Hla : Z.log2 a < n) by (apply Z.log2_lt_pow2; lia).
  assert (Hlb : Z.log2 b < n) by (apply Z.log2_lt_pow2; lia).
  assert (Hpos : 0 <= Z.lor a b) by (apply Z.lor_nonneg; lia).
  destruct (decide (Z.lor a b = 0)) as [->|Hne]; [lia|].
  apply Z.log2_lt_pow2; [lia|]. rewrite Z.log2_lor by lia. lia.
Qed.

Lemma index_range buf i v : index buf i = Some v -> 0 <= v < 256.
Proof.
  unfold index. case_decide; [|done].
  destruct (buf !! Z.to_nat i) as [b|]; [|done]. intros [= <-].
  pose proof (Byte.to_N_bounded b). unfold byte_val. lia.
Qed.

Lemma index_in_range buf i v : index buf i = Some v -> 0 <= i < len buf.
Proof.
  unfold index, len. case_decide; [|done].
  destruct (buf !! Z.to_nat i) as [b|] eqn:E; [|done]. intros _.
  apply lookup_lt_Some in E. lia.
Qed.

Lemma land_mask_bound x n : 0 <= n -> 0 <= Z.land x (Z.ones n) < 2 ^ n.
Proof. intros. rewrite Z.land_ones by lia. apply Z.mod_pos_bound. lia. Qed.

Lemma decoded_from_range buf w h :
  decoded_from buf w h -> 0 <= w <= 2 ^ 24 ∧ 0 <= h <= 2 ^ 24.
Proof.
  intros [off _ -> ->|off _ -> ->|off b1 b2 b3 b4 _ H1 H2 H3 H4 -> ->].
  - unfold vp8x_w_minus_1, vp8x_h_minus_1.
    pose proof (slice_little_bound buf (off + 8 + 4) 3 ltac:(lia)) as Hw.
    pose proof (slice_little_bound buf (off + 8 + 7) 3 ltac:(lia)) as Hh.
    replace (off + 8 + 4 + 3) with (off + 8 + 7) in Hw by lia.
    replace (off + 8 + 7 + 3) with (off + 8 + 10) in Hh by lia.
    change (256 ^ 3) with (2 ^ 24) in *. lia.
  - unfold vp8_w, vp8_h. cbv zeta. change 0x3FFF with (Z.ones 14).
    pose proof (land_mask_bound
      (from_bytes_little (slice buf (off + 8 + 3 + 3) (off + 8 + 3 + 5))) 14 ltac:(lia)).
    pose proof (land_mask_bound
      (from_bytes_little (slice buf (off + 8 + 3 + 5) (off + 8 + 3 + 7))) 14 ltac:(lia)).
    assert (2 ^ 14 <= 2 ^ 24) by (apply Z.pow_le_mono_r; lia). lia.
  - apply index_range in H1, H2, H3, H4.
    unfold vp8l_w_field, vp8l_h_field.
    assert (Hp : 2 ^ 14 <= 2 ^ 24) by (apply Z.pow_le_mono_r; lia).
    assert (Hw : 0 <= Z.lor b1 (Z.shiftl (Z.land b2 63) 8) < 2 ^ 14).
    { apply lor_lt_pow2; [lia| change (2 ^ 14) with 16384; lia |].
      change 63 with (Z.ones 6). pose proof (land_mask_bound b2 6 ltac:(lia)) as Hm.
      rewrite Z.shiftl_mul_pow2 by lia. change (2 ^ 6) with 64 in Hm.
      change (2 ^ 8) with 256. change (2 ^ 14) with 16384. lia. }
    assert (Hh : 0 <= Z.lor (Z.lor (Z.shiftr b2 6) (Z.shiftl b3 2))
                        (Z.shiftl (Z.land b4 3) 10) < 2 ^ 14).
    { apply lor_lt_pow2; [lia| apply lor_lt_pow2; [lia| |] |].
      - rewrite Z.shiftr_div_pow2 by lia. change (2 ^ 6) with 64. change (2 ^ 14) with 16384.
        split; [apply Z.div_pos; lia|]. apply Z.div_lt_upper_bound; lia.
      - rewrite Z.shiftl_mul_pow2 by lia. change (2 ^ 2) with 4. change (2 ^ 14) with 16384. lia.
      - change 3 with (Z.ones 2). pose proof (land_mask_bound b4 2 ltac:(lia)) as Hm.
        rewrite Z.shiftl_mul_pow2 by lia. change (2 ^ 2) with 4 in Hm.
        change (2 ^ 10) with 1024. change (2 ^ 14) with 16384. lia. }
    lia.
Qed.

(** X1: the dimensions [read_webp_size] reports lie between 0 and 2^24,
    whatever the bytes of the file. *)
Theorem read_webp_size_range buf w h :
  read_webp_size buf = Some (w, h) -> 0 <= w <= 2 ^ 24 ∧ 0 <= h <= 2 ^ 24.
Proof.
  unfold read_webp_size. repeat case_decide; try done.
  intros Hscan. apply decoded_from_range with buf.
  exact (WebpFacts.webp_scan_found _ _ _ _ Hscan).
Qed.

Lemma read_webp_size_range_witness : 0 <= 16 <= 2 ^ 24 ∧ 0 <= 32 <= 2 ^ 24.
Proof. apply (read_webp_size_range vp8x_sample 16 32). vm_compute. reflexivity. Defined.

Lemma slice_0 buf n : slice buf 0 n = take (Z.to_nat n) buf.
Proof. unfold slice. by rewrite Z.sub_0_r. Qed.

Lemma slice_take buf (m : nat) a b :
  0 <= a -> a <= b -> b <= Z.of_nat m -> slice (take m buf) a b = slice buf a b.
Proof.
  intros Ha Hab Hb. unfold slice. rewrite skipn_firstn_comm, take_take. f_equal. lia.
Qed.

Lemma len_take buf (m : nat) : len (take m buf) = Z.min (Z.of_nat m) (len buf).
Proof. unfold len. rewrite length_take. lia. Qed.

(** X2: when [read_png_size] reports dimensions, the file has at least 24
    bytes, bytes 1 to 3 spell PNG, and both dimensions fit in 32 bits. *)
Theorem read_png_size_range data w h :
  read_png_size data = Some (w, h) ->
  24 <= len data ∧ slice data 1 4 = tag_PNG ∧ 0 <= w < 2 ^ 32 ∧ 0 <= h < 2 ^ 32.
Proof.
  unfold read_png_size. rewrite slice_0. change (Z.to_nat 32) with 32%nat.
  case_decide as Hlen; [done|]. case_decide as Htag; [done|].
  intros [= <- <-]. rewrite len_take in Hlen.
  rewrite slice_take in Htag by lia.
  split; [lia|]. split; [by destruct (decide (slice data 1 4 = tag_PNG))|].
  pose proof (slice_big_bound (take 32 data) 16 4 ltac:(lia)) as Hw.
  pose proof (slice_big_bound (take 32 data) 20 4 ltac:(lia)) as Hh.
  change (16 + 4) with 20 in Hw. change (20 + 4) with 24 in Hh.
  change (256 ^ 4) with (2 ^ 32) in *. done.
Qed.

Lemma read_png_size_range_witness :
  24 <= len (png_signature ++ [x00; x00; x00; x0d] ++ ["I"; "H"; "D"; "R"]%byte
             ++ [x00; x00; x01; x00] ++ [x00; x00; x00; x20] ++ [x08])
  ∧ slice (png_signature ++ [x00; x00; x00; x0d] ++ ["I"; "H"; "D"; "R"]%byte
           ++ [x00; x00; x01; x00] ++ [x00; x00; x00; x20] ++ [x08]) 1 4 = tag_PNG
  ∧ 0 <= 256 < 2 ^ 32 ∧ 0 <= 32 < 2 ^ 32.
Proof.
  apply (read_png_size_range
           (png_signature ++ [x00; x00; x00; x0d] ++ ["I"; "H"; "D"; "R"]%byte
            ++ [x00; x00; x01; x00] ++ [x00; x00; x00; x20] ++ [x08]) 256 32).
  vm_compute. reflexivity.
Defined.

Lemma byte_pair_bound hi lo :
  0 <= hi < 256 -> 0 <= lo < 256 -> 0 <= Z.lor (Z.shiftl hi 8) lo < 2 ^ 16.
Proof.
  intros Hhi Hlo. apply lor_lt_pow2; [lia| |change (2 ^ 16) with 65536; lia].
  rewrite Z.shiftl_mul_pow2 by lia. change (2 ^ 8) with 256. change (2 ^ 16) with 65536. lia.
Qed.

Lemma jpeg_segment_sof data off w h :
  jpeg_segment data off = Sof w h -> 0 <= w < 2 ^ 16 ∧ 0 <= h < 2 ^ 16.
Proof.
  unfold jpeg_segment.
  repeat (case_match; try discriminate).
  intros [= <- <-].
  repeat match goal with
         | H : index _ _ = Some _ |- _ => apply index_range in H
         end.
  split; by apply byte_pair_bound.
Qed.

Lemma jpeg_scan_range data off w h :
  jpeg_scan data off = Some (w, h) -> 0 <= w < 2 ^ 16 ∧ 0 <= h < 2 ^ 16.
Proof.
  funelim (jpeg_scan data off); try done.
  - intros [= <- <-]. by eapply jpeg_segment_sof.
  - auto.
Qed.

(** X3: when [read_jpeg_size] reports dimensions, the file starts with the
    marker FF D8 and both dimensions fit in 16 bits. *)
Theorem read_jpeg_size_range data w h :
  read_jpeg_size data = Some (w, h) ->
  slice data 0 2 = jpeg_soi ∧ 0 <= w < 2 ^ 16 ∧ 0 <= h < 2 ^ 16.
Proof.
  unfold read_jpeg_size. case_decide as Hhead; [done|].
  intros Hscan. split; [|by eapply jpeg_scan_range].
  destruct (decide (slice data 0 2 = jpeg_soi)); [done|]. exfalso. apply Hhead. by right.
Qed.

Lemma read_jpeg_size_range_witness :
  slice [xff; xd8; xff; xe0; x00; x04; x00; x00;
         xff; xc0; x00; x0b; x08; x00; x10; x00; x20; x03; x00; x00; x00] 0 2 = jpeg_soi
  ∧ 0 <= 32 < 2 ^ 16 ∧ 0 <= 16 < 2 ^ 16.
Proof.
  apply (read_jpeg_size_range
           [xff; xd8; xff; xe0; x00; x04; x00; x00;
            xff; xc0; x00; x0b; x08; x00; x10; x00; x20; x03; x00; x00; x00] 32 16).
  vm_compute. reflexivity.
Defined.

Lemma magic_ok_of_jpeg_head data :
  4 <= len data -> slice data 0 2 = jpeg_soi -> magic_ok data = true.
Proof.
  intros Hlen Hsoi. unfold magic_ok. rewrite !slice_0 in *.
  change (Z.to_nat 12) with 12%nat. change (Z.to_nat 8) with 8%nat.
  change (Z.to_nat 2) with 2%nat in *. change (Z.to_nat 4) with 4%nat.
  rewrite len_take, !take_take. simpl Nat.min.
  rewrite decide_False by lia.
  case_decide as Hpng; [done|]. by rewrite decide_True.
Qed.

Lemma magic_ok_of_webp_head data :
  12 <= len data -> slice data 0 4 = tag_RIFF -> slice data 8 12 = tag_WEBP ->
  magic_ok data = true.
Proof.
  intros Hlen Hriff Hwebp. unfold magic_ok.
  rewrite (slice_0 data 12), (slice_0 data 16).
  change (Z.to_nat 12) with 12%nat. change (Z.to_nat 16) with 16%nat.
  rewrite !len_take. rewrite decide_False by lia.
  rewrite !slice_take by lia.
  case_decide as Hpng; [done|]. case_decide as Hjpg; [done|].
  rewrite decide_True by exact Hriff.
  apply bool_decide_eq_true. split; [lia | exact Hwebp].
Qed.

(** X4: a file whose dimensions [read_jpeg_size] or [read_webp_size] can
    read is one that [is_image_magic_ok] accepts as a genuine image. *)
Theorem sized_image_is_genuine data wh :
  read_jpeg_size data = Some wh ∨ read_webp_size data = Some wh ->
  magic_ok data = true.
Proof.
  intros [Hj|Hw].
  - unfold read_jpeg_size in Hj. case_decide as Hhead; [done|].
    apply magic_ok_of_jpeg_head.
    + destruct (decide (len data < 4)); [|lia]. exfalso. apply Hhead. by left.
    + destruct (decide (slice data 0 2 = jpeg_soi)); [done|]. exfalso. apply Hhead. by right.
  - unfold read_webp_size in Hw. case_decide as Hlen; [done|].
    case_decide as Htags; [done|].
    apply magic_ok_of_webp_head; [lia| |].
    + destruct (decide (slice data 0 4 = tag_RIFF)); [done|]. exfalso. apply Htags. by left.
    + destruct (decide (slice data 8 12 = tag_WEBP)); [done|]. exfalso. apply Htags. by right.
Qed.

Lemma sized_image_is_genuine_witness : magic_ok vp8x_sample = true.
Proof.
  apply (sized_image_is_genuine vp8x_sample (16, 32)). right. vm_compute. reflexivity.
Defined.

(** The PNG reader is laxer than the magic test: it looks at bytes 1 to 3
    only. *)
Example png_size_without_magic :
  let data := ([x00] ++ tag_PNG ++ [x0d; x0a; x1a; x0a; x00; x00; x00; x0d]
               ++ ["I"; "H"; "D"; "R"] ++ [x00; x00; x01; x00; x00; x00; x00; x20])%byte in
  read_png_size data = Some (256, 32) ∧ magic_ok data = false.
Proof. split; vm_compute; reflexivity. Qed.

End SniffFacts.

(** ** Names: slugs and number series *)
Module NameFacts.
Import Py Text Infer.

Lemma slug_keep_underscore : slug_keep "_"%char = true.
Proof. reflexivity. Qed.

Lemma safe_slug_fixed s :
  Forall (fun c => slug_keep c = true) (String.list_ascii_of_string s) -> safe_slug s = s.
Proof.
  induction s as [|c s IH]; [done|]. simpl. intros H.
  apply Forall_cons_1 in H as [Hc Hs]. by rewrite Hc, IH.
Qed.

Lemma safe_slug_kept s :
  Forall (fun c => slug_keep c = true) (String.list_ascii_of_string (safe_slug s)).
Proof.
  induction s as [|c s IH]; simpl; [constructor|].
  constructor; [|exact IH]. destruct (slug_keep c) eqn:E; [exact E | reflexivity].
Qed.

(** X5: [safe_slug] keeps the length of its argument, its result consists
    of letters, digits, dot, underscore and hyphen only (so it holds no
    path separator), and slugging a slug changes nothing. *)
Theorem safe_slug_sanitizes s :
  String.length (safe_slug s) = String.length s
  ∧ Forall (fun c => slug_keep c = true) (String.list_ascii_of_string (safe_slug s))
  ∧ contains "/" (safe_slug s) = false
  ∧ safe_slug (safe_slug s) = safe_slug s.
Proof.
  split; [|split; [|split]].
  - induction s as [|c s IH]; [done|]. simpl. by rewrite IH.
  - apply safe_slug_kept.
  - pose proof (safe_slug_kept s) as H. induction (safe_slug s) as [|c t IH]; [done|].
    simpl in H. apply Forall_cons_1 in H as [Hc Ht].
    cbn [contains String.prefix]. rewrite (IH Ht).
    destruct (ascii_dec "/" c) as [<-|]; [discriminate Hc|].
    by destruct t.
  - apply safe_slug_fixed, safe_slug_kept.
Qed.

Lemma span_digits_digits s ds tl :
  span_digits s = (ds, tl) ->
  Forall (fun c => is_digit c = true) (String.list_ascii_of_string ds).
Proof.
  revert ds tl. induction s as [|c s IH]; intros ds tl; simpl.
  - intros [= <- <-]. constructor.
  - destruct (is_digit c) eqn:E.
    + destruct (span_digits s) as [ds' tl'] eqn:Es. intros [= <- <-].
      simpl. constructor; [exact E | by eapply IH].
    + intros [= <- <-]. constructor.
Qed.

Lemma digit_val_range c : is_digit c = true -> 0 <= digit_val c <= 9.
Proof.
  unfold is_digit, in_range, digit_val, code. simpl.
  rewrite andb_true_iff, !N.leb_le. lia.
Qed.

Lemma int_of_digits_from_range acc ds :
  Forall (fun c => is_digit c = true) (String.list_ascii_of_string ds) ->
  acc * 10 ^ Z.of_nat (String.length ds) <= int_of_digits_from acc ds
  < (acc + 1) * 10 ^ Z.of_nat (String.length ds).
Proof.
  revert acc. induction ds as [|c ds IH]; intros acc H.
  - simpl. lia.
  - cbn [int_of_digits_from String.length String.list_ascii_of_string] in *.
    apply Forall_cons_1 in H as [Hc Hds]. pose proof (digit_val_range c Hc).
    specialize (IH (10 * acc + digit_val c) Hds).
    rewrite Nat2Z.inj_succ, Z.pow_succ_r by lia.
    assert (0 < 10 ^ Z.of_nat (String.length ds)) by (apply Z.pow_pos_nonneg; lia).
    nia.
Qed.

Lemma match_digits_end_digits s ds :
  match_digits_end s = Some ds ->
  (1 <= String.length ds <= 4)%nat
  ∧ Forall (fun c => is_digit c = true) (String.list_ascii_of_string ds).
Proof.
  unfold match_digits_end. destruct (span_digits s) as [ds' tl] eqn:E.
  destruct (bool_decide (1 <= String.length ds' <= 4)%nat) eqn:Hl; [|done].
  simpl. case_match; [|done]. intros [= <-].
  apply bool_decide_eq_true in Hl. split; [done | by eapply span_digits_digits].
Qed.

Lemma series_match_digits nm b ds :
  series_match nm = Some (b, ds) ->
  (1 <= String.length ds <= 4)%nat
  ∧ Forall (fun c => is_digit c = true) (String.list_ascii_of_string ds).
Proof.
  revert b. induction nm as [|c nm IH]; intros b; simpl.
  - done.
  - destruct (if is_sep c then match_digits_end nm else match_digits_end (String c nm))
      as [ds'|] eqn:E.
    + intros [= _ <-]. destruct (is_sep c); by eapply match_digits_end_digits.
    + case_bool_decide; [done|].
      destruct (series_match nm) as [[b' ds']|]; [|done]. simpl.
      intros [= _ <-]. by eapply IH.
Qed.

Lemma rstrip_by_keeps_last drop s :
  rstrip_by drop (rstrip_by drop s) = rstrip_by drop s.
Proof.
  induction s as [|c s IH]; [done|]. simpl.
  destruct (rstrip_by drop s) as [|d t] eqn:E.
  - destruct (drop c) eqn:Ec; [done|]. simpl. by rewrite Ec.
  - simpl in *. rewrite IH. done.
Qed.

(** X6: when [split_name_series] accepts a name, the base is not empty,
    carries no trailing separator, and the suffix value lies between 0 and
    9999. *)
Theorem split_name_series_range nm base idx :
  split_name_series nm = Some (base, idx) ->
  base ≠ "" ∧ rstrip_by base_trim base = base ∧ 0 <= idx <= 9999.
Proof.
  unfold split_name_series.
  destruct (series_match nm) as [[b ds]|] eqn:E; [|done]. simpl.
  case_bool_decide as Hb; [done|]. intros [= <- <-].
  split; [done|]. split; [apply rstrip_by_keeps_last|].
  destruct (series_match_digits _ _ _ E) as [Hlen Hdig].
  pose proof (int_of_digits_from_range 0 ds Hdig) as Hr.
  unfold int_of_digits.
  assert (10 ^ Z.of_nat (String.length ds) <= 10 ^ 4) by (apply Z.pow_le_mono_r; lia).
  change (10 ^ 4) with 10000 in *. lia.
Qed.

Lemma split_name_series_range_witness :
  "glow" ≠ "" ∧ rstrip_by base_trim "glow" = "glow" ∧ 0 <= 1 <= 9999.
Proof. apply (split_name_series_range "glow_01"). reflexivity. Defined.

End NameFacts.

(** ** Sequence inference: sorting and the inferred clips *)
Module SeriesFacts.
Import Py Text Infer.

Lemma insert_by_key_perm x l : insert_by_key x l ≡ₚ x :: l.
Proof.
  induction l as [|y l IH]; simpl; [done|].
  destruct (x.1 <? y.1); [done|]. rewrite IH. apply Permutation_swap.
Qed.

Lemma insert_by_key_sorted x l :
  StronglySorted key_le l -> StronglySorted key_le (insert_by_key x l).
Proof.
  induction l as [|y l IH]; simpl; intros Hs.
  - repeat constructor.
  - apply StronglySorted_inv in Hs as [Hl Hy].
    destruct (x.1 <? y.1) eqn:E.
    + apply Z.ltb_lt in E. constructor; [by constructor|].
      constructor; [unfold key_le; lia|].
      eapply Forall_impl; [exact Hy|]. unfold key_le. intros; simpl in *. lia.
    + apply Z.ltb_ge in E. constructor; [by apply IH|].
      rewrite insert_by_key_perm. constructor; [exact E | exact Hy].
Qed.

Lemma filter_none {A} (P : A -> Prop) `{∀ x, Decision (P x)} (l : list A) :
  Forall (fun x => ¬ P x) l -> filter P l = [].
Proof.
  induction 1 as [|x l Hx Hl IH]; [done|].
  rewrite filter_cons, decide_False by done. exact IH.
Qed.

Lemma insert_by_key_filter k x l :
  StronglySorted key_le l ->
  filter (fun y => y.1 = k) (insert_by_key x l)
  = filter (fun y => y.1 = k) l ++ (if decide (x.1 = k) then [x] else []).
Proof.
  induction l as [|y l IH]; simpl; intros Hs.
  - rewrite filter_cons, filter_nil. by case_decide.
  - apply StronglySorted_inv in Hs as [Hl Hy].
    destruct (x.1 <? y.1) eqn:E.
    + apply Z.ltb_lt in E. rewrite (filter_cons _ x).
      destruct (decide (x.1 = k)) as [Hk|Hk]; [|by rewrite app_nil_r].
      assert (Hnone : filter (fun z : Z * string => z.1 = k) (y :: l) = []).
      { apply filter_none. constructor.
        - lia.
        - eapply Forall_impl; [exact Hy|]. unfold key_le. intros z Hz. simpl in *. lia. }
      by rewrite Hnone.
    + rewrite !(filter_cons _ y), (IH Hl). by destruct (decide (y.1 = k)).
Qed.

Lemma sort_from_spec acc l :
  StronglySorted key_le acc ->
  let r := foldl (fun acc x => insert_by_key x acc) acc l in
  r ≡ₚ acc ++ l ∧ StronglySorted key_le r
  ∧ ∀ k, filter (fun y => y.1 = k) r
         = filter (fun y => y.1 = k) acc ++ filter (fun y => y.1 = k) l.
Proof.
  revert acc. induction l as [|x l IH]; intros acc Hs; simpl.
  - split; [by rewrite app_nil_r|]. split; [done|]. intros k. by rewrite filter_nil, app_nil_r.
  - destruct (IH (insert_by_key x acc) (insert_by_key_sorted x acc Hs)) as (Hp & Hso & Hf).
    split; [|split; [exact Hso|]].
    + rewrite Hp, insert_by_key_perm. simpl. apply Permutation_middle.
    + intros k. rewrite Hf, insert_by_key_filter by done.
      rewrite (filter_cons _ x), <- app_assoc. by case_decide.
Qed.

(** X7: [lst.sort(key=...)] as modelled rearranges the group (nothing is
    lost or added), leaves the suffixes in ascending order, and keeps the
    members that share a suffix in the order they had. *)
Theorem sort_by_key_stable l :
  sort_by_key l ≡ₚ l
  ∧ StronglySorted key_le (sort_by_key l)
  ∧ ∀ k, filter (fun y => y.1 = k) (sort_by_key l) = filter (fun y => y.1 = k) l.
Proof.
  destruct (sort_from_spec [] l) as (Hp & Hs & Hf); [constructor|].
  split; [exact Hp|]. split; [exact Hs|]. intros k. by rewrite Hf, filter_nil.
Qed.

Lemma sort_by_key_perm l : sort_by_key l ≡ₚ l.
Proof. destruct (sort_from_spec [] l) as (Hp & _); [constructor | exact Hp]. Qed.

Lemma build_series_snoc names nm :
  build_series (names ++ [nm]) = series_step (build_series names) nm.
Proof. unfold build_series. by rewrite foldl_app. Qed.

Lemma series_add_keys_old series base item :
  base ∈ series.*1 -> (series_add series base item).*1 = series.*1.
Proof.
  induction series as [|[b lst] rest IH]; intros Hin.
  - by apply elem_of_nil in Hin.
  - cbn [series_add]. destruct (decide (b = base)) as [->|Hne]; [done|].
    rewrite !fmap_cons. f_equal. apply IH.
    rewrite fmap_cons in Hin. apply elem_of_cons in Hin as [Heq|Hin]; [|done].
    simpl in Heq. congruence.
Qed.

Lemma series_add_keys_new series base item :
  base ∉ series.*1 -> (series_add series base item).*1 = series.*1 ++ [base].
Proof.
  induction series as [|[b lst] rest IH]; intros Hnin; [done|].
  cbn [series_add]. rewrite fmap_cons in Hnin. apply not_elem_of_cons in Hnin as [Hne Hnin].
  simpl in Hne. rewrite decide_False by congruence.
  rewrite !fmap_cons. simpl. f_equal. by apply IH.
Qed.

Lemma series_add_elem series base item b lst :
  (b, lst) ∈ series_add series base item ->
  (b, lst) ∈ series
  ∨ (b = base ∧ ∃ old, lst = old ++ [item] ∧ (old = [] ∨ (base, old) ∈ series)).
Proof.
  induction series as [|[b' lst'] rest IH]; simpl.
  - intros Hin. apply list_elem_of_singleton in Hin as [= -> ->].
    right. split; [done|]. exists []. auto.
  - destruct (decide (b' = base)) as [->|Hne].
    + intros Hin. apply elem_of_cons in Hin as [[= -> ->]|Hin].
      * right. split; [done|]. exists lst'. split; [done|]. right. by left.
      * left. by right.
    + intros Hin. apply elem_of_cons in Hin as [[= -> ->]|Hin].
      * left. by left.
      * destruct (IH Hin) as [H1|(-> & old & -> & [->|Hold])].
        -- left. by right.
        -- right. split; [done|]. exists []. auto.
        -- right. split; [done|]. exists old. split; [done|]. right. by right.
Qed.

Lemma build_series_ok names : series_ok names (build_series names).
Proof.
  induction names as [|nm names IH] using rev_ind.
  - split; [constructor|]. intros b lst Hin. by apply elem_of_nil in Hin.
  - rewrite build_series_snoc. destruct IH as [Hnd Hel]. unfold series_step.
    destruct (split_name_series nm) as [[base idx]|] eqn:Es.
    + split.
      * destruct (decide (base ∈ (build_series names).*1)) as [Hold|Hnew].
        -- by rewrite series_add_keys_old.
        -- rewrite series_add_keys_new by done.
           apply NoDup_app. split; [done|]. split; [|apply NoDup_singleton].
           intros x Hx Hx'. apply list_elem_of_singleton in Hx' as ->. done.
      * intros b lst Hin i nm' Hi.
        apply series_add_elem in Hin as [Hin|(-> & old & -> & Hold)].
        -- destruct (Hel b lst Hin i nm' Hi) as [H1 H2]. split; [|done].
           apply elem_of_app. by left.
        -- apply elem_of_app in Hi as [Hi|Hi].
           ++ destruct Hold as [->|Hold]; [by apply elem_of_nil in Hi|].
              destruct (Hel base old Hold i nm' Hi) as [H1 H2]. split; [|done].
              apply elem_of_app. by left.
           ++ apply list_elem_of_singleton in Hi as [= -> ->]. split; [|done].
              apply elem_of_app. right. by apply list_elem_of_singleton.
    + split; [done|]. intros b lst Hin i nm' Hi.
      destruct (Hel b lst Hin i nm' Hi) as [H1 H2]. split; [|done].
      apply elem_of_app. by left.
Qed.

Lemma names_in_make_clip u base lst : names_in (make_clip u base lst) = lst.*2.
Proof.
  unfold names_in, make_clip. simpl.
  assert (H : ∀ (g : nat -> Z * string -> auto_frame),
             (∀ i t, frame_name (g i t) = t.2) -> frame_name <$> imap g lst = lst.*2).
  { induction lst as [|t lst IH]; intros g Hg; [done|].
    simpl. rewrite Hg. f_equal. apply IH. intros i t'. apply Hg. }
  apply H. done.
Qed.

Lemma infer_group_elem u names c :
  c ∈ infer_group u names ->
  ∃ base lst, (base, lst) ∈ build_series names
              ∧ keeps (sort_by_key lst) = true
              ∧ c = make_clip u base (sort_by_key lst).
Proof.
  unfold infer_group. intros Hin.
  apply list_elem_of_bind in Hin as ([base lst] & Hc & Hin).
  exists base, lst. split; [done|].
  destruct (keeps (sort_by_key lst)); [|by apply elem_of_nil in Hc].
  apply list_elem_of_singleton in Hc. done.
Qed.

Lemma infer_group_names_sublist u names :
  sublist (ac_name <$> infer_group u names) (build_series names).*1.
Proof.
  unfold infer_group. induction (build_series names) as [|[base lst] rest IH]; [done|].
  rewrite bind_cons. destruct (keeps (sort_by_key lst)); simpl.
  - by constructor.
  - by constructor.
Qed.

(** X8: every clip that [infer_group] emits has at least three frames;
    each frame is a name of the group whose base is the name of the clip;
    and no two clips of a group bear the same name. *)
Theorem inferred_clips_sound u names :
  (∀ c, c ∈ infer_group u names ->
     (3 <= length (names_in c))%nat
     ∧ ∀ nm, nm ∈ names_in c ->
         nm ∈ names ∧ ∃ idx, split_name_series nm = Some (ac_name c, idx))
  ∧ NoDup (ac_name <$> infer_group u names).
Proof.
  destruct (build_series_ok names) as [Hnd Hel]. split.
  - intros c Hc. apply infer_group_elem in Hc as (base & lst & Hin & Hkeep & ->).
    rewrite names_in_make_clip. split.
    + apply InferFacts.keeps_iff in Hkeep as [Hlen _]. by rewrite length_fmap.
    + intros nm Hnm. apply list_elem_of_fmap in Hnm as ([i nm'] & -> & Hi).
      rewrite sort_by_key_perm in Hi.
      destruct (Hel base lst Hin i nm' Hi) as [H1 H2]. split; [done|]. by exists i.
  - eapply sublist_NoDup; [exact Hnd | apply infer_group_names_sublist].
Qed.

End SeriesFacts.

(** ** Document traversal: what the extractors collect *)
Module WalkFacts.
Import Py Clips Atlas.

Lemma walk_list {A} (visitor : json -> list A) l :
  walk visitor (JList l) = visitor (JList l) ++ (l ≫= walk visitor).
Proof.
  reflexivity.
Qed.

Lemma walk_dict {A} (visitor : json -> list A) d :
  walk visitor (JDict d) = visitor (JDict d) ++ (d.*2 ≫= walk visitor).
Proof.
  induction d as [|[k v] d IH]; [reflexivity|].
  rewrite fmap_cons, bind_cons. simpl in *. apply app_inv_head in IH. by rewrite <- IH.
Qed.

(** Whatever [walk] returns was appended by the visitor at some node. *)
Lemma walk_elem {A} (visitor : json -> list A) node x :
  x ∈ walk visitor node -> ∃ n, x ∈ visitor n.
Proof.
  revert x. induction node as [| | | | |l IH|d IH] using json_forall_ind; intros x;
    try (intros H; by apply elem_of_nil in H).
  - rewrite walk_list. intros H. apply elem_of_app in H as [H|H]; [eauto|].
    apply list_elem_of_bind in H as (v & Hx & Hv).
    rewrite Forall_forall in IH. eapply IH; [exact Hv | exact Hx].
  - rewrite walk_dict. intros H. apply elem_of_app in H as [H|H]; [eauto|].
    apply list_elem_of_bind in H as (v & Hx & Hv).
    apply list_elem_of_fmap in Hv as ([k v'] & -> & Hkv).
    rewrite Forall_forall in IH. apply (IH (k, v')); [exact Hkv | exact Hx].
Qed.

(** X9: every sprite frame that [extract_sprite_frames] collects, at any
    depth of the document, has a name, a rect and an original size that
    count as true (none is missing, null, zero or empty). *)
Theorem collected_frames_complete json_data fr :
  fr ∈ extract_sprite_frames json_data ->
  truthy (sf_name fr) = true ∧ truthy (rect fr) = true ∧ truthy (originalSize fr) = true.
Proof.
  intros H. apply walk_elem in H as (n & Hn).
  unfold sprite_frame_visit in Hn. destruct n; try by apply elem_of_nil in Hn.
  destruct (truthy (get d "name")) eqn:E1; [|by apply elem_of_nil in Hn].
  destruct (truthy (get d "rect")) eqn:E2; [|by apply elem_of_nil in Hn].
  destruct (truthy (get d "originalSize")) eqn:E3; [|by apply elem_of_nil in Hn].
  simpl in Hn. apply list_elem_of_singleton in Hn as ->. done.
Qed.

Lemma collected_frames_complete_witness :
  truthy (JStr "g") = true
  ∧ truthy (JList [JInt 0; JInt 0; JInt 4; JInt 4]) = true
  ∧ truthy (JList [JInt 4; JInt 4]) = true.
Proof.
  apply (collected_frames_complete Main.sound_document
           {| sf_name := JStr "g"; rotated := false;
              rect := JList [JInt 0; JInt 0; JInt 4; JInt 4];
              offset := JList [JInt 0; JInt 0];
              originalSize := JList [JInt 4; JInt 4] |}).
  vm_compute. apply list_elem_of_singleton. reflexivity.
Defined.

End WalkFacts.

(** ** Animation clips: what every track holds *)
Module TrackFacts.
Import Py Clips.

Lemma bind_Ok {A B} (r : result A) (k : A -> result B) y :
  r ≫= k = Ok y -> ∃ x, r = Ok x ∧ k x = Ok y.
Proof. destruct r as [x|e]; [eauto | done]. Qed.

Lemma collect_frames_list uuids l :
  collect_frames uuids (JList l)
  = (direct ← direct_frames uuids l; nested ← nested_frames uuids l; Ok (direct ++ nested)).
Proof. reflexivity. Qed.

Lemma find_clips_list uuids l current clips :
  find_clips uuids (JList l) current clips
  = ('(current, clips) ←
       (if is_clip_header l then
          c ← open_clip l; Ok (Some (length clips), clips ++ [c])
        else Ok (current, clips));
     clips ←
       (if existsb (fun x => eq_str x "spriteFrame") l then
          frames ← collect_frames uuids (JList l);
          match current, frames with
          | Some i, _ :: _ =>
              Ok (append_track clips i {| type := "spriteFrame"; frames := frames |})
          | _, _ => Ok clips
          end
        else Ok clips);
     children_clips uuids current l clips).
Proof. reflexivity. Qed.

Lemma resolve_uuid_elem uuids idx u : resolve_uuid uuids idx = Some u -> u ∈ uuids.
Proof.
  unfold resolve_uuid. destruct (idx ≫= int_val) as [i|]; [|done]. simpl.
  case_decide; [|done]. apply list_elem_of_lookup_2.
Qed.

Lemma keyframe_ok uuids entry f : keyframe uuids entry = Ok f -> frame_ok uuids f.
Proof.
  destruct entry as [| | | | |[|[| | | | | |d] tail]|]; try done. simpl.
  intros H. apply bind_Ok in H as (t & _ & [= <-]).
  intros u. simpl. apply resolve_uuid_elem.
Qed.

Lemma direct_frames_ok uuids l fs :
  direct_frames uuids l = Ok fs -> Forall (frame_ok uuids) fs.
Proof.
  revert fs. induction l as [|entry l IH]; intros fs; simpl.
  - intros [= <-]. constructor.
  - destruct (is_keyframe_record entry); [|apply IH].
    intros H. apply bind_Ok in H as (f & Hf & H).
    apply bind_Ok in H as (fs' & Hfs & [= <-]).
    constructor; [by eapply keyframe_ok | by apply IH].
Qed.

Lemma nested_frames_ok uuids l fs :
  Forall (fun n => ∀ fs, collect_frames uuids n = Ok fs -> Forall (frame_ok uuids) fs) l ->
  nested_frames uuids l = Ok fs -> Forall (frame_ok uuids) fs.
Proof.
  intros Hl. revert fs. induction Hl as [|entry l He Hl IH]; intros fs; simpl.
  - intros [= <-]. constructor.
  - intros H. apply bind_Ok in H as (fs1 & H1 & H).
    apply bind_Ok in H as (fs2 & H2 & [= <-]).
    apply Forall_app. split; [by apply He | by apply IH].
Qed.

Lemma collect_frames_ok uuids n fs :
  collect_frames uuids n = Ok fs -> Forall (frame_ok uuids) fs.
Proof.
  revert fs. induction n as [| | | | |l IH|d IH] using json_forall_ind; intros fs;
    try (intros [= <-]; constructor).
  rewrite collect_frames_list. intros H.
  apply bind_Ok in H as (direct & Hd & H). apply bind_Ok in H as (nested & Hn & [= <-]).
  apply Forall_app. split; [by eapply direct_frames_ok | by eapply nested_frames_ok].
Qed.

Lemma open_clip_tracks l c : open_clip l = Ok c -> tracks c = [].
Proof.
  destruct l as [|n0 [|[| | | |nm| |] [|n2 rest]]]; try done. simpl.
  intros H. apply bind_Ok in H as (d & _ & H). apply bind_Ok in H as (sm & _ & [= <-]). done.
Qed.

Lemma append_track_ok uuids clips i t :
  clips_ok uuids clips -> track_ok uuids t -> clips_ok uuids (append_track clips i t).
Proof.
  intros Hc Ht. unfold append_track. apply Forall_alter; [exact Hc|].
  intros c _ Hts. simpl. apply Forall_app. split; [exact Hts | by constructor].
Qed.

Lemma children_clips_ok uuids current cs :
  Forall (fun child => ∀ cur clips clips',
            clips_ok uuids clips -> find_clips uuids child cur clips = Ok clips' ->
            clips_ok uuids clips') cs ->
  ∀ clips clips', clips_ok uuids clips ->
    children_clips uuids current cs clips = Ok clips' -> clips_ok uuids clips'.
Proof.
  induction 1 as [|child cs Hc Hcs IH]; intros clips clips' Hok; simpl.
  - by intros [= <-].
  - intros H. apply bind_Ok in H as (clips1 & H1 & H). eapply IH; [|exact H]. by eapply Hc.
Qed.

Lemma find_clips_ok uuids node current clips clips' :
  clips_ok uuids clips -> find_clips uuids node current clips = Ok clips' ->
  clips_ok uuids clips'.
Proof.
  revert current clips clips'.
  induction node as [| | | | |l IH|d IH] using json_forall_ind; intros current clips clips' Hok;
    try (by intros [= <-]).
  rewrite find_clips_list. intros H.
  apply bind_Ok in H as ([cur1 clips1] & H1 & H).
  apply bind_Ok in H as (clips2 & H2 & H).
  assert (Hok1 : clips_ok uuids clips1).
  { destruct (is_clip_header l).
    - apply bind_Ok in H1 as (c & Hc & [= <- <-]).
      apply Forall_app. split; [exact Hok|]. constructor; [|constructor].
      rewrite (open_clip_tracks _ _ Hc). constructor.
    - by injection H1 as <- <-. }
  assert (Hok2 : clips_ok uuids clips2).
  { destruct (existsb (fun x => eq_str x "spriteFrame") l); [|by injection H2 as <-].
    apply bind_Ok in H2 as (frames & Hf & H2).
    destruct cur1 as [i|]; [|by injection H2 as <-].
    destruct frames as [|f frames]; [by injection H2 as <-|].
    injection H2 as <-. apply append_track_ok; [exact Hok1|].
    split; [done|]. split; [done|]. simpl. by eapply collect_frames_ok. }
  eapply children_clips_ok; [exact IH | exact Hok2 | exact H].
Qed.

(** X10: in every clip that [parse_animation_clip] returns, every track
    is a sprite-frame track with at least one keyframe, and every
    identifier a keyframe carries is an entry of the identifier table of
    the document. *)
Theorem parsed_tracks_sound data clips :
  parse_animation_clip data = Ok clips ->
  ∀ c t, c ∈ clips -> t ∈ tracks c ->
    type t = "spriteFrame" ∧ frames t ≠ []
    ∧ ∀ f u, f ∈ frames t -> uuid f = Some u -> u ∈ uuids_of data.
Proof.
  intros H c t Hc Ht.
  assert (Hok : clips_ok (uuids_of data) clips)
    by (eapply find_clips_ok; [|exact H]; constructor).
  unfold clips_ok in Hok. rewrite Forall_forall in Hok. specialize (Hok c Hc).
  rewrite Forall_forall in Hok. destruct (Hok t Ht) as (H1 & H2 & H3).
  split; [done|]. split; [done|]. intros f u Hf Hu.
  rewrite Forall_forall in H3. by apply (H3 f Hf).
Qed.

Lemma parsed_tracks_sound_witness :
  type {| type := "spriteFrame";
          frames := [ {| time := Some (float_lit 0 0); uuid := Some "tex_a";
                         uuid_index := Some (JInt 0) |} ] |} = "spriteFrame"
  ∧ frames {| type := "spriteFrame";
              frames := [ {| time := Some (float_lit 0 0); uuid := Some "tex_a";
                             uuid_index := Some (JInt 0) |} ] |} ≠ []
  ∧ ∀ f u, f ∈ frames {| type := "spriteFrame";
                         frames := [ {| time := Some (float_lit 0 0); uuid := Some "tex_a";
                                        uuid_index := Some (JInt 0) |} ] |} ->
           uuid f = Some u -> u ∈ uuids_of run_document.
Proof.
  refine (parsed_tracks_sound run_document
           [ {| name := "run"; duration := float_lit 3 (-1); sample := Some (float_lit 24 0);
                tracks := [ {| type := "spriteFrame";
                               frames := [ {| time := Some (float_lit 0 0);
                                              uuid := Some "tex_a";
                                              uuid_index := Some (JInt 0) |} ] |} ] |} ] _
           {| name := "run"; duration := float_lit 3 (-1); sample := Some (float_lit 24 0);
              tracks := [ {| type := "spriteFrame";
                             frames := [ {| time := Some (float_lit 0 0);
                                            uuid := Some "tex_a";
                                            uuid_index := Some (JInt 0) |} ] |} ] |} _ _ _).
  - vm_compute. reflexivity.
  - left.
  - left.
Defined.

End TrackFacts.

(** ** Audio: what the returned map records *)
Module AudioFacts.
Import Py Text Output.

Lemma dict_get_None {V} (d : list (string * V)) k : dict_get d k = None -> k ∉ d.*1.
Proof.
  induction d as [|[k' v] d IH]; simpl; [intros _; apply not_elem_of_nil|].
  destruct (decide (k' = k)) as [->|Hne]; [done|].
  intros H. apply not_elem_of_cons. split; [congruence | by apply IH].
Qed.

(** What the map says of a pair once the tree is [fs]: the source is
    there, the target was not there at the start, and the target holds
    what the source holds. *)
Lemma audio_loop_faithful audio_out (fs0 : tree) paths :
  ∀ (fs fs' : tree) m m',
    (∀ p c, fs0 !! p = Some c -> fs !! p = Some c) ->
    NoDup m.*1 ->
    (∀ p t, (p, t) ∈ m -> fs0 !! t = None ∧ is_Some (fs !! p) ∧ fs !! t = fs !! p) ->
    audio_loop audio_out paths fs m = (fs', Ok m') ->
    NoDup m'.*1
    ∧ ∀ p t, (p, t) ∈ m' -> fs0 !! t = None ∧ is_Some (fs' !! p) ∧ fs' !! t = fs' !! p.
Proof.
  induction paths as [|path rest IH]; intros fs fs' m m' Hsub Hnd Hm; simpl.
  - intros [= <- <-]. done.
  - pose proof (OutputFacts.audio_target_fresh fs audio_out path) as Hfresh.
    set (target := audio_target fs audio_out path) in *.
    apply bool_decide_eq_false in Hfresh.
    assert (Hnone : fs !! target = None).
    { destruct (fs !! target) eqn:E; [|done]. exfalso. apply Hfresh. by eexists. }
    unfold copy2. destruct (fs !! path) as [c|] eqn:Hpath; [|done].
    assert (Hne : target ≠ path) by congruence.
    apply IH.
    + intros p c' Hp. rewrite lookup_insert_ne; [by apply Hsub|].
      intros <-. apply Hsub in Hp. congruence.
    + case_bool_decide as Hin.
      * rewrite <- list_fmap_compose.
        erewrite list_fmap_ext; [exact Hnd|]. intros i [k v] _. simpl. by case_decide.
      * rewrite fmap_app. simpl. apply NoDup_app. split; [exact Hnd|].
        split; [|apply NoDup_singleton].
        intros k Hk ->%list_elem_of_singleton. revert Hk. apply dict_get_None.
        destruct (dict_get m path) eqn:E; [|done]. exfalso. apply Hin. by eexists.
    + intros p t Hpt.
      assert (Hcase : (p, t) ∈ m ∨ (p, t) = (path, target)).
      { case_bool_decide.
        - apply list_elem_of_fmap in Hpt as ([k v] & Heq & Hkv).
          case_decide; [subst k; right; congruence | left; by rewrite Heq].
        - apply elem_of_app in Hpt as [? | ->%list_elem_of_singleton]; [by left | by right]. }
      destruct Hcase as [Hold|Heq]; [|injection Heq as -> ->].
      * destruct (Hm p t Hold) as (H0 & [c' Hp] & Ht).
        assert (target ≠ p) by congruence.
        assert (target ≠ t) by (rewrite Hp in Ht; congruence).
        rewrite !lookup_insert_ne by done. split; [done|]. split; [by eexists | done].
      * rewrite lookup_insert_eq, lookup_insert_ne by done. rewrite Hpath.
        split; [|split; [by eexists | done]].
        destruct (fs0 !! target) as [c'|] eqn:E; [|done]. apply Hsub in E. congruence.
Qed.

(** X11: when [extract_audio] returns its map, no source path is listed
    twice in it; the target of every pair did not exist before the call
    and holds, after it, what the source holds; and every file that
    existed before the call is unchanged. *)
Theorem audio_map_faithful walk out_root (fs fs' : tree) m :
  extract_audio walk out_root fs = (fs', Ok m) ->
  NoDup m.*1
  ∧ (∀ p t, (p, t) ∈ m -> fs !! t = None ∧ is_Some (fs' !! p) ∧ fs' !! t = fs' !! p)
  ∧ ∀ p c, fs !! p = Some c -> fs' !! p = Some c.
Proof.
  intros H. split_and!.
  - eapply (audio_loop_faithful _ fs); [| |by intros ? ? ?%elem_of_nil|exact H];
      [done | constructor].
  - eapply (audio_loop_faithful _ fs); [| |by intros ? ? ?%elem_of_nil|exact H];
      [done | constructor].
  - by eapply OutputFacts.audio_loop_preserves.
Qed.

Lemma audio_map_faithful_witness :
  let fs' := (extract_audio [("n", ["a.mp3"])] "out" taken_tree).1 in
  NoDup [("n/a.mp3", "out/audio/a_1.mp3")].*1
  ∧ (∀ p t, (p, t) ∈ [("n/a.mp3", "out/audio/a_1.mp3")] ->
       taken_tree !! t = None ∧ is_Some (fs' !! p) ∧ fs' !! t = fs' !! p)
  ∧ ∀ p c, taken_tree !! p = Some c -> fs' !! p = Some c.
Proof.
  intros fs'. apply (audio_map_faithful [("n", ["a.mp3"])] "out").
  assert (H2 : (extract_audio [("n", ["a.mp3"])] "out" taken_tree).2
               = Ok [("n/a.mp3", "out/audio/a_1.mp3")]) by (vm_compute; reflexivity).
  subst fs'. destruct (extract_audio _ _ _) as [a b]. simpl in *. by rewrite H2.
Defined.

End AudioFacts.

(** ** Atlas groups: how frames are gathered *)
Module GroupFacts.
Import Py Atlas Output Main.

Lemma existsb_elem {A} (f : A -> bool) l :
  existsb f l = true <-> ∃ x, x ∈ l ∧ f x = true.
Proof.
  induction l as [|a l IH]; simpl.
  - split; [done | by intros (x & ?%elem_of_nil & _)].
  - rewrite orb_true_iff, IH. split.
    + intros [H|(x & Hx & Hf)]; [exists a; split; [left | done] | exists x; split; [by right | done]].
    + intros (x & [->|Hx]%elem_of_cons & Hf); [by left | right; by exists x].
Qed.

Lemma existsb_none {A} (f : A -> bool) l x :
  existsb f l = false -> x ∈ l -> f x = false.
Proof.
  intros H Hx. destruct (f x) eqn:E; [|done].
  assert (existsb f l = true) by (apply existsb_elem; by exists x). congruence.
Qed.

Lemma key_eq_refl v : hashable v = true -> key_eq v v = true.
Proof.
  destruct v as [| | |f| | |]; simpl; try done.
  - intros _. apply Z.eqb_refl.
  - intros _. apply Z.eqb_refl.
  - intros _. destruct f as [[]|[]| |[] m e]; try done;
      unfold SFeqb; simpl; rewrite Z.compare_refl, ?Pos.compare_refl; try done;
      by rewrite Pos.compare_refl.
  - intros _. by apply bool_decide_eq_true.
Qed.

Lemma add_frame_spec frames fr frames' :
  keys_distinct frames -> add_frame frames fr = Ok frames' ->
  frames `prefix_of` frames' ∧ keys_distinct frames'
  ∧ (∃ kv, kv ∈ frames' ∧ key_eq kv.1 (sf_name fr) = true)
  ∧ ∀ kv, kv ∈ frames' -> kv ∈ frames ∨ kv = (sf_name fr, fr).
Proof.
  unfold add_frame. intros Hd. destruct (hashable (sf_name fr)) eqn:Hh; [|done]. simpl.
  destruct (existsb _ frames) eqn:Hex.
  - intros [= <-]. apply existsb_elem in Hex as (kv & Hkv & Heq).
    split_and!; [reflexivity | done | exists kv; split; [exact Hkv | exact Heq] | intros ? ?; by left].
  - intros [= <-]. split_and!.
    + by apply prefix_app_r.
    + intros i j a b Hij Hi Hj.
      assert (Hjlen : (j < length (frames ++ [(sf_name fr, fr)]))%nat)
        by (apply lookup_lt_is_Some; by eexists).
      rewrite length_app in Hjlen. simpl in Hjlen.
      rewrite lookup_app_l in Hi by lia.
      destruct (decide (j < length frames)%nat) as [Hlt|Hge].
      * rewrite lookup_app_l in Hj by done. exact (Hd i j a b Hij Hi Hj).
      * assert (j = length frames) as -> by lia.
        rewrite list_lookup_middle in Hj by done. injection Hj as <-. simpl.
        apply (existsb_none _ _ a Hex). by eapply list_elem_of_lookup_2.
    + exists (sf_name fr, fr). split; [apply elem_of_app; right; by left|].
      simpl. by apply key_eq_refl.
    + intros kv [?| ->%list_elem_of_singleton]%elem_of_app; [by left | by right].
Qed.

Lemma add_frame_prefix frames fr frames' :
  add_frame frames fr = Ok frames' -> frames `prefix_of` frames'.
Proof.
  unfold add_frame. destruct (hashable (sf_name fr)); [|done]. simpl.
  destruct (existsb _ frames); intros [= <-]; [reflexivity | by apply prefix_app_r].
Qed.

Lemma add_frames_prefix frames frs frames' :
  add_frames frames frs = Ok frames' -> frames `prefix_of` frames'.
Proof.
  revert frames. induction frs as [|fr frs IH]; intros frames; simpl.
  - by intros [= <-].
  - destruct (add_frame frames fr) as [frames1|e] eqn:H1; [|done]. simpl.
    intros H. etrans; [by eapply add_frame_prefix | by apply IH].
Qed.

Lemma prefix_elem {A} (l k : list A) x : l `prefix_of` k -> x ∈ l -> x ∈ k.
Proof. intros [r ->] Hx. apply elem_of_app. by left. Qed.

(** X12: [add_frames] (the loop of lines 546-549) keeps what a group
    already holds, in place; it never stores two frames under equal
    names; every frame it was given finds its name in the result; and
    whatever is new in the result is one of the frames given, under its
    own name. *)
Theorem add_frames_keeps_first frames frs frames' :
  keys_distinct frames -> add_frames frames frs = Ok frames' ->
  frames `prefix_of` frames' ∧ keys_distinct frames'
  ∧ (∀ fr, fr ∈ frs -> ∃ kv, kv ∈ frames' ∧ key_eq kv.1 (sf_name fr) = true)
  ∧ ∀ kv, kv ∈ frames' -> kv ∈ frames ∨ (kv.2 ∈ frs ∧ kv.1 = sf_name kv.2).
Proof.
  revert frames. induction frs as [|fr frs IH]; intros frames Hd; simpl.
  - intros [= <-]. split_and!; [reflexivity | done | by intros ? ?%elem_of_nil | intros ? ?; by left].
  - destruct (add_frame frames fr) as [frames1|e] eqn:H1; [|done]. simpl. intros H.
    destruct (add_frame_spec _ _ _ Hd H1) as (Hp1 & Hd1 & (kv1 & Hkv1 & Heq1) & Hnew1).
    destruct (IH _ Hd1 H) as (Hp & Hd' & Hall & Hnew).
    split_and!.
    + by etrans.
    + done.
    + intros fr' [->|Hin]%elem_of_cons; [|by apply Hall].
      exists kv1. split; [by eapply prefix_elem | done].
    + intros kv Hkv. destruct (Hnew kv Hkv) as [Hold|[Hin Hk]].
      * destruct (Hnew1 kv Hold) as [?| ->]; [by left | right; split; [by left | done]].
      * right. split; [by right | done].
Qed.

Lemma add_frames_keeps_first_witness :
  let frs := extract_sprite_frames sound_document in
  let frames' := match add_frames [] (frs ++ frs) with Ok l => l | Raise _ => [] end in
  [] `prefix_of` frames' ∧ keys_distinct frames'
  ∧ (∀ fr, fr ∈ frs ++ frs -> ∃ kv, kv ∈ frames' ∧ key_eq kv.1 (sf_name fr) = true)
  ∧ ∀ kv, kv ∈ frames' -> kv ∈ [] ∨ (kv.2 ∈ frs ++ frs ∧ kv.1 = sf_name kv.2).
Proof.
  intros frs frames'. apply (add_frames_keeps_first [] (frs ++ frs)).
  - intros i j a b _ Hi. by rewrite lookup_nil in Hi.
  - vm_compute. reflexivity.
Defined.

Lemma dict_get_set_group groups key g k :
  dict_get (set_group groups key g) k
  = if decide (key = k) then Some g else dict_get groups k.
Proof.
  induction groups as [|[k0 g0] groups IH]; simpl.
  - done.
  - destruct (decide (k0 = key)) as [->|Hne]; simpl.
    + by destruct (decide (key = k)).
    + destruct (decide (k0 = k)) as [->|]; [|exact IH].
      by destruct (decide (key = k)); [congruence|].
Qed.

Lemma set_group_keys groups key g : groups.*1 `prefix_of` (set_group groups key g).*1.
Proof.
  induction groups as [|[k0 g0] groups IH]; simpl.
  - apply prefix_nil.
  - destruct (decide (k0 = key)) as [->|Hne]; simpl; [reflexivity | by apply prefix_cons].
Qed.

(** X13: a document changes the group of its own texture identifier
    only.  Every other group is as it was; the groups keep their order,
    a new one going last; and a group that was there keeps its frames, in
    place, and its sources. *)
Theorem document_touches_own_group jf json_data groups groups' :
  collect_frames_of jf json_data groups = Ok groups' ->
  (∀ k, guess_texture_uuid_compressed json_data ≠ Some k ->
        dict_get groups' k = dict_get groups k)
  ∧ groups.*1 `prefix_of` groups'.*1
  ∧ ∀ k g, dict_get groups k = Some g ->
      ∃ g', dict_get groups' k = Some g'
            ∧ g_frames g `prefix_of` g_frames g' ∧ g_sources g ⊆ g_sources g'.
Proof.
  unfold collect_frames_of.
  assert (Hsame : Ok groups = Ok groups' ->
    (∀ k, guess_texture_uuid_compressed json_data ≠ Some k ->
          dict_get groups' k = dict_get groups k)
    ∧ groups.*1 `prefix_of` groups'.*1
    ∧ ∀ k g, dict_get groups k = Some g ->
        ∃ g', dict_get groups' k = Some g'
              ∧ g_frames g `prefix_of` g_frames g' ∧ g_sources g ⊆ g_sources g').
  { intros [= <-]. split_and!; [done | reflexivity|]. intros k g Hk. by exists g. }
  destruct (guess_texture_uuid_compressed json_data) as [tex|]; [|exact Hsame].
  destruct (extract_sprite_frames json_data) as [|fr frs]; [exact Hsame|].
  case_bool_decide; [exact Hsame|]. clear Hsame.
  destruct (add_frames _ _) as [fs'|e] eqn:Hadd; [|done]. simpl. intros [= <-].
  split_and!.
  - intros k Hk. rewrite dict_get_set_group. destruct (decide (tex = k)); [congruence | done].
  - apply set_group_keys.
  - intros k g Hk. rewrite dict_get_set_group. destruct (decide (tex = k)) as [<-|].
    + eexists. split; [done|]. rewrite Hk in Hadd.
      split; [exact (add_frames_prefix _ _ _ Hadd) | simpl; rewrite Hk; simpl; set_solver].
    + by exists g.
Qed.

Lemma document_touches_own_group_witness :
  let groups := [("aa000000", {| g_frames := []; g_sources := ∅ |})] in
  let groups' := match collect_frames_of "b.json" sound_document groups with
                 | Ok l => l | Raise _ => [] end in
  (∀ k, guess_texture_uuid_compressed sound_document ≠ Some k ->
        dict_get groups' k = dict_get groups k)
  ∧ groups.*1 `prefix_of` groups'.*1
  ∧ ∀ k g, dict_get groups k = Some g ->
      ∃ g', dict_get groups' k = Some g'
            ∧ g_frames g `prefix_of` g_frames g' ∧ g_sources g ⊆ g_sources g'.
Proof.
  intros groups groups'. apply (document_touches_own_group "b.json" sound_document).
  reflexivity.
Defined.

End GroupFacts.

(** ** Native images: buckets and the choice of a texture *)
Module BucketFacts.
Import Py Text Atlas Output Main.

Lemma native_by_prefix_snoc h native_root imgs f :
  native_by_prefix h native_root (imgs ++ [f])
  = <[bucket_of h native_root f :=
        default [] (native_by_prefix h native_root imgs !! bucket_of h native_root f) ++ [f]]>
      (native_by_prefix h native_root imgs).
Proof. unfold native_by_prefix. by rewrite foldl_app. Qed.

Lemma native_by_prefix_lookup h native_root imgs k :
  native_by_prefix h native_root imgs !! k
  = match filter (fun f => bucket_of h native_root f = k) imgs with
    | [] => None
    | l => Some l
    end.
Proof.
  induction imgs as [|f imgs IH] using rev_ind; [done|].
  rewrite native_by_prefix_snoc, filter_app.
  destruct (decide (bucket_of h native_root f = k)) as [Hk|Hk].
  - rewrite Hk, lookup_insert_eq, IH, filter_cons_True by done. simpl.
    by destruct (filter _ imgs).
  - rewrite lookup_insert_ne, IH, filter_cons_False by done. simpl.
    by rewrite app_nil_r.
Qed.

Lemma candidate_native h native_root imgs k f :
  f ∈ default [] (native_by_prefix h native_root imgs !! k) ->
  f ∈ imgs ∧ bucket_of h native_root f = k.
Proof.
  rewrite native_by_prefix_lookup.
  destruct (filter _ imgs) as [|g l] eqn:E; simpl; [by intros ?%elem_of_nil|].
  rewrite <- E. intros [? ?]%list_elem_of_filter. done.
Qed.

(** X14: the table of native images by bucket holds, under each key,
    exactly the images filed under that key, in the order of the scan;
    a key with no image is absent, so that no bucket is empty and every
    image is in the bucket of its own key and in no other. *)
Theorem native_by_prefix_buckets h native_root imgs :
  (∀ k l, native_by_prefix h native_root imgs !! k = Some l <->
          l ≠ [] ∧ l = filter (fun f => bucket_of h native_root f = k) imgs)
  ∧ ∀ f, f ∈ imgs ->
      ∃ l, native_by_prefix h native_root imgs !! bucket_of h native_root f = Some l ∧ f ∈ l.
Proof.
  split.
  - intros k l. rewrite native_by_prefix_lookup.
    destruct (filter _ imgs) as [|g l']; split.
    + done.
    + by intros [? ->].
    + by intros [= <-].
    + by intros [_ ->].
  - intros f Hf. rewrite native_by_prefix_lookup.
    assert (Hin : f ∈ filter (fun g => bucket_of h native_root g = bucket_of h native_root f) imgs)
      by (by apply list_elem_of_filter).
    destruct (filter _ imgs) as [|g l']; [by apply elem_of_nil in Hin|]. by eexists.
Qed.

Lemma find_elem {A} (f : A -> bool) l x : List.find f l = Some x -> x ∈ l ∧ f x = true.
Proof. intros [? ?]%find_some. split; [by apply list_elem_of_In | done]. Qed.

Lemma find_missing {A} (f : A -> bool) l x : List.find f l = None -> x ∈ l -> f x = false.
Proof. intros H Hx. apply (find_none _ _ H). by apply list_elem_of_In. Qed.

Lemma first_with_Some test cand f :
  first_with test cand = Some f -> f ∈ cand ∧ ∃ ext, ext ∈ image_exts ∧ test f ext = true.
Proof.
  unfold first_with. generalize image_exts. intros exts.
  induction exts as [|ext exts IH]; [done|]. simpl.
  destruct (List.find _ cand) as [g|] eqn:E.
  - intros [= ->]. apply find_elem in E as [? ?]. split; [done|]. exists ext. split; [by left | done].
  - intros H. destruct (IH H) as (? & ext' & ? & ?). split; [done|]. exists ext'. split; [by right | done].
Qed.

Lemma first_with_None test cand f ext :
  first_with test cand = None -> f ∈ cand -> ext ∈ image_exts -> test f ext = false.
Proof.
  unfold first_with. generalize image_exts. intros exts.
  induction exts as [|ext0 exts IH]; [by intros _ _ ?%elem_of_nil|]. simpl.
  destruct (List.find _ cand) as [g|] eqn:E; [done|].
  intros H Hf [->|Hext]%elem_of_cons; [|by apply IH].
  by apply (find_missing _ _ f E).
Qed.

Lemma has_ext_iff f :
  existsb (endswith (lower f)) image_exts = true
  <-> ∃ ext, ext ∈ image_exts ∧ endswith (lower f) ext = true.
Proof. apply GroupFacts.existsb_elem. Qed.

Lemma pick_image_ext (fs : tree) cand f :
  pick_image fs cand = Some f -> existsb (endswith (lower f)) image_exts = true.
Proof.
  unfold pick_image.
  destruct (first_with (fun f ext => endswith (lower f) ext && is_image_magic_ok fs f) cand)
    as [g|] eqn:H1.
  - intros [= ->]. apply first_with_Some in H1 as (_ & ext & Hext & [He _]%andb_true_iff).
    apply has_ext_iff. by exists ext.
  - intros (_ & ext & Hext & He)%first_with_Some. apply has_ext_iff. by exists ext.
Qed.

(** X15: the texture chosen for an atlas (lines 558-575) is one of the
    candidates and has one of the four image extensions; when some
    candidate with such an extension holds a genuine image, the chosen
    one is genuine; and none is chosen only when no candidate has such
    an extension. *)
Theorem pick_image_spec (fs : tree) cand :
  match pick_image fs cand with
  | Some f =>
      f ∈ cand ∧ existsb (endswith (lower f)) image_exts = true
      ∧ ((∃ g, g ∈ cand ∧ existsb (endswith (lower g)) image_exts = true
               ∧ is_image_magic_ok fs g = true) -> is_image_magic_ok fs f = true)
  | None => ∀ f, f ∈ cand -> existsb (endswith (lower f)) image_exts = false
  end.
Proof.
  unfold pick_image.
  destruct (first_with (fun f ext => endswith (lower f) ext && is_image_magic_ok fs f) cand)
    as [f|] eqn:H1.
  - apply first_with_Some in H1 as (Hf & ext & Hext & [He Hm]%andb_true_iff).
    split_and!; [done | apply has_ext_iff; by exists ext | done].
  - destruct (first_with (fun f ext => endswith (lower f) ext) cand) as [f|] eqn:H2.
    + apply first_with_Some in H2 as (Hf & ext & Hext & He).
      split_and!; [done | apply has_ext_iff; by exists ext |].
      intros (g & Hg & (ext' & Hext' & He')%has_ext_iff & Hm).
      pose proof (first_with_None _ _ g ext' H1 Hg Hext') as Hno. simpl in Hno.
      rewrite He', Hm in Hno. done.
    + intros f Hf. destruct (existsb _ image_exts) eqn:E; [|done].
      apply has_ext_iff in E as (ext & Hext & He).
      pose proof (first_with_None _ _ f ext H2 Hf Hext) as Hno. simpl in Hno. congruence.
Qed.

Lemma skeleton_comp_uuid_elem uuids sk u : skeleton_comp_uuid uuids sk = Some u -> u ∈ uuids.
Proof.
  unfold skeleton_comp_uuid. destruct uuids as [|u0 rest]; [done|].
  intros [= <-]. case_decide; [|by left].
  destruct ((u0 :: rest) !! _) eqn:E; simpl; [by eapply list_elem_of_lookup_2 | by left].
Qed.

(** X16: the image a skeleton bundle is given (lines 509-529) is a
    native image filed under the first two characters of an identifier
    of the document's table; without an identifier table no image is
    given. *)
Theorem spine_target_native h (fs : tree) native_root imgs uuids sk f :
  spine_target h fs (native_by_prefix h native_root imgs) uuids sk = Ok (Some f) ->
  ∃ u, JStr u ∈ uuids ∧ f ∈ imgs ∧ bucket_of h native_root f = String.substring 0 2 u.
Proof.
  unfold spine_target.
  destruct (skeleton_comp_uuid uuids sk) as [comp|] eqn:Hc; [|done].
  apply skeleton_comp_uuid_elem in Hc.
  destruct comp as [| | | |u| |]; try done. simpl. intros [= H].
  exists u. split; [done|]. apply candidate_native.
  set (cand := default [] _) in *.
  destruct (nonempty _) as [g|] eqn:Hg.
  - injection H as ->. unfold nonempty in Hg.
    destruct (atlas_size (atlasText sk)) as [[W H']|]; [|done].
    destruct (List.find _ cand) as [g|] eqn:Hfind; [|done]. simpl in Hg.
    case_bool_decide; [done|]. injection Hg as <-. by apply find_elem in Hfind as [? _].
  - destruct cand; [done|]. injection H as <-. by left.
Qed.

Lemma spine_target_native_witness :
  ∃ u, JStr u ∈ [JStr "ab12"; JStr "cd34"] ∧ "native/cd/x.png" ∈ ["native/ab/y.png"; "native/cd/x.png"]
       ∧ bucket_of bucket_host "native" "native/cd/x.png" = String.substring 0 2 u.
Proof.
  apply (spine_target_native bucket_host ∅ "native"
           ["native/ab/y.png"; "native/cd/x.png"] [JStr "ab12"; JStr "cd34"]
           {| sk_name := "hero"; atlasText := ""; skeletonJson := [];
              textureNames := []; textureIndices := [JInt 1] |}).
  vm_compute. reflexivity.
Defined.

End BucketFacts.

(** ** Textures: the copy and the cleanup *)
Module CopyFacts.
Import Py Text Atlas Output Main.

Lemma try_copy2_cases h (fs : tree) src dst :
  try_copy2 h fs src dst
  = match fs !! src with
    | Some c => if can_create h fs dst && negb (bool_decide (src = dst))
                then (<[dst := c]> fs, true) else (fs, false)
    | None => (fs, false)
    end.
Proof.
  unfold try_copy2, copy2.
  destruct (can_create h fs dst && negb (bool_decide (src = dst))); by destruct (fs !! src).
Qed.


Lemma try_copy2_other h (fs : tree) src dst p :
  p ≠ dst -> (try_copy2 h fs src dst).1 !! p = fs !! p.
Proof.
  intros Hp. rewrite try_copy2_cases. destruct (fs !! src); [|done].
  destruct (_ && _); simpl; [by rewrite lookup_insert_ne | done].
Qed.

Lemma copy_other_paths h (fs : tree) src dst p :
  p ≠ dst -> (copy_image_resolving_stub h fs src dst).1 !! p = fs !! p.
Proof.
  intros Hp. unfold copy_image_resolving_stub. destruct (is_image_magic_ok fs src).
  - by apply try_copy2_other.
  - destruct (extract_stub_url h fs src) as [url|]; [|by apply try_copy2_other].
    destruct (urlopen h url); [|done].
    destruct (can_create h fs dst); simpl; [by rewrite lookup_insert_ne | done].
Qed.



Lemma substring_all s : String.substring 0 (String.length s) s = s.
Proof. induction s as [|c s IH]; simpl; [done | by rewrite IH]. Qed.

Lemma substring_after pre s :
  String.substring (String.length pre) (String.length (pre +:+ s) - String.length pre) (pre +:+ s)
  = s.
Proof.
  induction pre as [|c pre IH]; simpl.
  - rewrite Nat.sub_0_r. apply substring_all.
  - exact IH.
Qed.

Lemma prefix_split pre path :
  String.prefix pre path = true ->
  path = pre +:+ String.substring (String.length pre) (String.length path - String.length pre) path.
Proof.
  revert path. induction pre as [|a pre IH]; intros path; simpl.
  - intros _. by rewrite Nat.sub_0_r, substring_all.
  - destruct path as [|b path]; simpl; [done|].
    destruct (Ascii.ascii_dec a b) as [->|]; [|intros; discriminate].
    intros H. rewrite OutputFacts.append_cons. f_equal. by apply IH.
Qed.

Lemma prefix_append pre s : String.prefix pre (pre +:+ s) = true.
Proof.
  induction pre as [|a pre IH]; simpl; [by destruct s|].
  by destruct (Ascii.ascii_dec a a).
Qed.

Lemma entry_of_Some out_dir path old :
  entry_of out_dir path = Some old ->
  path = out_dir +:+ "/" +:+ old ∧ old ≠ "" ∧ contains "/" old = false.
Proof.
  unfold entry_of. destruct (String.prefix _ path) eqn:Hp; [|done].
  apply prefix_split in Hp. set (o := String.substring _ _ path) in *.
  destruct (bool_decide (o = "")) eqn:E1; [done|]. destruct (contains "/" o) eqn:E2; [done|].
  simpl. intros [= <-]. split_and!; [|by apply bool_decide_eq_false in E1 | done].
  by rewrite Hp at 1; rewrite OutputFacts.append_assoc.
Qed.

Lemma current_texture_not_stale out_dir tex : is_stale out_dir tex (out_dir +:+ "/" +:+ tex) = false.
Proof.
  unfold is_stale. destruct (entry_of _ _) as [old|] eqn:E; [|done].
  assert (old = tex) as ->.
  { unfold entry_of in E. rewrite <- OutputFacts.append_assoc in E.
    rewrite prefix_append, substring_after in E.
    destruct (bool_decide (tex = "") || contains "/" tex); [done | by injection E]. }
  rewrite bool_decide_eq_true_2 by done. apply andb_false_r.
Qed.

(** X18: the cleanup of an atlas directory (lines 595-603) only removes
    files, never changes one; a file it removes lies directly in the
    directory, has an image extension and is not the current texture;
    the current texture itself is never removed. *)
Theorem cleanup_removes_stale_only out_dir tex (fs : tree) :
  let fs' := (exec (remove_stale out_dir tex) fs).1 in
  (∀ p c, fs' !! p = Some c -> fs !! p = Some c)
  ∧ (∀ p, is_Some (fs !! p) -> fs' !! p = None ->
       ∃ old, p = out_dir +:+ "/" +:+ old ∧ old ≠ tex ∧ contains "/" old = false
              ∧ existsb (endswith (lower old)) image_exts = true)
  ∧ fs' !! (out_dir +:+ "/" +:+ tex) = fs !! (out_dir +:+ "/" +:+ tex).
Proof.
  simpl. split_and!.
  - intros p c [? _]%map_lookup_filter_Some. done.
  - intros p [c Hc] Hnone.
    destruct (is_stale out_dir tex p) eqn:Hs.
    + unfold is_stale in Hs. destruct (entry_of out_dir p) as [old|] eqn:E; [|done].
      apply andb_true_iff in Hs as [Hext Hne].
      apply entry_of_Some in E as (-> & _ & Hslash). exists old.
      split_and!; [done | | done | done].
      apply negb_true_iff, bool_decide_eq_false in Hne. done.
    + exfalso. assert (filter (fun kv => is_stale out_dir tex kv.1 = false) fs !! p = Some c)
        by (by apply map_lookup_filter_Some). congruence.
  - destruct (fs !! (out_dir +:+ "/" +:+ tex)) as [c|] eqn:Hc.
    + apply map_lookup_filter_Some. split; [done|]. simpl. apply current_texture_not_stale.
    + apply map_lookup_filter_None. by left.
Qed.

End CopyFacts.

(** ** The batch: how a run ends *)
Module RunFacts.
Import Py Text Atlas Infer Output Main.

Lemma exec_bind_Ok {A B} (m : run A) (k : A -> run B) (fs fs' : tree) b :
  exec (m ≫= k) fs = (fs', Ok b) ->
  ∃ fs1 a, exec m fs = (fs1, Ok a) ∧ exec (k a) fs1 = (fs', Ok b).
Proof.
  unfold mbind, run_bind. simpl. destruct (exec m fs) as [fs1 [a|e]]; [|done].
  intros H. by exists fs1, a.
Qed.

Lemma for_each_inv {A S} (I : tree -> S -> Prop) (l : list A) (body : S -> A -> run S) :
  (∀ a acc (fs fs' : tree) acc',
     a ∈ l -> I fs acc -> exec (body acc a) fs = (fs', Ok acc') -> I fs' acc') ->
  ∀ acc (fs fs' : tree) acc',
    I fs acc -> exec (for_each l body acc) fs = (fs', Ok acc') -> I fs' acc'.
Proof.
  induction l as [|a l IH]; intros Hbody acc fs fs' acc' HI; simpl.
  - by intros [= <- <-].
  - intros (fs1 & acc1 & H1 & H2)%exec_bind_Ok.
    eapply IH; [|eapply Hbody; [by left | exact HI | exact H1] | exact H2].
    intros a' ? ? ? ? Ha'. apply Hbody. by right.
Qed.

Lemma join_inj dir a b :
  startswith_sep a = false -> startswith_sep b = false -> join dir a = join dir b -> a = b.
Proof.
  unfold join. intros -> ->.
  destruct (bool_decide (dir = "") || endswith dir "/").
  - apply String.app_inj.
  - intros H. apply String.app_inj in H. by apply (String.app_inj "/") in H.
Qed.

Lemma slug_not_sep s sfx :
  startswith_sep sfx = false -> startswith_sep (safe_slug s +:+ sfx) = false.
Proof.
  destruct s as [|c s]; [done|]. intros _. simpl.
  destruct (slug_keep c) eqn:E; [|done].
  apply bool_decide_eq_false. intros ->. done.
Qed.

(** What the index of inferred clips says of a pair once the tree is
    [fs]: the path is the one built from the name, and a clip whose name
    gives the same file name is written there. *)
Lemma infer_atlas_entries dir item collected (fs fs' : tree) collected' :
  (∀ n p, (n, p) ∈ collected ->
     p = join dir (safe_slug n +:+ ".anim.guessed.json")
     ∧ ∃ c, fs !! p = Some (AutoClipDoc c) ∧ safe_slug (ac_name c) = safe_slug n) ->
  exec (infer_atlas dir collected item) fs = (fs', Ok collected') ->
  ∀ n p, (n, p) ∈ collected' ->
     p = join dir (safe_slug n +:+ ".anim.guessed.json")
     ∧ ∃ c, fs' !! p = Some (AutoClipDoc c) ∧ safe_slug (ac_name c) = safe_slug n.
Proof.
  destruct item as [comp_uuid g]. unfold infer_atlas.
  intros HI (fs1 & names & Hl & Hloop)%exec_bind_Ok.
  unfold lift in Hl. simpl in Hl. injection Hl as <- _.
  revert HI Hloop. apply (for_each_inv (fun (fs : tree) coll => ∀ n p, (n, p) ∈ coll ->
     p = join dir (safe_slug n +:+ ".anim.guessed.json")
     ∧ ∃ c, fs !! p = Some (AutoClipDoc c) ∧ safe_slug (ac_name c) = safe_slug n)).
  clear. intros c acc fs fs' acc' _ HI (fs1 & [] & Hw & Hr)%exec_bind_Ok.
  simpl in Hw, Hr. injection Hw as <-. injection Hr as <- <-.
  intros n p [Hold|Hnew%list_elem_of_singleton]%elem_of_app; [|injection Hnew as -> ->].
  - destruct (HI n p Hold) as (-> & c' & Hc' & Hslug). split; [done|].
    destruct (decide (join dir (safe_slug (ac_name c) +:+ ".anim.guessed.json")
                      = join dir (safe_slug n +:+ ".anim.guessed.json"))) as [Heq|Hne].
    + exists c. rewrite Heq, lookup_insert_eq. split; [done|].
      apply join_inj in Heq; [|by apply slug_not_sep..].
      by apply OutputFacts.append_inv_tail in Heq.
    + exists c'. by rewrite lookup_insert_ne.
  - split; [done|]. exists c. by rewrite lookup_insert_eq.
Qed.

(** X19: when a run completes, the index of inferred clips is in the
    output tree, and every clip it lists is there too: the path of an
    entry is built from its name, and holds an inferred clip whose name
    gives the same file name. *)
Theorem completed_run_index h argv (fs fs' : tree) :
  main h argv fs = (fs', Completed) ->
  ∃ output_dir entries,
    argv !! 2%nat = Some output_dir
    ∧ fs' !! join (join output_dir "animations_auto") "index.json" = Some (AutoIndex entries)
    ∧ ∀ n p, (n, p) ∈ entries ->
        p = join (join output_dir "animations_auto") (safe_slug n +:+ ".anim.guessed.json")
        ∧ ∃ c, fs' !! p = Some (AutoClipDoc c) ∧ safe_slug (ac_name c) = safe_slug n.
Proof.
  unfold main. destruct argv as [|prog [|assets_root [|output_dir more]]]; try done.
  destruct (negb _); [done|].
  destruct (exec (batch h assets_root output_dir) fs) as [fs1 [[]|e]] eqn:Hb; [|done].
  intros [= ->]. unfold batch in Hb. cbv zeta in Hb.
  apply exec_bind_Ok in Hb as (fs2 & ? & _ & Hb).
  apply exec_bind_Ok in Hb as (fs3 & groups & _ & Hb).
  apply exec_bind_Ok in Hb as (fs4 & ? & _ & Hb).
  apply exec_bind_Ok in Hb as (fs5 & entries & Hinfer & Hw).
  simpl in Hw. injection Hw as <-.
  exists output_dir, entries. split; [done|]. split; [by rewrite lookup_insert_eq|].
  intros n p Hnp.
  assert (HI : p = join (join output_dir "animations_auto") (safe_slug n +:+ ".anim.guessed.json")
               ∧ ∃ c, fs5 !! p = Some (AutoClipDoc c) ∧ safe_slug (ac_name c) = safe_slug n).
  { revert n p Hnp.
    apply (for_each_inv (fun (fs : tree) coll => ∀ n p, (n, p) ∈ coll ->
       p = join (join output_dir "animations_auto") (safe_slug n +:+ ".anim.guessed.json")
       ∧ ∃ c, fs !! p = Some (AutoClipDoc c) ∧ safe_slug (ac_name c) = safe_slug n)
       groups (infer_atlas (join output_dir "animations_auto"))) with (acc := []) (fs := fs4);
      [|by intros ? ? ?%elem_of_nil | exact Hinfer].
    intros item acc fa fb acc' _ Hacc Hex. by eapply infer_atlas_entries. }
  destruct HI as (-> & c & Hc & Hslug). split; [done|]. exists c. split; [|done].
  rewrite lookup_insert_ne; [done|].
  intros Heq%join_inj; [|done|by apply slug_not_sep].
  apply (f_equal String.length) in Heq. rewrite OutputFacts.length_append in Heq.
  simpl in Heq. lia.
Qed.

Lemma completed_run_index_witness :
  ∃ output_dir entries,
    ["restore_cocos_assets.py"; "assets"; "out"] !! 2%nat = Some output_dir
    ∧ (main series_host sample_argv series_tree).1
        !! join (join output_dir "animations_auto") "index.json" = Some (AutoIndex entries)
    ∧ ∀ n p, (n, p) ∈ entries ->
        p = join (join output_dir "animations_auto") (safe_slug n +:+ ".anim.guessed.json")
        ∧ ∃ c, (main series_host sample_argv series_tree).1 !! p = Some (AutoClipDoc c)
               ∧ safe_slug (ac_name c) = safe_slug n.
Proof.
  apply (completed_run_index series_host sample_argv series_tree).
  assert (H2 : (main series_host sample_argv series_tree).2 = Completed)
    by (vm_compute; reflexivity).
  destruct (main _ _ _) as [a b]. simpl in *. by rewrite H2.
Defined.

Example series_run_index :
  (main series_host sample_argv series_tree).1 !! "out/animations_auto/index.json"
  = Some (AutoIndex [("run", "out/animations_auto/run.anim.guessed.json")]).
Proof. vm_compute. reflexivity. Qed.

End RunFacts.

(** ** Images by path, identifier tables, rects *)
Module SizeFacts.
Import Bytes Webp Image Py Text Clips Atlas Output Main.

Lemma png_bound data w h :
  read_png_size data = Some (w, h) -> 0 <= w < 2 ^ 32 ∧ 0 <= h < 2 ^ 32.
Proof.
  unfold read_png_size. repeat case_decide; try done. intros [= <- <-].
  pose proof (SniffFacts.slice_big_bound (slice data 0 32) 16 4 ltac:(lia)) as Hw.
  pose proof (SniffFacts.slice_big_bound (slice data 0 32) 20 4 ltac:(lia)) as Hh.
  change (16 + 4) with 20 in Hw. change (20 + 4) with 24 in Hh.
  change (256 ^ 4) with (2 ^ 32) in *. done.
Qed.

Lemma webp_bound data w h :
  read_webp_size data = Some (w, h) -> 0 <= w < 2 ^ 32 ∧ 0 <= h < 2 ^ 32.
Proof.
  unfold read_webp_size. repeat case_decide; try done. intros Hscan.
  pose proof (SniffFacts.decoded_from_range data w h
                (WebpFacts.webp_scan_found _ _ _ _ Hscan)) as Hr.
  change (2 ^ 24) with 16777216 in Hr. change (2 ^ 32) with 4294967296. lia.
Qed.

Lemma jpeg_bound data w h :
  read_jpeg_size data = Some (w, h) -> 0 <= w < 2 ^ 32 ∧ 0 <= h < 2 ^ 32.
Proof.
  unfold read_jpeg_size. case_decide; [done|]. intros Hr%SniffFacts.jpeg_scan_range.
  change (2 ^ 16) with 65536 in Hr. change (2 ^ 32) with 4294967296. lia.
Qed.

(** X20: [get_image_size] answers only for a file that can be read and
    whose extension is, whatever its case, one of .png, .webp, .jpg and
    .jpeg; both dimensions it gives fit in 32 bits. *)
Theorem get_image_size_answer (fs : tree) file_path w h :
  get_image_size fs file_path = Some (w, h) ->
  is_Some (read_bytes fs file_path)
  ∧ lower (splitext file_path).2 ∈ image_exts
  ∧ 0 <= w < 2 ^ 32 ∧ 0 <= h < 2 ^ 32.
Proof.
  unfold get_image_size, image_exts.
  destruct (read_bytes fs file_path) as [data|]; simpl;
    [|by repeat (case_bool_decide; simpl)].
  case_bool_decide as Hpng.
  { intros H%png_bound. split; [by eexists|]. split; [rewrite Hpng; repeat constructor | done]. }
  case_bool_decide as Hwebp.
  { intros H%webp_bound. split; [by eexists|]. split; [rewrite Hwebp; repeat constructor | done]. }
  destruct (bool_decide (_ = ".jpg") || bool_decide (_ = ".jpeg")) eqn:Hj; [|done].
  intros H%jpeg_bound. split; [by eexists|]. split; [|done].
  apply orb_true_iff in Hj as [Hj|Hj]; apply bool_decide_eq_true in Hj; rewrite Hj; repeat constructor.
Qed.

Lemma get_image_size_answer_witness :
  is_Some (read_bytes {[ "n/ab/t.WEBP" := Binary vp8x_sample ]} "n/ab/t.WEBP")
  ∧ lower (splitext "n/ab/t.WEBP").2 ∈ image_exts
  ∧ 0 <= 16 < 2 ^ 32 ∧ 0 <= 32 < 2 ^ 32.
Proof.
  apply (get_image_size_answer {[ "n/ab/t.WEBP" := Binary vp8x_sample ]} "n/ab/t.WEBP" 16 32).
  vm_compute. reflexivity.
Defined.

(** X21: the three readings of the identifier table of a document agree
    on its head: the texture identifier guessed for the frames is the
    first entry of the table a skeleton indexes, and the first of the
    identifiers an animation clip resolves. *)
Theorem guessed_texture_heads_table json_data u :
  (guess_texture_uuid_compressed json_data = Some u <-> head (doc_uuids json_data) = Some (JStr u))
  ∧ (guess_texture_uuid_compressed json_data = Some u -> head (uuids_of json_data) = Some u).
Proof.
  unfold guess_texture_uuid_compressed, doc_uuids, uuids_of.
  destruct json_data as [| | | | |l|]; try done.
  destruct l as [|n0 [|n1 l]]; try done.
  destruct n1 as [| | | | |l1|]; try done.
  destruct l1 as [|u0 l1]; [done|]. simpl.
  destruct u0; (split; [split; intros [=]; by subst | intros [=]; by subst]).
Qed.

End SizeFacts.

(** ** Rects and atlas descriptors *)
Module EmitFacts.
Import Py Text Atlas Output Main.

Lemma int_at_Ok ios l i z : int_at ios (JList l) i = Ok z -> (i < length l)%nat.
Proof.
  unfold int_at, subscript. destruct (l !! i) eqn:E; [|done].
  intros _. apply lookup_lt_is_Some. by eexists.
Qed.

(** X22: [parse_rect] and [parse_pair] return for a list only when it is
    long enough: four entries for a flat rect; for a rect whose first
    entry is a list, two entries there and two in the rect; two entries
    for a pair. *)
Theorem parsers_need_entries ios l :
  (∀ r, parse_rect ios (JList l) = Ok r ->
     match l with
     | JList r0 :: _ => (2 <= length r0)%nat ∧ (2 <= length l)%nat
     | _ => (4 <= length l)%nat
     end)
  ∧ ∀ p, parse_pair ios (JList l) = Ok p -> (2 <= length l)%nat.
Proof.
  split.
  - intros r. unfold parse_rect.
    assert (Hflat :
      (x ← int_at ios (JList l) 0; y ← int_at ios (JList l) 1;
       w ← int_at ios (JList l) 2; h ← int_at ios (JList l) 3;
       Ok {| rx := x; ry := y; rw := w; rh := h |}) = Ok r -> (4 <= length l)%nat).
    { intros H. apply TrackFacts.bind_Ok in H as (x & _ & H).
      apply TrackFacts.bind_Ok in H as (y & _ & H).
      apply TrackFacts.bind_Ok in H as (w & _ & H).
      apply TrackFacts.bind_Ok in H as (h & Hh & _). apply int_at_Ok in Hh. lia. }
    destruct l as [|[| | | | |r0|] l']; try exact Hflat.
    intros H. apply TrackFacts.bind_Ok in H as (x & _ & H).
    apply TrackFacts.bind_Ok in H as (y & Hy & H). apply int_at_Ok in Hy.
    apply TrackFacts.bind_Ok in H as (r1 & Hr1 & _).
    split; [lia|]. unfold subscript in Hr1. destruct l'; [done | simpl; lia].
  - intros p. unfold parse_pair. intros H.
    apply TrackFacts.bind_Ok in H as (x & _ & H).
    apply TrackFacts.bind_Ok in H as (y & Hy & _). apply int_at_Ok in Hy. lia.
Qed.

Lemma frames_obj_names h frames es : frames_obj h frames = Ok es -> es.*1 = frames.*1.
Proof.
  revert es. induction frames as [|[nm fr] frames IH]; intros es; simpl.
  - by intros [= <-].
  - intros H. apply TrackFacts.bind_Ok in H as (e & _ & H).
    apply TrackFacts.bind_Ok in H as (es' & Hes & [= <-]). simpl. f_equal. by apply IH.
Qed.

Lemma length_lower s : String.length (lower s) = String.length s.
Proof. induction s as [|c s IH]; simpl; [done | by rewrite IH]. Qed.

Lemma lower_append a b : lower (a +:+ b) = lower a +:+ lower b.
Proof.
  induction a as [|c a IH]; [done|].
  rewrite OutputFacts.append_cons. simpl. rewrite IH. by rewrite OutputFacts.append_cons.
Qed.

Lemma substring_skip a b n k :
  String.substring (String.length a + n) k (a +:+ b) = String.substring n k b.
Proof. induction a as [|c a IH]; [done|]. rewrite OutputFacts.append_cons. simpl. exact IH. Qed.

Lemma endswith_append a b sfx :
  (String.length sfx <= String.length b)%nat -> endswith (a +:+ b) sfx = endswith b sfx.
Proof.
  intros Hk. unfold endswith. rewrite OutputFacts.length_append.
  replace (String.length a + String.length b - String.length sfx)%nat
    with (String.length a + (String.length b - String.length sfx))%nat by lia.
  rewrite substring_skip. f_equal.
  apply bool_decide_ext. lia.
Qed.

Lemma plist_name_not_image s :
  existsb (endswith (lower ("atlas_" +:+ s +:+ ".plist"))) image_exts = false.
Proof.
  rewrite <- OutputFacts.append_assoc, lower_append. unfold image_exts. simpl.
  rewrite !endswith_append by (simpl; lia). reflexivity.
Qed.

Lemma split_dir_app p : (split_dir p).1 +:+ (split_dir p).2 = p.
Proof.
  induction p as [|c p IH]; [done|]. simpl.
  destruct (split_dir p) as [d b]. simpl in IH.
  destruct (bool_decide (d = "")) eqn:Hd; simpl.
  - apply bool_decide_eq_true in Hd. subst d.
    destruct (bool_decide (c = "/"%char)); simpl; by rewrite <- IH.
  - rewrite OutputFacts.append_cons. by rewrite IH.
Qed.

Lemma basename_no_sep p : startswith_sep (basename p) = false.
Proof.
  unfold basename. induction p as [|c p IH]; [done|]. simpl.
  destruct (split_dir p) as [d b]. simpl in IH.
  destruct (bool_decide (d = "")); simpl; [|done].
  destruct (bool_decide (c = "/"%char)) eqn:Hc; simpl; [done | exact Hc].
Qed.

(** The name of a texture chosen among the files with an image extension
    is not the name of a descriptor. *)
Lemma texture_not_plist f s :
  existsb (endswith (lower f)) image_exts = true -> basename f ≠ "atlas_" +:+ s +:+ ".plist".
Proof.
  intros Hext Heq. pose proof (plist_name_not_image s) as Hno.
  rewrite <- Heq in Hno. rewrite <- (split_dir_app f) in Hext. fold (basename f) in Hext.
  rewrite lower_append in Hext.
  apply GroupFacts.existsb_elem in Hext as (ext & Hin & He).
  assert (Hlen : (String.length ext <= String.length (lower (basename f)))%nat).
  { rewrite length_lower, Heq, !OutputFacts.length_append. simpl.
    unfold image_exts in Hin.
    repeat (apply elem_of_cons in Hin as [->|Hin]; [simpl; lia|]). by apply elem_of_nil in Hin. }
  rewrite endswith_append in He by exact Hlen.
  assert (existsb (endswith (lower (basename f))) image_exts = true)
    by (apply GroupFacts.existsb_elem; by exists ext).
  congruence.
Qed.

Lemma plist_not_stale out_dir tex s :
  is_stale out_dir tex (join out_dir ("atlas_" +:+ s +:+ ".plist")) = false.
Proof.
  unfold is_stale. destruct (entry_of _ _) as [old|] eqn:E; [|done].
  apply CopyFacts.entry_of_Some in E as (Hpath & _ & _).
  assert (old = "atlas_" +:+ s +:+ ".plist") as ->.
  { unfold join in Hpath. change (startswith_sep ("atlas_" +:+ s +:+ ".plist")) with false in Hpath.
    destruct (bool_decide (out_dir = "") || endswith out_dir "/").
    - apply String.app_inj in Hpath. discriminate.
    - apply String.app_inj in Hpath. by apply (String.app_inj "/") in Hpath. }
  by rewrite plist_name_not_image.
Qed.

(** X23: one atlas group (lines 553-608) is emitted whole or not at all.
    When a frame of the group cannot be converted, the exception leaves
    the tree as it was; otherwise (a write being taken to succeed) the
    step ends normally and the tree holds, at the path of the descriptor,
    the entries of the group under their names and in their order:
    neither the cleanup nor the copy of the texture touches it. *)
Theorem emit_atlas_whole_or_nothing h out_atlas by_prefix comp_uuid g (fs : tree) :
  let prefix := String.substring 0 2 comp_uuid in
  let out_dir := join out_atlas (prefix +:+ "_" +:+ safe_slug (String.substring 0 6 comp_uuid)) in
  let plist := join out_dir ("atlas_" +:+ safe_slug (String.substring 0 8 comp_uuid) +:+ ".plist") in
  match frames_obj h (g_frames g) with
  | Raise e => exec (emit_atlas h out_atlas by_prefix comp_uuid g) fs = (fs, Raise e)
  | Ok entries =>
      ∃ fs' tex, exec (emit_atlas h out_atlas by_prefix comp_uuid g) fs = (fs', Ok ())
                 ∧ fs' !! plist = Some (Plist entries tex)
                 ∧ entries.*1 = (g_frames g).*1
  end.
Proof.
  intros prefix out_dir plist. unfold emit_atlas. fold prefix. fold out_dir. fold plist.
  destruct (frames_obj h (g_frames g)) as [entries|e] eqn:Hobj; [|done].
  pose proof (frames_obj_names _ _ _ Hobj) as Hnames.
  destruct (pick_image fs (default [] (by_prefix !! prefix))) as [f|] eqn:Hpick.
  - eexists _, _. split; [simpl; rewrite Hpick; simpl; reflexivity|]. split; [|done].
    rewrite CopyFacts.copy_other_paths.
    + apply map_lookup_filter_Some. split; [by rewrite lookup_insert_eq|].
      simpl. apply plist_not_stale.
    + intros Heq. apply RunFacts.join_inj in Heq; [|done|apply basename_no_sep].
      symmetry in Heq. revert Heq. apply texture_not_plist. by eapply BucketFacts.pick_image_ext.
  - eexists _, _. split; [simpl; rewrite Hpick; simpl; reflexivity|]. split; [|done].
    apply map_lookup_filter_Some. split; [by rewrite lookup_insert_eq|].
    simpl. apply plist_not_stale.
Qed.

End EmitFacts.

(** ** Animation clips: what the index lists *)
Module AnimFacts.
Import Py Clips Text Output.

Section Loader.
Variable json_loads : string -> option json.

(** What the index says of a pair once the tree is [fs]: the path is one
    built from a name, and a clip is written there. *)
Lemma write_clips_entries anim_out path clips :
  ∀ (fs fs' : tree) collected collected',
  (∀ n p, (n, p) ∈ collected ->
     (∃ stem, p = join anim_out (safe_slug stem +:+ ".anim.json"))
     ∧ ∃ c, fs !! p = Some (ClipDoc c)) ->
  write_clips anim_out path clips fs collected = (fs', collected') ->
  ∀ n p, (n, p) ∈ collected' ->
     (∃ stem, p = join anim_out (safe_slug stem +:+ ".anim.json"))
     ∧ ∃ c, fs' !! p = Some (ClipDoc c).
Proof.
  induction clips as [|c clips IH]; intros fs fs' collected collected' HI; simpl.
  - by intros [= <- <-].
  - apply IH. intros n p [Hold|Hnew%list_elem_of_singleton]%elem_of_app.
    + destruct (HI n p Hold) as (Hstem & c' & Hc'). split; [done|].
      set (out_file := join anim_out _).
      destruct (decide (out_file = p)) as [<-|Hne].
      * exists c. by rewrite lookup_insert_eq.
      * exists c'. by rewrite lookup_insert_ne.
    + injection Hnew as -> ->. split; [by eexists|]. exists c. by rewrite lookup_insert_eq.
Qed.

Lemma animations_loop_entries anim_out paths :
  ∀ (fs fs' : tree) collected collected',
  (∀ n p, (n, p) ∈ collected ->
     (∃ stem, p = join anim_out (safe_slug stem +:+ ".anim.json"))
     ∧ ∃ c, fs !! p = Some (ClipDoc c)) ->
  animations_loop json_loads anim_out paths fs collected = (fs', Ok collected') ->
  ∀ n p, (n, p) ∈ collected' ->
     (∃ stem, p = join anim_out (safe_slug stem +:+ ".anim.json"))
     ∧ ∃ c, fs' !! p = Some (ClipDoc c).
Proof.
  induction paths as [|path paths IH]; intros fs fs' collected collected' HI; simpl.
  - by intros [= <- <-].
  - destruct (load_clip_document json_loads fs path) as [data|]; [|by apply IH].
    destruct (parse_animation_clip data) as [clips|e]; [|done].
    destruct (write_clips anim_out path clips fs collected) as [fs1 collected1] eqn:Hw.
    apply IH. by eapply write_clips_entries.
Qed.

(** X24: when [extract_animations] returns, the index it has written
    lists what it returns, and every entry of the index names a file of
    the animation directory in which a clip is written. *)
Theorem animation_index_sound import_walk out_root (fs fs' : tree) collected :
  extract_animations json_loads import_walk out_root fs = (fs', Ok collected) ->
  let anim_out := join out_root "animations" in
  fs' !! join anim_out "index.json" = Some (ClipIndex collected)
  ∧ ∀ n p, (n, p) ∈ collected ->
      (∃ stem, p = join anim_out (safe_slug stem +:+ ".anim.json"))
      ∧ ∃ c, fs' !! p = Some (ClipDoc c).
Proof.
  unfold extract_animations. cbv zeta.
  destruct (animations_loop _ _ _ fs []) as [fs1 [collected1|e]] eqn:Hloop; [|done].
  intros [= <- <-]. split; [by rewrite lookup_insert_eq|].
  intros n p Hnp.
  destruct (animations_loop_entries _ _ _ _ _ _ (fun n p (H : (n, p) ∈ []) =>
              False_ind _ (not_elem_of_nil _ H)) Hloop n p Hnp) as ([stem ->] & c & Hc).
  split; [by eexists|]. exists c. rewrite lookup_insert_ne; [done|].
  intros Heq%RunFacts.join_inj; [|done|by apply RunFacts.slug_not_sep].
  destruct stem as [|a stem]; [discriminate|].
  apply (f_equal String.length) in Heq. simpl in Heq.
  rewrite OutputFacts.length_append in Heq. simpl in Heq. lia.
Qed.

End Loader.

Lemma animation_index_sound_witness :
  let fs' := (extract_animations marked_loader [("in/import", ["a.json"])] "out" rerun_tree).1 in
  fs' !! join (join "out" "animations") "index.json"
  = Some (ClipIndex [("run", "out/animations/run.anim.json")])
  ∧ ∀ n p, (n, p) ∈ [("run", "out/animations/run.anim.json")] ->
      (∃ stem, p = join (join "out" "animations") (safe_slug stem +:+ ".anim.json"))
      ∧ ∃ c, fs' !! p = Some (ClipDoc c).
Proof.
  intros fs'. apply (animation_index_sound marked_loader [("in/import", ["a.json"])] "out" rerun_tree).
  assert (H2 : (extract_animations marked_loader [("in/import", ["a.json"])] "out" rerun_tree).2
               = Ok [("run", "out/animations/run.anim.json")]) by (vm_compute; reflexivity).
  subst fs'. destruct (extract_animations _ _ _ _) as [a b]. simpl in *. by rewrite H2.
Defined.

End AnimFacts.

(** ** Documents: nothing below the root is passed over *)
Module ReachFacts.
Import Py Clips Atlas.

Lemma walk_inside {A} (visitor : json -> list A) n node x :
  inside n node -> is_list n || is_dict n = true -> x ∈ visitor n -> x ∈ walk visitor node.
Proof.
  intros Hin Hn Hx. induction Hin as [|v l Hv _ IH|k v d Hkv _ IH].
  - destruct n; try done.
    + rewrite WalkFacts.walk_list. apply elem_of_app. by left.
    + rewrite WalkFacts.walk_dict. apply elem_of_app. by left.
  - rewrite WalkFacts.walk_list. apply elem_of_app. right.
    apply list_elem_of_bind. by exists v.
  - rewrite WalkFacts.walk_dict. apply elem_of_app. right.
    apply list_elem_of_bind. exists v. split; [done|].
    apply list_elem_of_fmap. by exists (k, v).
Qed.

(** X25: no sprite frame is passed over.  A dict anywhere in the
    document whose name, rect and original size count as true gives a
    collected frame with these three values. *)
Theorem no_frame_missed json_data d :
  inside (JDict d) json_data ->
  truthy (get d "name") = true -> truthy (get d "rect") = true ->
  truthy (get d "originalSize") = true ->
  ∃ fr, fr ∈ extract_sprite_frames json_data
        ∧ sf_name fr = get d "name" ∧ rect fr = get d "rect"
        ∧ originalSize fr = get d "originalSize".
Proof.
  intros Hin H1 H2 H3. eexists. split.
  - eapply walk_inside; [exact Hin | done|].
    unfold sprite_frame_visit. rewrite H1, H2, H3. simpl. by left.
  - done.
Qed.

Lemma no_frame_missed_witness :
  ∃ fr, fr ∈ extract_sprite_frames Main.series_document
        ∧ sf_name fr = JStr "run_2" ∧ rect fr = JList [JInt 0; JInt 0; JInt 4; JInt 4]
        ∧ originalSize fr = JList [JInt 4; JInt 4].
Proof.
  apply (no_frame_missed Main.series_document
           [("name", JStr "run_2"); ("rect", JList [JInt 0; JInt 0; JInt 4; JInt 4]);
            ("originalSize", JList [JInt 4; JInt 4])]); [|reflexivity..].
  eapply inside_list; [right; right; left|].
  eapply inside_list; [right; left|]. apply inside_here.
Defined.

(** X26: no skeleton bundle is passed over.  A list anywhere in the
    document that starts with 0, two strings, a list, a dict and a list
    gives a collected bundle with these five values. *)
Theorem no_skeleton_missed json_data n0 nm txt names doc indices rest :
  inside (JList (n0 :: JStr nm :: JStr txt :: JList names :: JDict doc :: JList indices :: rest))
         json_data ->
  eq_int n0 0 = true ->
  {| sk_name := nm; atlasText := txt; skeletonJson := doc;
     textureNames := names; textureIndices := indices |} ∈ extract_skeleton_entries json_data.
Proof.
  intros Hin H0. eapply walk_inside; [exact Hin | done|].
  unfold skeleton_visit. rewrite H0. by left.
Qed.

Lemma no_skeleton_missed_witness :
  {| sk_name := "hero"; atlasText := "size: 4,4"; skeletonJson := [];
     textureNames := [JStr "hero.png"]; textureIndices := [JInt 0] |}
  ∈ extract_skeleton_entries
      (JList [JInt 0; JList [JStr "ab12"];
              JDict [("spine", JList [JInt 0; JStr "hero"; JStr "size: 4,4";
                                      JList [JStr "hero.png"]; JDict []; JList [JInt 0]])]]).
Proof.
  apply (no_skeleton_missed _ (JInt 0) "hero" "size: 4,4" [JStr "hero.png"] [] [JInt 0] []);
    [|reflexivity].
  eapply inside_list; [right; right; left|].
  eapply inside_dict; [left|]. apply inside_here.
Defined.

End ReachFacts.

(** ** Scans: what [walk_files] returns *)
Module ScanFacts.
Import Py Text Output Main.

Lemma substring_suffix s m :
  (m <= String.length s)%nat ->
  s = String.substring 0 m s +:+ String.substring m (String.length s - m) s.
Proof.
  revert m. induction s as [|c s IH]; intros m Hm.
  - simpl in Hm. assert (m = 0)%nat as -> by lia. done.
  - destruct m as [|m].
    + simpl. by rewrite CopyFacts.substring_all.
    + simpl in Hm. simpl. rewrite OutputFacts.append_cons. f_equal. apply IH. lia.
Qed.

Lemma endswith_split s sfx : endswith s sfx = true -> ∃ a, s = a +:+ sfx.
Proof.
  unfold endswith. intros [Hk Hs]%andb_true_iff.
  apply bool_decide_eq_true in Hk. apply bool_decide_eq_true in Hs.
  exists (String.substring 0 (String.length s - String.length sfx) s).
  pose proof (substring_suffix s (String.length s - String.length sfx) ltac:(lia)) as H.
  replace (String.length s - (String.length s - String.length sfx))%nat
    with (String.length sfx) in H by lia.
  by rewrite Hs in H.
Qed.

Lemma endswith_length s sfx : endswith s sfx = true -> (String.length sfx <= String.length s)%nat.
Proof. unfold endswith. intros [Hk _]%andb_true_iff. by apply bool_decide_eq_true in Hk. Qed.

(** The file name is the end of the joined path. *)
Lemma join_suffix d f : ∃ a, join d f = a +:+ f.
Proof.
  unfold join. destruct (startswith_sep f); [by exists ""|].
  destruct (bool_decide (d = "") || endswith d "/"); [by exists d|].
  exists (d +:+ "/"). by rewrite OutputFacts.append_assoc.
Qed.

Lemma walk_files_ext walk exts p :
  p ∈ walk_files walk exts -> existsb (endswith (lower p)) exts = true.
Proof.
  unfold walk_files. intros ([d fs] & Hp & _)%list_elem_of_bind.
  apply list_elem_of_bind in Hp as (f & Hp & _).
  destruct (existsb (endswith (lower f)) exts) eqn:E; [|by apply elem_of_nil in Hp].
  apply list_elem_of_singleton in Hp as ->.
  apply GroupFacts.existsb_elem in E as (ext & Hext & He).
  apply GroupFacts.existsb_elem. exists ext. split; [done|].
  destruct (join_suffix d f) as [a ->].
  rewrite EmitFacts.lower_append, EmitFacts.endswith_append; [done|].
  by apply endswith_length.
Qed.

Lemma image_not_audio s :
  existsb (endswith s) image_exts = true -> existsb (endswith s) audio_exts = false.
Proof.
  intros (ext & Hext & He)%GroupFacts.existsb_elem.
  apply endswith_split in He as [a ->]. unfold image_exts in Hext. unfold audio_exts. simpl.
  repeat (apply elem_of_cons in Hext as [->|Hext];
          [rewrite !EmitFacts.endswith_append by (simpl; lia); reflexivity|]).
  by apply elem_of_nil in Hext.
Qed.

(** X27: every path [walk_files] returns ends, whatever its case, with
    one of the extensions asked for; hence the scan for audio files and
    the scan for images never return the same path. *)
Theorem scans_by_extension walk exts :
  (∀ p, p ∈ walk_files walk exts -> existsb (endswith (lower p)) exts = true)
  ∧ ∀ walk' p, p ∈ walk_files walk audio_exts -> p ∉ walk_files walk' image_exts.
Proof.
  split; [intros p; apply walk_files_ext|].
  intros walk' p Ha%walk_files_ext Hi%walk_files_ext.
  apply image_not_audio in Hi. congruence.
Qed.

End ScanFacts.

(** ** Sequence inference: which clips are inferred *)
Module MemberFacts.
Import Py Text Infer.

Lemma dict_get_series_add series base item k :
  dict_get (series_add series base item) k
  = if decide (base = k) then Some (default [] (dict_get series base) ++ [item])
    else dict_get series k.
Proof.
  induction series as [|[b lst] rest IH]; simpl.
  - by destruct (decide (base = k)).
  - destruct (decide (b = base)) as [->|Hne]; simpl.
    + by destruct (decide (base = k)).
    + destruct (decide (b = k)) as [->|Hk]; [by rewrite decide_False by congruence|].
      exact IH.
Qed.

Lemma build_series_lookup names base :
  dict_get (build_series names) base
  = match members names base with [] => None | l => Some l end.
Proof.
  induction names as [|nm names IH] using rev_ind; [done|].
  rewrite SeriesFacts.build_series_snoc. unfold members, series_step.
  rewrite omap_app. fold (members names base). simpl.
  destruct (split_name_series nm) as [[b idx]|]; simpl.
  - rewrite dict_get_series_add. destruct (decide (b = base)) as [->|Hne]; simpl.
    + rewrite IH. by destruct (members names base).
    + by rewrite IH, app_nil_r.
  - by rewrite IH, app_nil_r.
Qed.

Lemma elem_dict_get {V} (d : list (string * V)) k v :
  NoDup d.*1 -> (k, v) ∈ d <-> dict_get d k = Some v.
Proof.
  induction d as [|[k' v'] d IH]; simpl; intros Hnd.
  - split; [by intros ?%elem_of_nil | done].
  - apply NoDup_cons in Hnd as [Hnin Hnd]. destruct (decide (k' = k)) as [->|Hne].
    + split.
      * intros [[= ->]|Hin]%elem_of_cons; [done|].
        exfalso. apply Hnin. apply list_elem_of_fmap. by exists (k, v).
      * intros [= ->]. by left.
    + rewrite <- (IH Hnd). split.
      * intros [[= -> ->]|Hin]%elem_of_cons; [done | done].
      * intros Hin. by right.
Qed.

(** X28: the clips inferred from the frame names of an atlas are exactly
    these: one for every base that has members and whose members, all of
    them, sorted by suffix, pass the two tests; the clip holds every
    member of the base, in sorted order. *)
Theorem inferred_clips_whole u names c :
  c ∈ infer_group u names <->
  ∃ base, members names base ≠ []
          ∧ keeps (sort_by_key (members names base)) = true
          ∧ c = make_clip u base (sort_by_key (members names base)).
Proof.
  destruct (SeriesFacts.build_series_ok names) as [Hnd _]. split.
  - intros (base & lst & Hin & Hkeep & ->)%SeriesFacts.infer_group_elem.
    apply (elem_dict_get _ _ _ Hnd) in Hin. rewrite build_series_lookup in Hin.
    exists base. destruct (members names base) as [|m ms]; [done|].
    injection Hin as <-. done.
  - intros (base & Hne & Hkeep & ->). unfold infer_group.
    apply list_elem_of_bind. exists (base, members names base). split.
    + rewrite Hkeep. by left.
    + apply (elem_dict_get _ _ _ Hnd). rewrite build_series_lookup.
      by destruct (members names base).
Qed.

End MemberFacts.

(** ** Skeleton bundles: the texture-index hint *)
Module FallbackFacts.
Import Py Text Atlas Output Main.





(** A run over the document with the table [["ab12"]]: the hint 5 is out
    of range, the bundle takes the image of the bucket [ab] and the run
    completes. *)
Example hinted_bundle_restored :
  let r := main (hero_host ["h.json"]) sample_argv hero_tree in
  r.2 = Completed
  ∧ r.1 !! "out/spine/hero/hero.atlas" = Some (TextFile "size: 4,4")
  ∧ r.1 !! "out/spine/hero/hero.json" = Some (SkeletonDoc [])
  ∧ r.1 !! "out/spine/hero/hero.png" = Some (Binary png_4x4).
Proof. repeat split; vm_compute; reflexivity. Qed.

(** A texture name that holds a folder: the directory of the destination
    is not there, the copy fails, and the bundle has its two files only. *)
Example folder_hint_not_copied :
  let r := exec (restore_skeleton (hero_host []) "out/spine"
                   (native_by_prefix (hero_host []) "assets/native" ["assets/native/ab/t.png"])
                   [JStr "ab12"]
                   {| sk_name := "hero"; atlasText := "size: 4,4"; skeletonJson := [];
                      textureNames := [JStr "sub/hero.png"]; textureIndices := [] |})
                hero_tree in
  r.2 = Ok ()
  ∧ r.1 !! "out/spine/hero/hero.atlas" = Some (TextFile "size: 4,4")
  ∧ r.1 !! "out/spine/hero/sub/hero.png" = None
  ∧ size r.1 = (size hero_tree + 2)%nat.
Proof. repeat split; vm_compute; reflexivity. Qed.


End FallbackFacts.

(** ** Audio: name collisions *)
Module CollisionFacts.
Import Py Text Output.

(** What holds of the target chosen for [path] when the tree is [fs]. *)
Lemma audio_target_first_unused (fs : tree) audio_out path :
  let target := audio_target fs audio_out path in
  fs !! target = None
  ∧ (exists_ fs (plain_target audio_out path) = false ∧ target = plain_target audio_out path
     ∨ exists_ fs (plain_target audio_out path) = true
       ∧ ∃ k, (1 <= k)%nat ∧ target = numbered_target audio_out path k
              ∧ ∀ j, (1 <= j < k)%nat ->
                     exists_ fs (numbered_target audio_out path j) = true).
Proof.
  intros target.
  pose proof (OutputFacts.audio_target_fresh fs audio_out path) as Hfresh. fold target in Hfresh.
  split.
  { apply bool_decide_eq_false in Hfresh. destruct (fs !! target) eqn:E; [|done].
    exfalso. apply Hfresh. by eexists. }
  destruct (OutputFacts.probe_spec fs audio_out
              (safe_slug (splitext (basename path)).1) (lower (splitext (basename path)).2)
              (S (size fs)) 1 (plain_target audio_out path))
    as [Hf [Heq|(k & Hk & Hr & Hplain & Hb)]]; [lia | lia | intros; lia | intros; lia | |].
  - left. split; [|exact Heq]. by rewrite Heq in Hf.
  - right. split; [exact Hplain|]. exists k. split; [done|]. split; [exact Hr | exact Hb].
Qed.

Lemma audio_loop_numbered audio_out (fs0 : tree) paths :
  ∀ (fs fs' : tree) m m',
    (∀ p c, fs0 !! p = Some c -> fs !! p = Some c) ->
    (∀ path target, (path, target) ∈ m ->
       ∃ (fs_i : tree) c,
         (∀ p c, fs0 !! p = Some c -> fs_i !! p = Some c)
         ∧ (∀ p c, fs_i !! p = Some c -> fs !! p = Some c)
         ∧ fs_i !! path = Some c ∧ fs_i !! target = None ∧ fs !! target = Some c
         ∧ (exists_ fs_i (plain_target audio_out path) = false
            ∧ target = plain_target audio_out path
            ∨ exists_ fs_i (plain_target audio_out path) = true
              ∧ ∃ k, (1 <= k)%nat ∧ target = numbered_target audio_out path k
                     ∧ ∀ j, (1 <= j < k)%nat ->
                            exists_ fs_i (numbered_target audio_out path j) = true)) ->
    audio_loop audio_out paths fs m = (fs', Ok m') ->
    ∀ path target, (path, target) ∈ m' ->
       ∃ (fs_i : tree) c,
         (∀ p c, fs0 !! p = Some c -> fs_i !! p = Some c)
         ∧ (∀ p c, fs_i !! p = Some c -> fs' !! p = Some c)
         ∧ fs_i !! path = Some c ∧ fs_i !! target = None ∧ fs' !! target = Some c
         ∧ (exists_ fs_i (plain_target audio_out path) = false
            ∧ target = plain_target audio_out path
            ∨ exists_ fs_i (plain_target audio_out path) = true
              ∧ ∃ k, (1 <= k)%nat ∧ target = numbered_target audio_out path k
                     ∧ ∀ j, (1 <= j < k)%nat ->
                            exists_ fs_i (numbered_target audio_out path j) = true).
Proof.
  induction paths as [|path rest IH]; intros fs fs' m m' Hsub Hm; simpl.
  - intros [= <- <-]. exact Hm.
  - destruct (audio_target_first_unused fs audio_out path) as [Hnone Hshape].
    set (target := audio_target fs audio_out path) in *.
    unfold copy2. destruct (fs !! path) as [c|] eqn:Hpath; [|done].
    apply IH.
    + intros p c' Hp. rewrite lookup_insert_ne; [by apply Hsub|].
      intros <-. apply Hsub in Hp. congruence.
    + intros p t Hpt.
      assert (Hcase : (p, t) ∈ m ∨ (p, t) = (path, target)).
      { case_bool_decide.
        - apply list_elem_of_fmap in Hpt as ([k v] & Heq & Hkv).
          case_decide; [subst k; right; congruence | left; by rewrite Heq].
        - apply elem_of_app in Hpt as [? | ->%list_elem_of_singleton]; [by left | by right]. }
      destruct Hcase as [Hold|Heq]; [|injection Heq as -> ->].
      * destruct (Hm p t Hold) as (fs_i & c' & H0 & Hi & Hp & Ht & Hcur & Hsh).
        assert (Hkeep : ∀ q d, fs !! q = Some d -> <[target := c]> fs !! q = Some d).
        { intros q d Hq. rewrite lookup_insert_ne; [done | congruence]. }
        exists fs_i, c'. split_and!; try done; [intros q d Hq|]; by apply Hkeep; auto.
      * exists fs, c. split_and!; try done; [|by rewrite lookup_insert_eq].
        intros q d Hq. rewrite lookup_insert_ne; [done | congruence].
Qed.

(** C3 (as amended): [extract_audio] never writes over a file.  For each
    pair of the map it returns, at the time the source was copied the
    target did not exist; it is the plain target [name.ext] when that did
    not exist, and otherwise the numbered sibling [name_k.ext] (the number
    before the extension) with the first k = 1, 2, ... whose path did not
    exist; the target holds what the source held; and every file that
    existed before the call, or at that time, is unchanged at the end. *)
Theorem audio_collision_numbered walk out_root (fs fs' : tree) m :
  extract_audio walk out_root fs = (fs', Ok m) ->
  (∀ p c, fs !! p = Some c -> fs' !! p = Some c)
  ∧ ∀ path target, (path, target) ∈ m ->
      ∃ (fs_i : tree) c,
        (∀ p c, fs !! p = Some c -> fs_i !! p = Some c)
        ∧ (∀ p c, fs_i !! p = Some c -> fs' !! p = Some c)
        ∧ fs_i !! path = Some c ∧ fs_i !! target = None ∧ fs' !! target = Some c
        ∧ (exists_ fs_i (plain_target (join out_root "audio") path) = false
           ∧ target = plain_target (join out_root "audio") path
           ∨ exists_ fs_i (plain_target (join out_root "audio") path) = true
             ∧ ∃ k, (1 <= k)%nat ∧ target = numbered_target (join out_root "audio") path k
                    ∧ ∀ j, (1 <= j < k)%nat ->
                           exists_ fs_i (numbered_target (join out_root "audio") path j) = true).
Proof.
  intros H. split; [by eapply OutputFacts.audio_loop_preserves|].
  eapply (audio_loop_numbered _ fs); [| |exact H]; [done|].
  by intros ? ? ?%elem_of_nil.
Qed.

Lemma audio_collision_numbered_witness :
  (∀ p c, taken_tree !! p = Some c ->
          (extract_audio [("n", ["a.mp3"])] "out" taken_tree).1 !! p = Some c)
  ∧ ∀ path target, (path, target) ∈ [("n/a.mp3", "out/audio/a_1.mp3")] ->
      ∃ (fs_i : tree) c,
        (∀ p c, taken_tree !! p = Some c -> fs_i !! p = Some c)
        ∧ (∀ p c, fs_i !! p = Some c ->
                  (extract_audio [("n", ["a.mp3"])] "out" taken_tree).1 !! p = Some c)
        ∧ fs_i !! path = Some c ∧ fs_i !! target = None
        ∧ (extract_audio [("n", ["a.mp3"])] "out" taken_tree).1 !! target = Some c
        ∧ (exists_ fs_i (plain_target (join "out" "audio") path) = false
           ∧ target = plain_target (join "out" "audio") path
           ∨ exists_ fs_i (plain_target (join "out" "audio") path) = true
             ∧ ∃ k, (1 <= k)%nat ∧ target = numbered_target (join "out" "audio") path k
                    ∧ ∀ j, (1 <= j < k)%nat ->
                           exists_ fs_i (numbered_target (join "out" "audio") path j) = true).
Proof.
  apply (audio_collision_numbered [("n", ["a.mp3"])] "out" taken_tree).
  assert (H2 : (extract_audio [("n", ["a.mp3"])] "out" taken_tree).2
               = Ok [("n/a.mp3", "out/audio/a_1.mp3")]) by (vm_compute; reflexivity).
  destruct (extract_audio _ _ _) as [a b]. simpl in *. by rewrite H2.
Defined.

(** The other writers do not probe.  A file at the path of a spine file
    is replaced, and no numbered sibling is written. *)
Example spine_file_overwritten :
  let fs := <["out/spine/hero/hero.atlas" := TextFile "kept"]> Main.hero_tree in
  let r := Main.main (Main.hero_host ["h.json"]) Main.sample_argv fs in
  r.2 = Main.Completed
  ∧ r.1 !! "out/spine/hero/hero.atlas" = Some (TextFile "size: 4,4")
  ∧ r.1 !! "out/spine/hero/hero_1.atlas" = None.
Proof. repeat split; vm_compute; reflexivity. Qed.

End CollisionFacts.

(** ** Animation clips: the round trip of one clip *)
Module RoundTripFacts.
Import Py Clips.

Lemma nest_is_list n d : ∃ l, nest n (track_of d) = JList l.
Proof. destruct n; simpl; by eexists. Qed.

Lemma collect_frames_track d tm :
  is_Some (dict_get d "frame") -> keyframe_time d = Ok tm ->
  collect_frames ["tex_a"] (track_of d)
  = Ok [ {| time := tm; uuid := Some "tex_a"; uuid_index := Some (JInt 0) |} ].
Proof.
  intros Hd Htm. unfold track_of. rewrite TrackFacts.collect_frames_list.
  simpl. rewrite bool_decide_eq_true_2 by done. simpl. rewrite Htm. reflexivity.
Qed.

Lemma ret_bind {A B} (x : A) (f : A -> result B) : Ok x ≫= f = f x.
Proof. reflexivity. Qed.

Lemma nest_not_keyframe n d : is_keyframe_record (nest n (track_of d)) = false.
Proof. by destruct n as [|[|n]]. Qed.

Lemma nest_not_marker n d : eq_str (nest n (track_of d)) "spriteFrame" = false.
Proof. by destruct n. Qed.

Lemma collect_frames_nest n d tm :
  is_Some (dict_get d "frame") -> keyframe_time d = Ok tm ->
  collect_frames ["tex_a"] (nest n (track_of d))
  = Ok [ {| time := tm; uuid := Some "tex_a"; uuid_index := Some (JInt 0) |} ].
Proof.
  intros Hd Htm. induction n as [|n IH]; [by apply collect_frames_track|].
  cbn [nest]. rewrite TrackFacts.collect_frames_list.
  cbn [direct_frames nested_frames]. rewrite IH, nest_not_keyframe. reflexivity.
Qed.

Lemma find_clips_track d tm c0 :
  is_Some (dict_get d "frame") -> keyframe_time d = Ok tm ->
  find_clips ["tex_a"] (track_of d) (Some 0%nat) [c0]
  = Ok [ {| name := name c0; duration := duration c0; sample := sample c0;
            tracks := tracks c0 ++ [ {| type := "spriteFrame";
                                        frames := [ {| time := tm; uuid := Some "tex_a";
                                                       uuid_index := Some (JInt 0) |} ] |} ] |} ].
Proof.
  intros Hd Htm. unfold track_of at 1. rewrite TrackFacts.find_clips_list.
  fold (track_of d). rewrite (collect_frames_track d tm Hd Htm).
  reflexivity.
Qed.

Lemma find_clips_nest n d tm c0 :
  is_Some (dict_get d "frame") -> keyframe_time d = Ok tm ->
  find_clips ["tex_a"] (nest n (track_of d)) (Some 0%nat) [c0]
  = Ok [ {| name := name c0; duration := duration c0; sample := sample c0;
            tracks := tracks c0 ++ [ {| type := "spriteFrame";
                                        frames := [ {| time := tm; uuid := Some "tex_a";
                                                       uuid_index := Some (JInt 0) |} ] |} ] |} ].
Proof.
  intros Hd Htm. induction n as [|n IH]; [by apply find_clips_track|].
  cbn [nest]. rewrite TrackFacts.find_clips_list.
  cbn [is_clip_header existsb children_clips]. rewrite nest_not_marker.
  rewrite ret_bind. cbv beta iota. cbn [orb]. rewrite ret_bind, IH. reflexivity.
Qed.

Lemma open_clip_run below :
  open_clip [JInt 0; JStr "run"; JFloat (float_lit 3 (-1)); JInt 24; below]
  = Ok {| name := "run"; duration := float_lit 3 (-1); sample := Some (float_lit 24 0);
          tracks := [] |}.
Proof. vm_compute. reflexivity. Qed.

(** C4 (as amended): a document [[d0, ["tex_a"], [0, "run", 1.5, 24, B]]],
    whose clip node starts with the header entries and has as its next
    entry [B] the track [["spriteFrame", [D, "value", 6, 0]]], bare or
    wrapped in any number of one-element lists, is extracted as exactly
    one clip named "run" of duration 1.5 and sample rate 24, with exactly
    one track, whose single keyframe has the time of the map [D] and
    resolves to "tex_a".  This holds whatever [d0] is, a list apart, and
    for every map [D] with a "frame" field whose time can be read. *)
Theorem run_clip_round_trip d0 n d tm :
  is_list d0 = false ->
  is_Some (dict_get d "frame") -> keyframe_time d = Ok tm ->
  parse_animation_clip (run_clip_document d0 (nest n (track_of d)))
  = Ok [ {| name := "run"; duration := float_lit 3 (-1); sample := Some (float_lit 24 0);
            tracks := [ {| type := "spriteFrame";
                           frames := [ {| time := tm; uuid := Some "tex_a";
                                          uuid_index := Some (JInt 0) |} ] |} ] |} ].
Proof.
  intros Hd0 Hd Htm. unfold parse_animation_clip, run_clip_document.
  change (uuids_of _) with ["tex_a"].
  rewrite TrackFacts.find_clips_list.
  assert (Hhead : is_clip_header [d0; JList [JStr "tex_a"];
                    JList [JInt 0; JStr "run"; JFloat (float_lit 3 (-1)); JInt 24;
                           nest n (track_of d)]] = false).
  { cbn. by rewrite !andb_false_r. }
  rewrite Hhead. rewrite ret_bind. cbv beta iota.
  assert (Hc : collect_frames ["tex_a"]
                 (JList [d0; JList [JStr "tex_a"];
                         JList [JInt 0; JStr "run"; JFloat (float_lit 3 (-1)); JInt 24;
                                nest n (track_of d)]])
               = Ok [ {| time := tm; uuid := Some "tex_a"; uuid_index := Some (JInt 0) |} ]).
  { rewrite TrackFacts.collect_frames_list. cbn [direct_frames nested_frames].
    replace (is_keyframe_record d0) with false by (by destruct d0).
    replace (collect_frames ["tex_a"] d0) with (@Ok (list frame) []) by (by destruct d0).
    rewrite (TrackFacts.collect_frames_list _ [JInt 0; _; _; _; _]).
    cbn [direct_frames nested_frames].
    rewrite nest_not_keyframe, (collect_frames_nest n d tm Hd Htm). reflexivity. }
  rewrite Hc.
  replace (existsb _ _ ) with (eq_str d0 "spriteFrame")
    by (simpl; by rewrite orb_false_r).
  assert (Hstart : (if eq_str d0 "spriteFrame"
                    then Ok [ {| time := tm; uuid := Some "tex_a"; uuid_index := Some (JInt 0) |} ]
                         ≫= (fun _ : list frame => @Ok (list clip) [])
                    else Ok []) = Ok []) by (by destruct (eq_str d0 "spriteFrame")).
  rewrite Hstart, ret_bind. clear Hstart Hc Hhead.
  cbn [children_clips].
  replace (find_clips ["tex_a"] d0 None []) with (@Ok (list clip) []) by (by destruct d0).
  rewrite ret_bind.
  replace (find_clips ["tex_a"] (JList [JStr "tex_a"]) None []) with (@Ok (list clip) [])
    by reflexivity.
  rewrite ret_bind, TrackFacts.find_clips_list.
  change (is_clip_header _) with true. cbv iota.
  rewrite open_clip_run, !ret_bind. cbv beta iota.
  replace (existsb _ _) with false
    by (cbn [existsb]; rewrite nest_not_marker; reflexivity).
  rewrite ret_bind. cbn [children_clips length app find_clips].
  rewrite !ret_bind, (find_clips_nest n d tm _ Hd Htm). reflexivity.
Qed.

Lemma run_clip_round_trip_witness :
  parse_animation_clip
    (run_clip_document (JInt 1) (nest 2 (track_of [("frame", JInt 0); ("curve", JNull)])))
  = Ok [ {| name := "run"; duration := float_lit 3 (-1); sample := Some (float_lit 24 0);
            tracks := [ {| type := "spriteFrame";
                           frames := [ {| time := Some (float_lit 0 0); uuid := Some "tex_a";
                                          uuid_index := Some (JInt 0) |} ] |} ] |} ].
Proof.
  apply (run_clip_round_trip (JInt 1) 2 [("frame", JInt 0); ("curve", JNull)]
           (Some (float_lit 0 0))).
  - reflexivity.
  - simpl. by eexists.
  - vm_compute. reflexivity.
Defined.

(** C4 (as stated) fails: the header and a nested sprite-frame keyframe
    after it do not suffice.  When the track follows the header list as
    its sibling, or lies in a map below the clip node, the clip "run" is
    extracted without any track. *)
Lemma track_outside_clip_node_lost :
  parse_animation_clip
    (JList [JInt 1; JList [JStr "tex_a"];
            JList [JInt 0; JStr "run"; JFloat (float_lit 3 (-1)); JInt 24];
            track_of [("frame", JInt 0)]])
  = Ok [ {| name := "run"; duration := float_lit 3 (-1);
            sample := Some (float_lit 24 0); tracks := [] |} ]
  ∧ parse_animation_clip
      (run_clip_document (JInt 1) (JDict [("track", track_of [("frame", JInt 0)])]))
    = Ok [ {| name := "run"; duration := float_lit 3 (-1);
              sample := Some (float_lit 24 0); tracks := [] |} ].
Proof. split; vm_compute; reflexivity. Qed.

End RoundTripFacts.
